(** * ContractVizV2 — the valuation engine of [EstimatedValue.tsx]

    A shallow embedding of the [calculations] memo of
    [src/components/screens/EstimatedValue.tsx] (cohort aggregation, stat
    comparator, weighted multiplier, per-stat impact decomposition and the
    years adjustment), together with the statements of the specification
    about it.

    JavaScript numbers are modelled as exact rationals extended with the
    three non-finite IEEE values ([Infinity], [-Infinity], [NaN]); rounding
    error is abstracted away, the propagation of non-finite values is not.
    What is proved in this model are bounds, signs, the places where [NaN]
    arises and the structure of the results; whether two different
    computations return the identical double is not decided by it. The one
    statement of that kind, on the ratio of the defensive and base-running
    stats when both values are moved by the same amount, is made in
    [Arith], where the result of every operation is rounded.
    The negative zero is identified with zero: the only unguarded divisors
    of the engine ([totalWeight], [activeComps.length]) are sums started at
    [+0] or lengths, which are never [-0].

    Objects read by property name (stat snapshots, [customWeights],
    [STAT_KEY_MAP], the stat configuration tables) are keyed by strings, a
    missing property being [None]; fields typed [number] on a comparable
    ([AAV], [years]) are rationals, and a signing year is an integer or
    absent. The blocks computing [pctDiff] and [ratio] inside the
    [statComparisons] callback are named [pctDiffOf] and [ratioOf].

    Beside the memo the file embeds the state of the comp selection
    (initial value, checkbox handler, synchronisation effect), the table
    helper [getStatValue], the weight presets with [getWeightsForPosition]
    and [normalizePosition] (on ASCII strings), the counting part of
    [loadPrimaryPosition] (rows as the values read from them, with
    [normalizePlayerName] a parameter), and the calculated values of
    [src/components/narrative/ContractContext.tsx]. *)

From Stdlib Require Import QArith Qround Qabs Qminmax Qpower Lqa ZArith Lia List String Ascii Bool.
From Stdlib Require Floats Uint63.
Import ListNotations.

Local Open Scope Q_scope.

(** ** JavaScript numbers *)

Module JS.

Inductive num : Type :=
  | Fin (q : Q)
  | PInf
  | NInf
  | NaN.

Definition zero : num := Fin 0.
Definition one : num := Fin 1.

(** Representation equality: rationals up to [Qeq], non-finite values by
    constructor (so [NaN] is [same] as [NaN], unlike JavaScript's [===]). *)
Definition same (a b : num) : Prop :=
  match a, b with
  | Fin x, Fin y => x == y
  | PInf, PInf | NInf, NInf | NaN, NaN => True
  | _, _ => False
  end.

Definition same_b (a b : num) : bool :=
  match a, b with
  | Fin x, Fin y => Qeq_bool x y
  | PInf, PInf | NInf, NInf | NaN, NaN => true
  | _, _ => false
  end.

Definition Qltb (x y : Q) : bool := negb (Qle_bool y x).

Definition neg (a : num) : num :=
  match a with
  | Fin x => Fin (- x)
  | PInf => NInf
  | NInf => PInf
  | NaN => NaN
  end.

Definition add (a b : num) : num :=
  match a, b with
  | NaN, _ | _, NaN => NaN
  | Fin x, Fin y => Fin (x + y)
  | PInf, NInf | NInf, PInf => NaN
  | PInf, _ | _, PInf => PInf
  | NInf, _ | _, NInf => NInf
  end.

Definition sub (a b : num) : num := add a (neg b).

(** Sign of a number as a comparison; [None] for [NaN]. *)
Definition sgn (a : num) : option comparison :=
  match a with
  | Fin x => Some (x ?= 0)
  | PInf => Some Gt
  | NInf => Some Lt
  | NaN => None
  end.

Definition inf_of (s1 s2 : comparison) : num :=
  match s1, s2 with
  | Eq, _ | _, Eq => NaN
  | Gt, Gt | Lt, Lt => PInf
  | _, _ => NInf
  end.

Definition mul (a b : num) : num :=
  match a, b with
  | Fin x, Fin y => Fin (x * y)
  | _, _ =>
      match sgn a, sgn b with
      | Some s1, Some s2 => inf_of s1 s2
      | _, _ => NaN
      end
  end.

(** Division: a zero divisor is [+0], so [x / 0] is an infinity of the sign
    of [x] and [0 / 0] is [NaN]. *)
Definition div (a b : num) : num :=
  match a, b with
  | NaN, _ | _, NaN => NaN
  | Fin x, Fin y =>
      if Qeq_bool y 0 then
        match x ?= 0 with Eq => NaN | Gt => PInf | Lt => NInf end
      else Fin (x / y)
  | Fin _, _ => Fin 0
  | _, Fin y => if Qltb y 0 then neg a else a
  | _, _ => NaN
  end.

(** Comparisons; every comparison with [NaN] is false. *)
Definition lt (a b : num) : bool :=
  match a, b with
  | NaN, _ | _, NaN => false
  | Fin x, Fin y => Qltb x y
  | NInf, NInf | PInf, _ => false
  | NInf, _ => true
  | _, NInf => false
  | _, PInf => true
  end.

Definition gt (a b : num) : bool := lt b a.

Definition le (a b : num) : bool :=
  match a, b with
  | NaN, _ | _, NaN => false
  | Fin x, Fin y => Qle_bool x y
  | NInf, _ => true
  | _, PInf => true
  | _, _ => false
  end.

Definition ge (a b : num) : bool := le b a.

(** [a !== b] on numbers. *)
Definition strict_neq (a b : num) : bool :=
  match a, b with
  | NaN, _ | _, NaN => true
  | _, _ => negb (same_b a b)
  end.

Definition isNaN (a : num) : bool :=
  match a with NaN => true | _ => false end.

(** [Math.max] and [Math.min]: [NaN] as soon as one argument is. *)
Definition max (a b : num) : num :=
  match a, b with
  | NaN, _ | _, NaN => NaN
  | _, _ => if le a b then b else a
  end.

Definition min (a b : num) : num :=
  match a, b with
  | NaN, _ | _, NaN => NaN
  | _, _ => if le a b then a else b
  end.

Definition abs (a : num) : num :=
  match a with
  | Fin x => Fin (Qabs x)
  | PInf | NInf => PInf
  | NaN => NaN
  end.

(** [Math.sign]. *)
Definition sign (a : num) : num :=
  match sgn a with
  | Some Gt => Fin 1
  | Some Lt => Fin (-1)
  | Some Eq => Fin 0
  | None => NaN
  end.

(** [Math.round]: the nearest integer, ties towards [+Infinity]. *)
Definition round (a : num) : num :=
  match a with
  | Fin x => Fin (inject_Z (Qfloor (x + (1 # 2))))
  | _ => a
  end.

(** [Math.pow] at an integer exponent [n >= 0] (the only use in the engine). *)
Definition pow (a : num) (n : Z) : num :=
  if (n =? 0)%Z then Fin 1 else
  match a with
  | Fin x => Fin (x ^ n)
  | PInf => PInf
  | NInf => if Z.even n then PInf else NInf
  | NaN => NaN
  end.

(** Truthiness of a number: [0] and [NaN] are falsy. *)
Definition truthy (a : num) : bool :=
  match a with
  | Fin x => negb (Qeq_bool x 0)
  | PInf | NInf => true
  | NaN => false
  end.

(** A possibly [undefined] numeric property, as read from an object. *)
Definition value := option Q.

(** ToNumber: [undefined] becomes [NaN]. *)
Definition toNum (v : value) : num :=
  match v with
  | Some q => Fin q
  | None => NaN
  end.

(** [a || b] where [a] is a number or [undefined] and the result is used as
    a number. *)
Definition or (a b : num) : num := if truthy a then a else b.

Definition ofNat (n : nat) : num := Fin (inject_Z (Z.of_nat n)).

End JS.

Import JS.

Declare Scope js_scope.
Delimit Scope js_scope with js.
Infix "+" := JS.add : js_scope.
Infix "-" := JS.sub : js_scope.
Infix "*" := JS.mul : js_scope.
Infix "/" := JS.div : js_scope.

Local Open Scope string_scope.

(** ** Stat configuration tables *)

(** Mapping from config key to the [PlayerStats] field name, or the special
    marker ["HR"]. *)
Definition STAT_KEY_MAP : list (string * string) :=
  [ ("fg_RBI", "RBI");
    ("fg_HR", "HR");
    ("fg_OPS", "OPS");
    ("fg_wRC+", "wRCplus");
    ("fg_BB%", "BBpct");
    ("fg_K%", "Kpct");
    ("fg_PA", "PA");
    ("fg_WAR", "WAR");
    ("fg_xwOBA", "xwOBA");
    ("fg_xSLG", "xSLG");
    ("sc_EV_brl_pa", "BarrelPerPA");
    ("sc_EV_ev50", "EV50");
    ("fg_Def", "fg_Def");
    ("fg_BsR", "fg_BsR");
    ("fg_ERA", "ERA");
    ("fg_FIP", "FIP");
    ("fg_xFIP", "xFIP");
    ("fg_K/9", "Kper9");
    ("fg_BB/9", "BBper9");
    ("fg_WHIP", "WHIP");
    ("fg_IP", "IP") ].

Fixpoint assoc {A : Type} (k : string) (l : list (string * A)) : option A :=
  match l with
  | [] => None
  | (k', v) :: rest => if String.eqb k k' then Some v else assoc k rest
  end.

(** [STAT_KEY_MAP[configKey]]; a missing entry is [undefined], which as a
    property name reads ["undefined"]. *)
Definition statKeyOf (configKey : string) : string :=
  match assoc configKey STAT_KEY_MAP with
  | Some k => k
  | None => "undefined"
  end.

Record StatConfig : Type := mkConfig {
  label : string;
  higherBetter : bool;
  default_weight : Q;
  decimals : nat;
  scale : string
}.

Definition STAT_CONFIG : list (string * StatConfig) :=
  [ ("fg_RBI", mkConfig "RBI" true 0.1 0 "raw");
    ("fg_HR", mkConfig "HR" true 0.1 0 "raw");
    ("fg_OPS", mkConfig "OPS" true 0.1 3 "decimal");
    ("fg_wRC+", mkConfig "wRC+" true 0.1 0 "raw");
    ("fg_BB%", mkConfig "BB%" true 0.1 1 "pct");
    ("fg_K%", mkConfig "K%" false 0.1 1 "pct");
    ("fg_PA", mkConfig "PA" true 0.1 0 "raw");
    ("fg_WAR", mkConfig "WAR" true 0.1 1 "raw");
    ("fg_xwOBA", mkConfig "xwOBA" true 0.1 3 "decimal");
    ("fg_xSLG", mkConfig "xSLG" true 0.1 3 "decimal");
    ("sc_EV_brl_pa", mkConfig "Barrels/PA" true 0.1 1 "pct");
    ("sc_EV_ev50", mkConfig "avgEV" true 0.1 1 "mph");
    ("fg_Def", mkConfig "Def" true 0.1 1 "runs");
    ("fg_BsR", mkConfig "BsR" true 0.1 1 "runs") ].

Definition PITCHER_STAT_CONFIG : list (string * StatConfig) :=
  [ ("fg_ERA", mkConfig "ERA" false 0.15 2 "decimal");
    ("fg_FIP", mkConfig "FIP" false 0.15 2 "decimal");
    ("fg_xFIP", mkConfig "xFIP" false 0.15 2 "decimal");
    ("fg_K/9", mkConfig "K/9" true 0.15 1 "raw");
    ("fg_BB/9", mkConfig "BB/9" false 0.15 2 "raw");
    ("fg_WHIP", mkConfig "WHIP" false 0.15 2 "decimal");
    ("fg_IP", mkConfig "IP" true 0.10 1 "raw");
    ("fg_WAR", mkConfig "WAR" true 0.20 1 "raw") ].

(** ** Data model *)

(** A statistical snapshot is an object read by property name; a missing or
    [undefined] property is [None]. *)
Definition PlayerStats := string -> JS.value.

Record Player : Type := mkPlayer {
  id : string;
  AAV : Q;
  years : Q;
  signedYear : option Z;  (* a calendar year, or undefined *)
  threeYearStats : PlayerStats;
  threeYearContractStats : option PlayerStats
}.

(** What the [calculations] memo closes over. *)
Record Inputs : Type := mkInputs {
  PETE_STATS : PlayerStats;            (* player.threeYearStats *)
  isPitcherPlayer : bool;              (* isPitcher(player) *)
  COMPS : list Player;
  selectedComps : list string;         (* Set<string> of comp ids *)
  customWeights : string -> JS.value;  (* Record<string, number> *)
  adjustAAV : bool;
  adjustYears : bool;
  inflationPercent : Q
}.

Record StatComparison : Type := mkComparison {
  stat : string;
  key : string;
  peteValue : num;
  cohortValue : num;
  ratio : num;
  delta : num;
  pctDiff : num;
  weight : num
}.

(** [{...comp, contribution, aavImpact}] *)
Record StatImpact : Type := mkImpact {
  comp : StatComparison;
  contribution : num;
  aavImpact : num
}.

(** The fields of the returned object that both branches of the memo
    define. *)
Record Calculations : Type := mkCalculations {
  baselineAAV : num;
  baselineYears : num;
  fairAAV : num;
  fairYears : num;
  aavMultiplier : num;
  yearsAdjustment : num;
  cohortStats : list (string * num);
  statComparisons : list StatComparison;
  statImpacts : list StatImpact
}.

(** ** The [calculations] memo *)

Module Calc.

Local Open Scope js_scope.

Definition sumNums (l : list num) : num :=
  fold_left (fun sum v => sum + v) l (Fin 0).

(** [o[k] = v] on an object kept in insertion order. *)
Fixpoint obj_set (o : list (string * num)) (k : string) (v : num)
  : list (string * num) :=
  match o with
  | [] => [(k, v)]
  | (k', v') :: rest =>
      if String.eqb k k' then (k, v) :: rest else (k', v') :: obj_set rest k v
  end.

(** [o[k]] used as a number. *)
Definition obj_get (o : list (string * num)) (k : string) : num :=
  match assoc k o with
  | Some v => v
  | None => NaN
  end.

Definition clamp (lo hi x : num) : num := JS.max lo (JS.min hi x).

(** Percentage difference, protected against very small denominators. *)
Definition pctDiffOf (delta cohortValue : num) : num :=
  if JS.lt (JS.abs cohortValue) (Fin 0.001) then
    JS.sign delta * JS.min (Fin 500) (JS.abs (delta * Fin 100))
  else
    let pctDiff := (delta / JS.abs cohortValue) * Fin 100 in
    JS.max (Fin (-500)) (JS.min (Fin 500) pctDiff).

(** The ratio used for the AAV impact: three branches on the stat. *)
Definition ratioOf (configKey : string) (higherBetter : bool)
    (peteValue cohortValue : num) : num :=
  let delta := peteValue - cohortValue in
  if orb (String.eqb configKey "fg_Def") (String.eqb configKey "fg_BsR") then
    let typicalRange := Fin 10 in
    let deltaRatio := Fin 1 + (delta / typicalRange) * Fin 0.2 in
    JS.max (Fin 0.5) (JS.min (Fin 2.0) deltaRatio)
  else if higherBetter then
    let ratio :=
      if JS.lt (JS.abs cohortValue) (Fin 0.001) then
        if JS.gt peteValue (Fin 0) then Fin 1.1
        else if JS.lt peteValue (Fin 0) then Fin 0.9 else Fin 1
      else peteValue / cohortValue in
    JS.max (Fin 0.1) (JS.min (Fin 10) ratio)
  else
    let ratio :=
      if JS.lt (JS.abs peteValue) (Fin 0.001) then
        if JS.gt cohortValue (Fin 0) then Fin 1.1
        else if JS.lt cohortValue (Fin 0) then Fin 0.9 else Fin 1
      else cohortValue / peteValue in
    JS.max (Fin 0.1) (JS.min (Fin 10) ratio).

(** The body of [statComparisons.map((comp) => ...)]: the two accumulators
    [weightedSum] and [totalWeight] are updated before the impact of the
    current stat is computed from them. Returns the impacts and the final
    accumulators. *)
Fixpoint statImpacts_loop (baselineAAV : num) (comps : list StatComparison)
    (weightedSum totalWeight : num) : list StatImpact * num * num :=
  match comps with
  | [] => ([], weightedSum, totalWeight)
  | comp :: rest =>
      let contribution := (ratio comp - Fin 1) * weight comp in
      let weightedSum := weightedSum + ratio comp * weight comp in
      let totalWeight := totalWeight + weight comp in
      let aavImpact := baselineAAV * contribution / totalWeight in
      let '(impacts, ws, tw) :=
        statImpacts_loop baselineAAV rest weightedSum totalWeight in
      (mkImpact comp contribution aavImpact :: impacts, ws, tw)
  end.

Section Memo.

Variable inp : Inputs.

Definition activeStatConfig : list (string * StatConfig) :=
  if isPitcherPlayer inp then PITCHER_STAT_CONFIG else STAT_CONFIG.

Definition activeComps : list Player :=
  filter (fun c => existsb (String.eqb (id c)) (selectedComps inp)) (COMPS inp).

Definition count : num := JS.ofNat (List.length activeComps).

(** *** Baseline from comps adjusted for inflation *)

Definition presentYear : Z := 2025.

Definition inflationRate : num :=
  JS.max (Fin 0) (Fin (inflationPercent inp)) / Fin 100.

Definition yearsSinceSigning (c : Player) : Z :=
  match signedYear c with
  | Some signedYear =>
      if (signedYear =? 0)%Z then 0%Z
      else Z.max 0 (presentYear - signedYear)
  | None => 0%Z
  end.

Definition adjustedAAV (c : Player) : num :=
  let factor := JS.pow (Fin 1 + inflationRate) (yearsSinceSigning c) in
  Fin (AAV c) * factor.

Definition adjustedAAVs : list num := map adjustedAAV activeComps.

Definition baselineAAV : num := sumNums adjustedAAVs / count.

Definition baselineYears : num :=
  fold_left (fun sum c => sum + Fin (years c)) activeComps (Fin 0) / count.

(** Cohort average age at signing. *)
Definition ageAtSigning (c : Player) : num :=
  JS.or (match threeYearContractStats c with
         | Some s => JS.toNum (s "age")
         | None => NaN
         end)
        (JS.toNum (threeYearStats c "age")).

Definition cohortSigningAge : num :=
  JS.or (fold_left (fun sum c => sum + ageAtSigning c) activeComps (Fin 0) / count)
        (JS.toNum (PETE_STATS inp "age")).

(** *** Cohort average stats (pre-contract stats preferred) *)

Definition snapshot (c : Player) : PlayerStats :=
  match threeYearContractStats c with
  | Some s => s
  | None => threeYearStats c
  end.

Definition cohortStat (statKey : string) : num :=
  if String.eqb statKey "HR" then
    let avgHr :=
      fold_left (fun sum c =>
                   let hr := JS.round (JS.or (JS.toNum (snapshot c "HRperPA")) (Fin 0)) in
                   sum + hr) activeComps (Fin 0) / count in
    if JS.isNaN avgHr then Fin 0 else avgHr
  else
    fold_left (fun sum c =>
                 sum + JS.or (JS.toNum (snapshot c statKey)) (Fin 0))
              activeComps (Fin 0) / count.

Definition cohortStats : list (string * num) :=
  fold_left (fun acc configKey =>
               let statKey := statKeyOf configKey in
               obj_set acc statKey (cohortStat statKey))
            (map fst activeStatConfig) [].

(** *** Performance relative to the cohort, per stat *)

Definition statComparison (entry : string * StatConfig) : StatComparison :=
  let configKey := fst entry in
  let config := snd entry in
  let statKey := statKeyOf configKey in
  let peteValue :=
    if String.eqb statKey "HR"
    then JS.round (JS.toNum (PETE_STATS inp "HRperPA"))
    else JS.or (JS.toNum (PETE_STATS inp statKey)) (Fin 0) in
  let cohortValue :=
    if String.eqb statKey "HR"
    then obj_get cohortStats statKey
    else JS.or (obj_get cohortStats statKey) (Fin 0) in
  let delta := peteValue - cohortValue in
  mkComparison (label config) configKey peteValue cohortValue
    (ratioOf configKey (higherBetter config) peteValue cohortValue)
    delta
    (pctDiffOf delta cohortValue)
    (JS.toNum (customWeights inp configKey)).

Definition statComparisons : list StatComparison :=
  map statComparison activeStatConfig.

(** *** Weighted multiplier and individual stat impacts *)

Definition statImpacts_run : list StatImpact * num * num :=
  statImpacts_loop baselineAAV statComparisons (Fin 0) (Fin 0).

Definition statImpacts : list StatImpact := fst (fst statImpacts_run).
Definition weightedSum : num := snd (fst statImpacts_run).
Definition totalWeight : num := snd statImpacts_run.

Definition rawMultiplier : num := weightedSum / totalWeight.

Definition sensitivityMultiplier : num := Fin 1.4.

Definition scaledMultiplier : num :=
  Fin 1 + (rawMultiplier - Fin 1) * sensitivityMultiplier.

Definition aavMultiplier : num :=
  if adjustAAV inp
  then JS.max (Fin 0.50) (JS.min (Fin 2.0) scaledMultiplier)
  else Fin 1.0.

Definition fairAAV : num := baselineAAV * aavMultiplier.

(** *** Scaling of the impacts to the realized difference *)

Definition rawImpactSum : num :=
  fold_left (fun sum impact => sum + aavImpact impact) statImpacts (Fin 0).

Definition actualDifference : num := fairAAV - baselineAAV.

Definition impactScale : num :=
  if JS.strict_neq rawImpactSum (Fin 0)
  then actualDifference / rawImpactSum
  else Fin 1.

Definition scaledStatImpacts : list StatImpact :=
  map (fun impact =>
         mkImpact (comp impact) (contribution impact)
                  (aavImpact impact * impactScale))
      statImpacts.

(** *** Years adjustment *)

Definition subjectAge : num := JS.toNum (PETE_STATS inp "age").

Definition ageDelta : num := subjectAge - cohortSigningAge.

Definition olderDelta : num := JS.max (Fin 0) ageDelta.
Definition youngerDelta : num := JS.max (Fin 0) (JS.neg ageDelta).

Definition penaltyComponent : num :=
  if isPitcherPlayer inp
  then (Fin 0.03 * olderDelta) + (Fin 0.005 * olderDelta * olderDelta)
  else (Fin 0.05 * olderDelta) + (Fin 0.010 * olderDelta * olderDelta).

Definition benefitComponent : num :=
  if isPitcherPlayer inp
  then (Fin 0.05 * youngerDelta) - (Fin 0.002 * youngerDelta * youngerDelta)
  else (Fin 0.03 * youngerDelta) - (Fin 0.005 * youngerDelta * youngerDelta).

Definition rawAgeMultiplier : num :=
  Fin 1 - penaltyComponent + benefitComponent.

Definition isVeryYoungHighPerformer : bool :=
  andb (JS.le subjectAge (Fin 25)) (JS.ge aavMultiplier (Fin 1.15)).

Definition ageMultiplier : num :=
  if isVeryYoungHighPerformer then
    let boostedMultiplier := rawAgeMultiplier * Fin 1.15 in
    JS.max (Fin 0.6) (JS.min (Fin 1.8) boostedMultiplier)
  else
    JS.max (Fin 0.6) (JS.min (Fin 1.5) rawAgeMultiplier).

Definition absoluteAgePenalty : num :=
  if isPitcherPlayer inp then
    if JS.ge subjectAge (Fin 33)
    then JS.min (Fin 1.5) ((subjectAge - Fin 32) * Fin 0.15)
    else Fin 0
  else
    if JS.ge subjectAge (Fin 31)
    then JS.min (Fin 2.0) ((subjectAge - Fin 30) * Fin 0.25)
    else Fin 0.

Definition performanceMultiplier : num :=
  if andb (isPitcherPlayer inp) (JS.gt youngerDelta (Fin 0))
  then Fin 2.75 else Fin 1.8.

Definition performanceAdjustmentRaw : num :=
  (aavMultiplier - Fin 1) * performanceMultiplier.

Definition performanceAdjustment : num :=
  JS.max (Fin (-1.5)) (JS.min (Fin 1.5) performanceAdjustmentRaw).

Definition totalYearsAdjustment : num :=
  if adjustYears inp
  then ((baselineYears * ageMultiplier) - baselineYears)
       - absoluteAgePenalty + performanceAdjustment
  else Fin 0.

Definition softCapLimit : num :=
  if isVeryYoungHighPerformer then Fin 5.0 else Fin 2.0.

Definition proposedYears : num := baselineYears + totalYearsAdjustment.

Definition cappedYears : num :=
  JS.min (baselineYears + softCapLimit) proposedYears.

Definition fairYears : num :=
  JS.max (Fin 1) (JS.round (cappedYears * Fin 2) / Fin 2).

(** *** The returned object *)

Definition calculations : Calculations :=
  match activeComps with
  | [] =>
      mkCalculations (Fin 0) (Fin 0) (Fin 0) (Fin 0) (Fin 1) (Fin 0) [] [] []
  | _ :: _ =>
      mkCalculations baselineAAV baselineYears fairAAV fairYears
        aavMultiplier totalYearsAdjustment cohortStats statComparisons
        scaledStatImpacts
  end.

End Memo.

End Calc.

(** ** The comp selection state *)

(** A [Set<string>] in insertion order. *)
Module StrSet.

Definition has (s : list string) (x : string) : bool :=
  existsb (String.eqb x) s.

Definition add (s : list string) (x : string) : list string :=
  if has s x then s else s ++ [x].

Definition delete (s : list string) (x : string) : list string :=
  filter (fun y => negb (String.eqb x y)) s.

(** [new Set(array)] *)
Definition ofList (l : list string) : list string :=
  fold_left add l [].

Definition size (s : list string) : nat := List.length s.

End StrSet.

Module Selection.

(** Initial value of [selectedComps]: the saved ids that are still comps,
    or every comp when nothing was saved or nothing saved is left. *)
Definition initial (comps : list Player) (saved : option (list string))
  : list string :=
  let defaultCompIds := map id comps in
  let savedCompIds :=
    match saved with
    | Some ids => filter (fun i => existsb (String.eqb i) defaultCompIds) ids
    | None => defaultCompIds
    end in
  StrSet.ofList
    (if (0 <? List.length savedCompIds)%nat then savedCompIds
     else defaultCompIds).

(** The checkbox handler of a comp: [onCheckedChange(checked)]. *)
Definition toggle (selectedComps : list string) (compId : string)
    (checked : bool) : list string :=
  let newSet := selectedComps in
  if checked then StrSet.add newSet compId
  else if (1 <? StrSet.size newSet)%nat then StrSet.delete newSet compId
       else newSet.

(** The body of the effect that runs when the ids of the [comps] prop have
    changed: the next value of [selectedComps]. *)
Definition sync (comps : list Player) (selectedComps : list string)
  : list string :=
  let currentCompIds := StrSet.ofList (map id comps) in
  let currentSelected := selectedComps in
  let validSelected :=
    filter (fun i => StrSet.has currentCompIds i) currentSelected in
  if andb (0 <? List.length validSelected)%nat
          (Nat.eqb (List.length validSelected) (List.length currentSelected))
  then selectedComps
  else if (0 <? List.length validSelected)%nat
       then StrSet.ofList validSelected
       else currentCompIds.

(** The inputs of the memo with another selection. *)
Definition withSelection (inp : Inputs) (sel : list string) : Inputs :=
  mkInputs (PETE_STATS inp) (isPitcherPlayer inp) (COMPS inp) sel
    (customWeights inp) (adjustAAV inp) (adjustYears inp)
    (inflationPercent inp).

End Selection.

(** ** The value shown in the comparison table *)

(** An object whose properties are numbers, possibly [NaN], or missing. *)
Definition StatsObject := string -> option num.

Definition ofPlayerStats (s : PlayerStats) : StatsObject :=
  fun k => option_map Fin (s k).

Definition ofCohortStats (o : list (string * num)) : StatsObject :=
  fun k => assoc k o.

Definition numOf (v : option num) : num :=
  match v with
  | Some x => x
  | None => NaN
  end.

Definition getStatValue (configKey : string) (stats : StatsObject) : num :=
  let statKey := statKeyOf configKey in
  if String.eqb statKey "HR" then
    let stored :=
      match stats "HR" with
      | Some v => if negb (JS.isNaN v) then Some v else None
      | None => None
      end in
    match stored with
    | Some v => v
    | None =>
        let hrFromHRperPA :=
          JS.round (JS.or (numOf (stats "HRperPA")) (Fin 0)) in
        if JS.isNaN hrFromHRperPA then Fin 0 else hrFromHRperPA
    end
  else
    let value := JS.or (numOf (stats statKey)) (Fin 0) in
    if JS.isNaN value then Fin 0 else value.

(** ** Positions and weight presets *)

(** String methods on ASCII strings. *)
Module Str.

(** White space removed by [trim]: space, tab, line feed, vertical tab,
    form feed, carriage return. *)
Definition isWhite (a : ascii) : bool :=
  let n := N_of_ascii a in
  orb (N.eqb n 32) (andb (N.leb 9 n) (N.leb n 13)).

Definition upper (a : ascii) : ascii :=
  let n := N_of_ascii a in
  if andb (N.leb 97 n) (N.leb n 122) then ascii_of_N (n - 32) else a.

Fixpoint toUpperCase (s : string) : string :=
  match s with
  | EmptyString => EmptyString
  | String a r => String (upper a) (toUpperCase r)
  end.

Fixpoint trimStart (s : string) : string :=
  match s with
  | EmptyString => EmptyString
  | String a r => if isWhite a then trimStart r else s
  end.

Fixpoint trimEnd (s : string) : string :=
  match s with
  | EmptyString => EmptyString
  | String a r =>
      match trimEnd r with
      | EmptyString => if isWhite a then EmptyString else String a EmptyString
      | r' => String a r'
      end
  end.

Definition trim (s : string) : string := trimEnd (trimStart s).

Definition isSep (a : ascii) : bool :=
  orb (Ascii.eqb a "/"%char) (Ascii.eqb a ","%char).

(** [s.split(/[\/,]/)[0]] *)
Fixpoint splitFirst (s : string) : string :=
  match s with
  | EmptyString => EmptyString
  | String a r => if isSep a then EmptyString else String a (splitFirst r)
  end.

End Str.

(** Position-specific weight presets. *)
Definition POSITION_WEIGHTS : list (string * list (string * Q)) :=
  [ ("1B",
     [("fg_RBI", 0.50); ("fg_HR", 0.65); ("fg_OPS", 0.30); ("fg_wRC+", 0.70);
      ("fg_BB%", 0.20); ("fg_K%", 0.20); ("fg_PA", 0.30); ("fg_WAR", 0.60);
      ("fg_xwOBA", 0.50); ("fg_xSLG", 0.30);
      ("sc_EV_brl_pa", 0.30); ("sc_EV_ev50", 0.20);
      ("fg_Def", 0.10); ("fg_BsR", 0.15)]);
    ("DH",
     [("fg_RBI", 0.50); ("fg_HR", 0.60); ("fg_OPS", 0.35); ("fg_wRC+", 0.60);
      ("fg_BB%", 0.25); ("fg_K%", 0.25); ("fg_PA", 0.35); ("fg_WAR", 0.60);
      ("fg_xwOBA", 0.50); ("fg_xSLG", 0.35);
      ("sc_EV_brl_pa", 0.35); ("sc_EV_ev50", 0.25);
      ("fg_Def", 0.00); ("fg_BsR", 0.05)]);
    ("SS",
     [("fg_RBI", 0.20); ("fg_HR", 0.20); ("fg_OPS", 0.30); ("fg_wRC+", 0.50);
      ("fg_BB%", 0.30); ("fg_K%", 0.30); ("fg_PA", 0.50); ("fg_WAR", 0.60);
      ("fg_xwOBA", 0.45); ("fg_xSLG", 0.20);
      ("sc_EV_brl_pa", 0.20); ("sc_EV_ev50", 0.15);
      ("fg_Def", 1.00); ("fg_BsR", 0.10)]);
    ("2B",
     [("fg_RBI", 0.20); ("fg_HR", 0.20); ("fg_OPS", 0.30); ("fg_wRC+", 0.50);
      ("fg_BB%", 0.30); ("fg_K%", 0.30); ("fg_PA", 0.50); ("fg_WAR", 0.60);
      ("fg_xwOBA", 0.35); ("fg_xSLG", 0.20);
      ("sc_EV_brl_pa", 0.20); ("sc_EV_ev50", 0.15);
      ("fg_Def", 0.70); ("fg_BsR", 0.50)]);
    ("3B",
     [("fg_RBI", 0.40); ("fg_HR", 0.55); ("fg_OPS", 0.30); ("fg_wRC+", 0.45);
      ("fg_BB%", 0.20); ("fg_K%", 0.20); ("fg_PA", 0.30); ("fg_WAR", 0.60);
      ("fg_xwOBA", 0.40); ("fg_xSLG", 0.45);
      ("sc_EV_brl_pa", 0.30); ("sc_EV_ev50", 0.20);
      ("fg_Def", 0.55); ("fg_BsR", 0.10)]);
    ("CF",
     [("fg_RBI", 0.20); ("fg_HR", 0.20); ("fg_OPS", 0.30); ("fg_wRC+", 0.50);
      ("fg_BB%", 0.30); ("fg_K%", 0.30); ("fg_PA", 0.40); ("fg_WAR", 0.60);
      ("fg_xwOBA", 0.40); ("fg_xSLG", 0.20);
      ("sc_EV_brl_pa", 0.20); ("sc_EV_ev50", 0.15);
      ("fg_Def", 0.70); ("fg_BsR", 0.55)]);
    ("OF",
     [("fg_RBI", 0.20); ("fg_HR", 0.20); ("fg_OPS", 0.30); ("fg_wRC+", 0.50);
      ("fg_BB%", 0.30); ("fg_K%", 0.30); ("fg_PA", 0.40); ("fg_WAR", 0.60);
      ("fg_xwOBA", 0.40); ("fg_xSLG", 0.20);
      ("sc_EV_brl_pa", 0.20); ("sc_EV_ev50", 0.15);
      ("fg_Def", 0.70); ("fg_BsR", 0.55)]);
    ("LF",
     [("fg_RBI", 0.40); ("fg_HR", 0.45); ("fg_OPS", 0.30); ("fg_wRC+", 0.50);
      ("fg_BB%", 0.30); ("fg_K%", 0.30); ("fg_PA", 0.40); ("fg_WAR", 0.45);
      ("fg_xwOBA", 0.40); ("fg_xSLG", 0.30);
      ("sc_EV_brl_pa", 0.25); ("sc_EV_ev50", 0.20);
      ("fg_Def", 0.50); ("fg_BsR", 0.25)]);
    ("RF",
     [("fg_RBI", 0.40); ("fg_HR", 0.45); ("fg_OPS", 0.30); ("fg_wRC+", 0.50);
      ("fg_BB%", 0.30); ("fg_K%", 0.30); ("fg_PA", 0.40); ("fg_WAR", 0.45);
      ("fg_xwOBA", 0.40); ("fg_xSLG", 0.30);
      ("sc_EV_brl_pa", 0.25); ("sc_EV_ev50", 0.20);
      ("fg_Def", 0.50); ("fg_BsR", 0.25)]);
    ("C",
     [("fg_RBI", 0.25); ("fg_HR", 0.25); ("fg_OPS", 0.35); ("fg_wRC+", 0.50);
      ("fg_BB%", 0.35); ("fg_K%", 0.35); ("fg_PA", 0.60); ("fg_WAR", 0.60);
      ("fg_xwOBA", 0.35); ("fg_xSLG", 0.30);
      ("sc_EV_brl_pa", 0.25); ("sc_EV_ev50", 0.20);
      ("fg_Def", 0.60); ("fg_BsR", 0.05)]);
    ("P",
     [("fg_ERA", 1.0); ("fg_FIP", 0.8); ("fg_xFIP", 0.7); ("fg_K/9", 1.2);
      ("fg_BB/9", 0.8); ("fg_WHIP", 0.9); ("fg_IP", 0.6); ("fg_WAR", 1.5)]);
    ("SP",
     [("fg_ERA", 1.2); ("fg_FIP", 1.0); ("fg_xFIP", 0.9); ("fg_K/9", 1.1);
      ("fg_BB/9", 0.9); ("fg_WHIP", 1.0); ("fg_IP", 1.2); ("fg_WAR", 1.8)]);
    ("RP",
     [("fg_ERA", 1.0); ("fg_FIP", 0.8); ("fg_xFIP", 0.7); ("fg_K/9", 1.2);
      ("fg_BB/9", 0.8); ("fg_WHIP", 0.9); ("fg_IP", 0.6); ("fg_WAR", 1.5)]) ].

(** [Object.fromEntries(Object.entries(config).map(([key, config]) =>
    [key, config.weight]))] *)
Definition defaultWeightsOf (config : list (string * StatConfig))
  : list (string * Q) :=
  map (fun e => (fst e, default_weight (snd e))) config.

(** [position?.trim().toUpperCase() || ''] *)
Definition normalizedPosOf (position : option string) : string :=
  match position with
  | Some p => Str.toUpperCase (Str.trim p)
  | None => ""
  end.

Definition getWeightsForPosition (position : option string)
  : list (string * Q) :=
  let normalizedPos := normalizedPosOf position in
  match assoc normalizedPos POSITION_WEIGHTS with
  | Some positionWeights => positionWeights
  | None =>
      let isPitcherPos :=
        orb (String.eqb normalizedPos "P")
            (orb (String.eqb normalizedPos "SP")
                 (String.eqb normalizedPos "RP")) in
      let defaultConfig :=
        if isPitcherPos then PITCHER_STAT_CONFIG else STAT_CONFIG in
      defaultWeightsOf defaultConfig
  end.

(** The primary position of the player's stored position. *)
Definition normalizePosition (isPitcherPlayer : bool) (pos : option string)
  : string :=
  match pos with
  | None | Some "" => if isPitcherPlayer then "SP" else "1B"
  | Some pos =>
      let normalized := Str.toUpperCase (Str.trim pos) in
      let primary := Str.trim (Str.splitFirst normalized) in
      if isPitcherPlayer then
        if String.eqb primary "" then "SP"
        else if String.eqb primary "P" then "SP" else primary
      else
        if String.eqb primary "" then "1B" else primary
  end.

(** The inputs of the memo with the weights of a position preset. *)
Definition withPositionWeights (inp : Inputs) (position : option string)
  : Inputs :=
  mkInputs (PETE_STATS inp) (isPitcherPlayer inp) (COMPS inp)
    (selectedComps inp)
    (fun k => assoc k (getWeightsForPosition position))
    (adjustAAV inp) (adjustYears inp) (inflationPercent inp).

(** ** The primary position of a player *)

Module PrimaryPosition.

(** Position code to abbreviation. *)
Definition POSITION_CODE_MAP : list (Z * string) :=
  [ (1, "P"); (2, "C"); (3, "1B"); (4, "2B"); (5, "3B"); (6, "SS");
    (7, "OF"); (8, "OF"); (9, "OF"); (10, "DH") ]%Z.

(** [POSITION_CODE_MAP[positionCode]]: a number matches a key when it is
    that integer. *)
Definition codeAbbr (positionCode : Q) : option string :=
  match find (fun e => Qeq_bool positionCode (inject_Z (fst e)))
             POSITION_CODE_MAP with
  | Some e => Some (snd e)
  | None => None
  end.

(** A row of the positions files as the loop reads it: the string and the
    two numbers extracted from it (0 when the column is missing). *)
Record Row : Type := mkRow {
  player_name : string;
  season : Q;
  position_code : Q
}.

(** A [Map<string, number>] of counts, in insertion order. *)
Fixpoint increment (counts : list (string * nat)) (k : string)
  : list (string * nat) :=
  match counts with
  | [] => [(k, 1%nat)]
  | (k', n) :: rest =>
      if String.eqb k k' then (k', (n + 1)%nat) :: rest
      else (k', n) :: increment rest k
  end.

Section Load.

(** [normalizePlayerName] of the CSV loader. *)
Variable normalizePlayerName : string -> string.

(** The abbreviation a row counts for, if the row is not skipped. *)
Definition countedAs (playerId : string) (row : Row) : option string :=
  let name := player_name row in
  let season := season row in
  let positionCode := position_code row in
  if orb (String.eqb name "")
         (orb (negb (Qeq_bool season 2025)) (Qeq_bool positionCode 0))
  then None
  else if negb (String.eqb (normalizePlayerName name) playerId) then None
  else codeAbbr positionCode.

Definition positionCounts (playerId : string) (rows : list Row)
  : list (string * nat) :=
  fold_left (fun counts row =>
               match countedAs playerId row with
               | Some positionAbbr => increment counts positionAbbr
               | None => counts
               end) rows [].

(** The most frequently played position: the first entry with the largest
    count. *)
Definition pickPrimary (counts : list (string * nat)) : nat * option string :=
  fold_left (fun st e =>
               if (fst st <? snd e)%nat then (snd e, Some (fst e)) else st)
            counts (0%nat, None).

Definition loadPrimaryPosition (playerId : string) (rows : list Row)
  : option string :=
  snd (pickPrimary (positionCounts playerId rows)).

(** Number of rows that count for a position. *)
Definition timesPlayed (playerId : string) (rows : list Row) (pos : string)
  : nat :=
  List.length
    (filter (fun row =>
               match countedAs playerId row with
               | Some p => String.eqb p pos
               | None => false
               end) rows).

End Load.

End PrimaryPosition.

(** ** The contract structure calculations of [ContractContext.tsx] *)

(** The terms are finite numbers; every division below is by a constant or,
    inside the loop, by a positive [totalYears], so no non-finite value can
    arise and plain rationals are used. The sums are exact: what is proved
    below is about the entries of the breakdown, not about the equality of
    totals added up in different orders. *)
Module Contract.

Inductive SalaryStructure : Type :=
  | even
  | front_loaded
  | back_loaded.

(** The fields of [ContractTerms] that the calculated values read. *)
Record ContractTerms : Type := mkTerms {
  years : Q;
  baseAAV : Q;
  signingBonus : Q;
  salaryStructure : SalaryStructure;
  frontLoadPercent : Q;
  deferralPercent : Q;
  performanceBonus : Q;
  awardBonus : Q;
  playingTimeBonus : Q;
  teamOptionYear : option Q
}.

Record YearlyBreakdown : Type := mkYear {
  year : Z;
  baseSalary : Q;
  bonus : Q;
  deferred : Q;
  totalCash : Q;
  cbtHit : Q
}.

(** [Math.round(x * 10) / 10] *)
Definition round1 (x : Q) : Q := inject_Z (Qfloor (x * 10 + (1 # 2))) / 10.

Definition Qltb (x y : Q) : bool := negb (Qle_bool y x).

Section Calculated.

Variable terms : ContractTerms.

Definition totalYears : Q := years terms.

(** The base salary of the loop at index [i], before rounding. *)
Definition baseSalaryAt (i : nat) : Q :=
  let iq := inject_Z (Z.of_nat i) in
  match salaryStructure terms with
  | front_loaded =>
      if Qltb iq 3
      then baseAAV terms * (1 + frontLoadPercent terms / 100)
      else baseAAV terms * (1 - frontLoadPercent terms / 200)
  | back_loaded =>
      if Qltb iq (totalYears - 3)
      then baseAAV terms * (1 - frontLoadPercent terms / 200)
      else baseAAV terms * (1 + frontLoadPercent terms / 100)
  | even => baseAAV terms
  end.

(** The body of the loop at index [i]. *)
Definition yearAt (i : nat) : YearlyBreakdown :=
  let baseSalary := baseSalaryAt i in
  let bonus := if Nat.eqb i 0 then signingBonus terms else 0 in
  let deferred := (baseSalary + bonus) * (deferralPercent terms / 100) in
  let totalCash := baseSalary + bonus - deferred in
  let cbtHit := baseAAV terms - (deferred / totalYears) in
  mkYear (2026 + Z.of_nat i)
    (round1 baseSalary) (round1 bonus) (round1 deferred) (round1 totalCash)
    (round1 cbtHit).

(** Number of indices [i = 0, 1, ...] with [i < totalYears]. *)
Definition iterations : nat := Z.to_nat (Qceiling totalYears).

Definition calculateYearlyBreakdown : list YearlyBreakdown :=
  map yearAt (seq 0 iterations).

Definition yearlyBreakdown : list YearlyBreakdown := calculateYearlyBreakdown.

Definition totalValue : Q :=
  fold_left (fun sum y => sum + baseSalary y + bonus y) yearlyBreakdown 0.

Definition hasTeamOption : bool :=
  match teamOptionYear terms with
  | Some y => negb (Qeq_bool y 0)
  | None => false
  end.

Definition guaranteedValue : Q :=
  totalValue * (if hasTeamOption then 0.85 else 1).

Definition potentialValue : Q :=
  totalValue
  + (performanceBonus terms + awardBonus terms + playingTimeBonus terms)
    * years terms.

(** [yearlyBreakdown[0]?.cbtHit || terms.baseAAV] *)
Definition cbtImpact : Q :=
  match yearlyBreakdown with
  | first :: _ =>
      if negb (Qeq_bool (cbtHit first) 0) then cbtHit first else baseAAV terms
  | [] => baseAAV terms
  end.

End Calculated.

(** The same terms with another salary structure. *)
Definition withStructure (t : ContractTerms) (s : SalaryStructure)
  : ContractTerms :=
  mkTerms (years t) (baseAAV t) (signingBonus t) s (frontLoadPercent t)
    (deferralPercent t) (performanceBonus t) (awardBonus t)
    (playingTimeBonus t) (teamOptionYear t).

(** The same terms with another signing bonus. *)
Definition withSigningBonus (t : ContractTerms) (b : Q) : ContractTerms :=
  mkTerms (years t) (baseAAV t) b (salaryStructure t) (frontLoadPercent t)
    (deferralPercent t) (performanceBonus t) (awardBonus t)
    (playingTimeBonus t) (teamOptionYear t).

(** The default terms of the provider. *)
Definition defaultTerms : ContractTerms :=
  mkTerms 7 30 15 front_loaded 15 0 2 1 1 None.

End Contract.

(** ** The defensive and base-running ratio in rounded arithmetic *)

(** [JS.num] computes with exact rationals. The bounds proved of the engine,
    and where [NaN] arises, do not depend on the rounding of each operation
    to a double; whether two runs return the identical number does. The
    branch of the comparator for [fg_Def] and [fg_BsR] and the callback
    computing the impacts are therefore embedded once more, over the
    operations [Arith.Ops], and read in two arithmetics: the operations of
    [JS.num], each followed by a rounding function ([Arith.rounded];
    IEEE-754 arithmetic is the case where the function rounds to the
    nearest double, and to an infinity on overflow; [Arith.nearest53] is
    that rounding without the bounds on the exponent), and the binary64
    floats of the kernel ([Arith.binary64]). *)
Module Arith.

Class Ops (T : Type) : Type := mkOps {
  lit : Q -> T;        (* a numeric literal, or a decimal value of the data *)
  add : T -> T -> T;
  sub : T -> T -> T;
  mul : T -> T -> T;
  div : T -> T -> T;
  max : T -> T -> T;   (* Math.max *)
  min : T -> T -> T    (* Math.min *)
}.

Section Code.

Context {T : Type} {O : Ops T}.

(** [const delta = peteValue - cohortValue] *)
Definition deltaOf (peteValue cohortValue : T) : T :=
  sub peteValue cohortValue.

(** The branch of the ratio taken for [fg_Def] and [fg_BsR]. *)
Definition defRatio (peteValue cohortValue : T) : T :=
  let delta := deltaOf peteValue cohortValue in
  let typicalRange := lit 10 in
  let deltaRatio := add (lit 1) (mul (div delta typicalRange) (lit 0.2)) in
  max (lit 0.5) (min (lit 2.0) deltaRatio).

(** The callback of [statComparisons.map((comp) => ...)] on the two fields
    it reads, [(comp.ratio, comp.weight)]; it returns
    [(contribution, aavImpact)] for each stat and the two accumulators. *)
Fixpoint statImpacts_loop (baselineAAV : T) (comps : list (T * T))
    (weightedSum totalWeight : T) : list (T * T) * T * T :=
  match comps with
  | [] => ([], weightedSum, totalWeight)
  | (ratio, weight) :: rest =>
      let contribution := mul (sub ratio (lit 1)) weight in
      let weightedSum := add weightedSum (mul ratio weight) in
      let totalWeight := add totalWeight weight in
      let aavImpact := div (mul baselineAAV contribution) totalWeight in
      let '(impacts, ws, tw) :=
        statImpacts_loop baselineAAV rest weightedSum totalWeight in
      ((contribution, aavImpact) :: impacts, ws, tw)
  end.

End Code.

(** *** Exact operations followed by a rounding *)

Section Rounded.

(** The number of the format that a rational result is rounded to; it is
    given the result in lowest terms, so that it depends on the value and
    not on the fraction that stands for it. *)
Variable rnd : Q -> num.

Definition fl (x : num) : num :=
  match x with
  | Fin q => rnd (Qred q)
  | _ => x
  end.

Definition rounded : Ops num :=
  mkOps num
    (fun q => rnd (Qred q))
    (fun a b => fl (JS.add a b))
    (fun a b => fl (JS.sub a b))
    (fun a b => fl (JS.mul a b))
    (fun a b => fl (JS.div a b))
    JS.max
    JS.min.

End Rounded.

(** [floor(log2 a)] for a positive rational [a]. *)
Definition Qlog2 (a : Q) : Z :=
  let k := (Z.log2 (Qnum a) - Z.log2 (Zpos (Qden a)))%Z in
  if Qle_bool (2 ^ k) a then k else (k - 1)%Z.

(** The integer nearest to [x], the even one of two at the same distance. *)
Definition round_half_even (x : Q) : Z :=
  let f := Qfloor x in
  match ((x - inject_Z f) ?= (1 # 2))%Q with
  | Lt => f
  | Gt => (f + 1)%Z
  | Eq => if Z.even f then f else (f + 1)%Z
  end.

(** Rounding to the nearest number with a significand of 53 bits, ties to
    even: the rounding of binary64 wherever the exponent stays in range
    (no overflow, no subnormal result). *)
Definition nearest53 (q : Q) : num :=
  if Qeq_bool q 0 then Fin 0 else
  let a := Qabs q in
  let e := (Qlog2 a - 52)%Z in
  let m := round_half_even (a * 2 ^ (- e)) in
  let r := inject_Z m * 2 ^ e in
  Fin (Qred (if Qle_bool 0 q then r else - r)).

(** *** The binary64 floats of the kernel *)

Definition float_of_Z (z : Z) : PrimFloat.float :=
  match z with
  | Z0 => PrimFloat.zero
  | Zpos _ => PrimFloat.of_uint63 (Uint63.of_Z z)
  | Zneg p => PrimFloat.opp (PrimFloat.of_uint63 (Uint63.of_Z (Zpos p)))
  end.

(** The double nearest to a decimal value [n / d]: numerator and
    denominator below 2^53 are doubles, and their quotient is rounded to
    the nearest double. *)
Definition float_of_Q (q : Q) : PrimFloat.float :=
  PrimFloat.div (float_of_Z (Qnum q)) (float_of_Z (Zpos (Qden q))).

Definition is_neg_zero (x : PrimFloat.float) : bool :=
  andb (PrimFloat.is_zero x) (PrimFloat.get_sign x).

(** [Math.max(x, y)]: [NaN] if either is, and [+0] above [-0]. *)
Definition float_max (x y : PrimFloat.float) : PrimFloat.float :=
  if orb (PrimFloat.is_nan x) (PrimFloat.is_nan y) then PrimFloat.nan
  else if PrimFloat.ltb x y then y
  else if PrimFloat.ltb y x then x
  else if is_neg_zero x then y else x.

(** [Math.min(x, y)]: [NaN] if either is, and [-0] below [+0]. *)
Definition float_min (x y : PrimFloat.float) : PrimFloat.float :=
  if orb (PrimFloat.is_nan x) (PrimFloat.is_nan y) then PrimFloat.nan
  else if PrimFloat.ltb x y then x
  else if PrimFloat.ltb y x then y
  else if is_neg_zero x then x else y.

Definition binary64 : Ops PrimFloat.float :=
  mkOps PrimFloat.float float_of_Q PrimFloat.add PrimFloat.sub PrimFloat.mul
    PrimFloat.div float_max float_min.

(** The number that a double is. *)
Definition float_to_num (x : PrimFloat.float) : num :=
  match FloatOps.Prim2SF x with
  | SpecFloat.S754_zero _ => Fin 0
  | SpecFloat.S754_finite s m e =>
      Fin ((if s then -1 else 1) * inject_Z (Zpos m) * 2 ^ e)
  | SpecFloat.S754_infinity s => if s then NInf else PInf
  | SpecFloat.S754_nan => NaN
  end.

End Arith.

(** ** Sample inputs *)

Definition noStats : PlayerStats := fun _ => None.

Definition statsOf (l : list (string * Q)) : PlayerStats :=
  fun k => assoc k l.

Definition weightsOf (l : list (string * Q)) : string -> JS.value :=
  fun k => assoc k l.

(** One comparable: AAV 20, signed in 2023. *)
Definition comp2023 : Player :=
  mkPlayer "comp-a" 20 5 (Some 2023%Z)
    (statsOf [("age", 29)]) None.

Definition sample_spec7 : Inputs :=
  mkInputs (statsOf [("age", 28)]) false [comp2023] ["comp-a"]
    (weightsOf (map (fun e => (fst e, default_weight (snd e))) STAT_CONFIG))
    true true 4.


(** A hitter cohort of one: RBI 100 and 20 home runs before signing. *)
Definition comp_hitter : Player :=
  mkPlayer "comp-h" 20 6 None
    (statsOf [("age", 30)])
    (Some (statsOf [("age", 29); ("RBI", 100); ("HRperPA", 20)])).

Definition zeroWeights : list (string * Q) :=
  map (fun e => (fst e, 0)) STAT_CONFIG.

(** Weights as the sliders leave them with RBI and HR at 1 and every other
    stat at 0. *)
Definition rbi_hr_weights : list (string * Q) :=
  [("fg_RBI", 1); ("fg_HR", 1)] ++ zeroWeights.

(** Subject with half the cohort's RBI and twice its home runs. *)
Definition sample_prefix : Inputs :=
  mkInputs (statsOf [("age", 28); ("RBI", 50); ("HRperPA", 40)]) false
    [comp_hitter] ["comp-h"] (weightsOf rbi_hr_weights) true true 4.

(** Every weight slider at 0. *)
Definition sample_zero_weights : Inputs :=
  mkInputs (statsOf [("age", 28); ("RBI", 50); ("HRperPA", 40)]) false
    [comp_hitter] ["comp-h"] (weightsOf zeroWeights) true true 4.

Definition defaultWeights : list (string * Q) :=
  map (fun e => (fst e, default_weight (snd e))) STAT_CONFIG.

(** Subject and comparable both without the [HRperPA] field. *)
Definition comp_no_hr : Player :=
  mkPlayer "comp-n" 20 6 None (statsOf [("age", 30); ("RBI", 100)]) None.

Definition sample_no_hr : Inputs :=
  mkInputs (statsOf [("age", 28); ("RBI", 50)]) false
    [comp_no_hr] ["comp-n"] (weightsOf defaultWeights) true true 4.

(** Subject without the [HRperPA] field, comparable with 20 home runs. *)
Definition sample_subject_no_hr : Inputs :=
  mkInputs (statsOf [("age", 28); ("RBI", 50)]) false
    [comp_hitter] ["comp-h"] (weightsOf defaultWeights) true true 4.

(** No comparable selected. *)
Definition sample_empty : Inputs :=
  mkInputs (statsOf [("age", 28)]) false [comp2023] []
    (weightsOf defaultWeights) true true 4.

(** A comparable whose contract length is recorded as 0, years toggle off. *)
Definition comp_noyears : Player :=
  mkPlayer "comp-y" 20 0 (Some 2023%Z) (statsOf [("age", 29)]) None.

Definition sample_years_off : Inputs :=
  mkInputs (statsOf [("age", 28)]) false [comp_noyears] ["comp-y"]
    (weightsOf defaultWeights) true false 4.

(** The same toggle off on the five-year comparable. *)
Definition sample_years_off5 : Inputs :=
  mkInputs (statsOf [("age", 28)]) false [comp2023] ["comp-a"]
    (weightsOf defaultWeights) true false 4.

(** A comparable with no age in any snapshot, beside one with an age. *)
Definition comp_no_age : Player :=
  mkPlayer "comp-q" 18 4 (Some 2022%Z) (statsOf [("RBI", 80)]) None.

Definition sample_no_age : Inputs :=
  mkInputs (statsOf [("age", 28)]) false [comp_no_age; comp2023]
    ["comp-q"; "comp-a"] (weightsOf defaultWeights) true true 4.

(** ** Specification-side definitions *)

(** The exponent of the specification: [max(0, presentYear - signedYear)],
    and 0 when the signing year is absent. A signing year is absent when
    the field is not there or holds 0, the value the repository keeps for
    a year it does not know ([p.signedYear || 0] in
    [services/playerDataService.ts]). *)
Definition spec_exponent_falsy (c : Player) : Z :=
  match signedYear c with
  | Some y => if (y =? 0)%Z then 0 else Z.max 0 (2025 - y)
  | None => 0
  end.

(** [AAV * (1 + r)^e] on rationals. *)
Definition spec_adjustedAAV (r : Q) (e : Player -> Z) (c : Player) : Q :=
  AAV c * (1 + r) ^ e c.

Definition Qsum (l : list Q) : Q := fold_right Qplus 0 l.

(** Arithmetic mean of a list of rationals. *)
Definition mean (l : list Q) : Q :=
  Qsum l / inject_Z (Z.of_nat (List.length l)).

(** Inflation rate of the specification: percent per year, clamped at 0. *)
Definition spec_rate (inp : Inputs) : Q :=
  Qmax 0 (inflationPercent inp) / 100.

(** [clamp(x, lo, hi)] on rationals. *)
Definition Qclamp (lo hi x : Q) : Q := Qmax lo (Qmin hi x).

(** Nearest half: [round(x * 2) / 2] with ties upwards. *)
Definition round_half (x : Q) : Q :=
  inject_Z (Qfloor (x * 2 + (1 # 2))) / 2.

Definition finite (x : num) : Prop := exists q, x = Fin q.

Definition fin_or_nan (x : num) : Prop := x = NaN \/ finite x.

(** A field read with [|| 0]: the value, or 0 when it is missing. *)
Definition fieldOr0 (v : JS.value) : Q :=
  match v with
  | Some q => q
  | None => 0
  end.

(** Nearest integer, ties upwards, on rationals. *)
Definition Qround (x : Q) : Q := inject_Z (Qfloor (x + (1 # 2))).

(** What a comparable contributes to the cohort average of a stat key. *)
Definition comp_stat_value (statKey : string) (c : Player) : Q :=
  if String.eqb statKey "HR"
  then Qround (fieldOr0 (Calc.snapshot c "HRperPA"))
  else fieldOr0 (Calc.snapshot c statKey).

(** A selection is valid for a list of comps when it is a set, is not
    empty and only holds ids of those comps. *)
Definition valid_selection (comps : list Player) (sel : list string) : Prop :=
  NoDup sel /\ sel <> [] /\ incl sel (map id comps).

(** The stat configuration a normalized position stands for in
    [getWeightsForPosition]: the pitcher one for P, SP and RP. *)
Definition configOfPosition (normalizedPos : string)
  : list (string * StatConfig) :=
  if orb (String.eqb normalizedPos "P")
         (orb (String.eqb normalizedPos "SP") (String.eqb normalizedPos "RP"))
  then PITCHER_STAT_CONFIG else STAT_CONFIG.

(** A weight object gives each of its keys the weight listed for it, and no
    weight is negative. *)
Definition weights_sound (w : list (string * Q)) : Prop :=
  Forall (fun e => assoc (fst e) w = Some (snd e) /\ 0 <= snd e) w.

(** A string that does not start with white space. *)
Definition startsNonWhite (s : string) : Prop :=
  match s with
  | EmptyString => True
  | String a _ => Str.isWhite a = false
  end.

(** A string without the separators [/] and [,]. *)
Fixpoint noSep (s : string) : Prop :=
  match s with
  | EmptyString => True
  | String a r => Str.isSep a = false /\ noSep r
  end.

(** The count a [Map] of counts holds for a key, 0 when it has none. *)
Definition countIn (counts : list (string * nat)) (k : string) : nat :=
  match assoc k counts with
  | Some n => n
  | None => 0%nat
  end.

(** The rational carried by a finite number. *)
Definition toQ (x : num) : Q :=
  match x with
  | Fin q => q
  | _ => 0
  end.

(** Sum of the dollar impacts of a list of stat impacts. *)
Definition sumImpacts (l : list StatImpact) : num :=
  fold_left (fun sum impact => JS.add sum (aavImpact impact)) l (Fin 0).

(** Weight accumulated by the loop after the first [n] stats. *)
Definition runningWeight (start : num) (comps : list StatComparison) (n : nat)
  : num :=
  fold_left (fun t c => JS.add t (weight c)) (firstn n comps) start.

(** Evaluation of a closed conjunction, one conjunct at a time. *)
Ltac eval_conj :=
  lazymatch goal with
  | |- _ /\ _ => split; [vm_compute; reflexivity | eval_conj]
  | |- _ => vm_compute; reflexivity
  end.

(** ** Basic facts about JavaScript numbers *)

Lemma same_refl (a : num) : same a a.
Proof. destruct a; simpl; auto. reflexivity. Qed.

Lemma same_sym (a b : num) : same a b -> same b a.
Proof. destruct a, b; simpl; auto. intros H; symmetry; exact H. Qed.

Lemma same_trans (a b c : num) : same a b -> same b c -> same a c.
Proof.
  destruct a, b, c; simpl; auto; try contradiction.
  intros H1 H2; rewrite H1; exact H2.
Qed.

Lemma Qeq_bool_false_neq (x y : Q) : Qeq_bool x y = false <-> ~ x == y.
Proof.
  split.
  - intros H E. apply Qeq_bool_iff in E. congruence.
  - intros H. destruct (Qeq_bool x y) eqn:E; auto.
    apply Qeq_bool_iff in E. contradiction.
Qed.

Lemma Qle_bool_false_lt (x y : Q) : Qle_bool x y = false <-> y < x.
Proof.
  split.
  - intros H. apply Qnot_le_lt. intros L. apply Qle_bool_iff in L. congruence.
  - intros H. destruct (Qle_bool x y) eqn:E; auto.
    apply Qle_bool_iff in E. lra.
Qed.

Lemma div_fin (x y : Q) :
  ~ y == 0 -> JS.div (Fin x) (Fin y) = Fin (x / y).
Proof.
  intros H. simpl. apply Qeq_bool_false_neq in H. rewrite H. reflexivity.
Qed.

Lemma max_fin (x y : Q) :
  JS.max (Fin x) (Fin y) = Fin (if Qle_bool x y then y else x).
Proof. simpl. destruct (Qle_bool x y); reflexivity. Qed.

Lemma min_fin (x y : Q) :
  JS.min (Fin x) (Fin y) = Fin (if Qle_bool x y then x else y).
Proof. simpl. destruct (Qle_bool x y); reflexivity. Qed.

Lemma if_le_max (x y : Q) : (if Qle_bool x y then y else x) == Qmax x y.
Proof.
  destruct (Qle_bool x y) eqn:E.
  - apply Qle_bool_iff in E. symmetry. apply Q.max_r; exact E.
  - apply Qle_bool_false_lt in E. symmetry. apply Q.max_l. lra.
Qed.

Lemma if_le_min (x y : Q) : (if Qle_bool x y then x else y) == Qmin x y.
Proof.
  destruct (Qle_bool x y) eqn:E.
  - apply Qle_bool_iff in E. symmetry. apply Q.min_l; exact E.
  - apply Qle_bool_false_lt in E. symmetry. apply Q.min_r. lra.
Qed.

(** A clamp between rational bounds never yields an infinity, and yields
    [NaN] only on [NaN]. *)
Lemma clamp_cases (lo hi : Q) (x : num) :
  lo <= hi ->
  (x = NaN /\ JS.max (Fin lo) (JS.min (Fin hi) x) = NaN) \/
  (x <> NaN /\ exists r, JS.max (Fin lo) (JS.min (Fin hi) x) = Fin r
                         /\ lo <= r <= hi).
Proof.
  intros Hb. destruct x as [q | | |].
  - right. split; [discriminate|].
    rewrite min_fin, max_fin. eexists; split; [reflexivity|].
    destruct (Qle_bool hi q) eqn:E1.
    + destruct (Qle_bool lo hi) eqn:E2.
      * lra.
      * apply Qle_bool_false_lt in E2. lra.
    + apply Qle_bool_false_lt in E1.
      destruct (Qle_bool lo q) eqn:E2.
      * apply Qle_bool_iff in E2. lra.
      * lra.
  - right. split; [discriminate|].
    change (JS.min (Fin hi) PInf) with (Fin hi). rewrite max_fin.
    eexists; split; [reflexivity|].
    destruct (Qle_bool lo hi) eqn:E2; [lra|].
    apply Qle_bool_false_lt in E2. lra.
  - right. split; [discriminate|]. simpl. exists lo. split; [reflexivity|lra].
  - left. split; reflexivity.
Qed.

Lemma clamp_fin (lo hi q : Q) :
  lo <= hi ->
  exists r, JS.max (Fin lo) (JS.min (Fin hi) (Fin q)) = Fin r
            /\ lo <= r <= hi /\ r == Qclamp lo hi q.
Proof.
  intros Hb. rewrite min_fin, max_fin. eexists; split; [reflexivity|].
  assert (E : (if Qle_bool lo (if Qle_bool hi q then hi else q)
               then (if Qle_bool hi q then hi else q) else lo)
              == Qclamp lo hi q).
  { unfold Qclamp. rewrite if_le_max. apply Q.max_compat; [reflexivity|].
    apply if_le_min. }
  split; [|exact E].
  rewrite E. unfold Qclamp. split.
  - apply Q.le_max_l.
  - apply Q.max_lub; [exact Hb | apply Q.le_min_l].
Qed.

Lemma clamp_bounds (lo hi : Q) (x : num) :
  lo <= hi -> x <> NaN ->
  exists r, JS.max (Fin lo) (JS.min (Fin hi) x) = Fin r /\ lo <= r <= hi.
Proof.
  intros Hb Hx. destruct (clamp_cases lo hi x Hb) as [[E _] | [_ H]].
  - contradiction.
  - exact H.
Qed.

Lemma small_abs_false (c : Q) :
  JS.lt (JS.abs (Fin c)) (Fin 0.001) = false -> ~ c == 0.
Proof.
  simpl. unfold JS.Qltb. intros H E.
  apply Bool.negb_false_iff in H. apply Qle_bool_iff in H.
  rewrite E in H. simpl in H. lra.
Qed.

Lemma guarded_quotient_not_nan (a b : Q) :
  (if JS.lt (JS.abs (Fin b)) (Fin 0.001)
   then if JS.gt (Fin a) (Fin 0) then Fin 1.1
        else if JS.lt (Fin a) (Fin 0) then Fin 0.9 else Fin 1
   else JS.div (Fin a) (Fin b)) <> NaN.
Proof.
  destruct (JS.lt (JS.abs (Fin b)) (Fin 0.001)) eqn:E.
  - destruct (JS.gt (Fin a) (Fin 0)); [discriminate|].
    destruct (JS.lt (Fin a) (Fin 0)); discriminate.
  - rewrite div_fin by (apply small_abs_false; exact E). discriminate.
Qed.

Lemma def_ratio_fin (v w : Q) :
  JS.add (Fin 1)
    (JS.mul (JS.div (JS.sub (Fin v) (Fin w)) (Fin 10)) (Fin 0.2))
  = Fin (1 + ((v + - w) / 10) * 0.2).
Proof.
  unfold JS.sub. cbn [JS.neg JS.add].
  rewrite div_fin by lra. reflexivity.
Qed.

(** ** Properties of the stat comparator *)

(** For every stat key and every pair of subject and cohort values that are
    both finite numbers, the ratio of the comparator is a number within
    [0.5, 2.0] for the two defensive / base-running keys ([fg_Def],
    [fg_BsR]) and within [0.1, 10] for every other key, whether higher or
    lower is better. A subject value that is [NaN] is not covered. *)
Lemma ratio_within_bounds (configKey : string) (higherBetter : bool)
    (p c : Q) :
  exists r, Calc.ratioOf configKey higherBetter (Fin p) (Fin c) = Fin r /\
    if orb (String.eqb configKey "fg_Def") (String.eqb configKey "fg_BsR")
    then 0.5 <= r <= 2.0
    else 0.1 <= r <= 10.
Proof.
  unfold Calc.ratioOf.
  destruct (orb (String.eqb configKey "fg_Def")
                (String.eqb configKey "fg_BsR")).
  - rewrite def_ratio_fin.
    destruct (clamp_fin 0.5 2.0 (1 + ((p + - c) / 10) * 0.2))
      as [r [E [B _]]]; [lra|].
    exists r. split; [exact E | exact B].
  - destruct higherBetter.
    + apply clamp_bounds; [lra | apply guarded_quotient_not_nan].
    + apply clamp_bounds; [lra | apply guarded_quotient_not_nan].
Qed.

Lemma Qltb_comp (x x' y y' : Q) :
  x == x' -> y == y' -> JS.Qltb x y = JS.Qltb x' y'.
Proof.
  intros Hx Hy. unfold JS.Qltb. f_equal.
  destruct (Qle_bool y x) eqn:E1, (Qle_bool y' x') eqn:E2; auto.
  - apply Qle_bool_iff in E1. apply Qle_bool_false_lt in E2. lra.
  - apply Qle_bool_iff in E2. apply Qle_bool_false_lt in E1. lra.
Qed.

Lemma Qeq_bool_comp (x x' y y' : Q) :
  x == x' -> y == y' -> Qeq_bool x y = Qeq_bool x' y'.
Proof.
  intros Hx Hy.
  destruct (Qeq_bool x y) eqn:E1, (Qeq_bool x' y') eqn:E2; auto.
  - apply Qeq_bool_iff in E1. apply Qeq_bool_false_neq in E2.
    exfalso. apply E2. rewrite <- Hx, <- Hy. exact E1.
  - apply Qeq_bool_iff in E2. apply Qeq_bool_false_neq in E1.
    exfalso. apply E1. rewrite Hx, Hy. exact E2.
Qed.

Lemma same_neg (a a' : num) : same a a' -> same (JS.neg a) (JS.neg a').
Proof.
  destruct a, a'; simpl; auto. intros H. rewrite H. reflexivity.
Qed.

Lemma same_add (a a' b b' : num) :
  same a a' -> same b b' -> same (JS.add a b) (JS.add a' b').
Proof.
  destruct a, a', b, b'; simpl; auto; try contradiction.
  intros H1 H2. rewrite H1, H2. reflexivity.
Qed.

Lemma same_sub (a a' b b' : num) :
  same a a' -> same b b' -> same (JS.sub a b) (JS.sub a' b').
Proof.
  intros H1 H2. unfold JS.sub. apply same_add; [exact H1|].
  apply same_neg; exact H2.
Qed.

Lemma same_mul (a a' b b' : num) :
  same a a' -> same b b' -> same (JS.mul a b) (JS.mul a' b').
Proof.
  destruct a as [x| | |], a' as [x'| | |]; simpl; try contradiction;
    destruct b as [y| | |], b' as [y'| | |]; simpl; try contradiction;
    intros H1 H2; auto; try apply same_refl.
  - rewrite H1, H2. reflexivity.
  - rewrite H1. apply same_refl.
  - rewrite H1. apply same_refl.
  - rewrite H2. apply same_refl.
  - rewrite H2. apply same_refl.
Qed.

Lemma same_div (a a' b b' : num) :
  same a a' -> same b b' -> same (JS.div a b) (JS.div a' b').
Proof.
  destruct a as [x| | |], a' as [x'| | |]; simpl; try contradiction;
    destruct b as [y| | |], b' as [y'| | |]; simpl; try contradiction;
    intros H1 H2; auto; try reflexivity.
  - rewrite (Qeq_bool_comp y y' 0 0 H2 (Qeq_refl 0)).
    destruct (Qeq_bool y' 0) eqn:E.
    + rewrite H1. apply same_refl.
    + simpl. rewrite H1, H2. reflexivity.
  - rewrite (Qltb_comp y y' 0 0 H2 (Qeq_refl 0)). apply same_refl.
  - rewrite (Qltb_comp y y' 0 0 H2 (Qeq_refl 0)). apply same_refl.
Qed.

Lemma def_ratio_value (k : string) (hb : bool) (v w : Q) :
  orb (String.eqb k "fg_Def") (String.eqb k "fg_BsR") = true ->
  exists r, Calc.ratioOf k hb (Fin v) (Fin w) = Fin r /\
            r == Qclamp 0.5 2.0 (1 + ((v - w) / 10) * 0.2).
Proof.
  intros Hk. unfold Calc.ratioOf. rewrite Hk, def_ratio_fin.
  destruct (clamp_fin 0.5 2.0 (1 + ((v + - w) / 10) * 0.2))
    as [r [E [_ V]]]; [lra|].
  exists r. split; [exact E | exact V].
Qed.

Lemma Qclamp_comp (lo hi x y : Q) : x == y -> Qclamp lo hi x == Qclamp lo hi y.
Proof.
  intros H. unfold Qclamp.
  apply Q.max_compat; [reflexivity|].
  apply Q.min_compat; [reflexivity | exact H].
Qed.

Lemma Qle_bool_comp (x x' y y' : Q) :
  x == x' -> y == y' -> Qle_bool x y = Qle_bool x' y'.
Proof.
  intros Hx Hy.
  destruct (Qle_bool x y) eqn:E1, (Qle_bool x' y') eqn:E2; auto.
  - apply Qle_bool_iff in E1. apply Qle_bool_false_lt in E2. lra.
  - apply Qle_bool_iff in E2. apply Qle_bool_false_lt in E1. lra.
Qed.

Lemma same_le (a a' b b' : num) :
  same a a' -> same b b' -> JS.le a b = JS.le a' b'.
Proof.
  destruct a, a'; simpl; try contradiction;
    destruct b, b'; simpl; try contradiction; auto.
  apply Qle_bool_comp.
Qed.

Lemma same_max (a a' b b' : num) :
  same a a' -> same b b' -> same (JS.max a b) (JS.max a' b').
Proof.
  intros Ha Hb. pose proof (same_le a a' b b' Ha Hb) as L.
  destruct a as [x| | |], a' as [x'| | |]; simpl in Ha; try contradiction;
    destruct b as [y| | |], b' as [y'| | |]; simpl in Hb; try contradiction;
    try exact I; unfold JS.max; rewrite L; clear L;
    destruct (JS.le _ _); simpl; auto.
Qed.

Lemma same_min (a a' b b' : num) :
  same a a' -> same b b' -> same (JS.min a b) (JS.min a' b').
Proof.
  intros Ha Hb. pose proof (same_le a a' b b' Ha Hb) as L.
  destruct a as [x| | |], a' as [x'| | |]; simpl in Ha; try contradiction;
    destruct b as [y| | |], b' as [y'| | |]; simpl in Hb; try contradiction;
    try exact I; unfold JS.min; rewrite L; clear L;
    destruct (JS.le _ _); simpl; auto.
Qed.

(** With no rounding at all, the operations of [Arith.rounded] are those of
    [JS.num]. *)
Lemma fl_exact (x : num) : same (Arith.fl Fin x) x.
Proof.
  destruct x as [q| | |]; simpl; try exact I. apply Qred_correct.
Qed.

(** The branch embedded in [Arith.defRatio], read with no rounding, is the
    branch of [Calc.ratioOf] for the two keys. *)
Lemma defRatio_exact (k : string) (hb : bool) (p c : num) :
  orb (String.eqb k "fg_Def") (String.eqb k "fg_BsR") = true ->
  same (Arith.defRatio (O := Arith.rounded Fin) p c) (Calc.ratioOf k hb p c).
Proof.
  intros Hk. unfold Calc.ratioOf. rewrite Hk.
  unfold Arith.defRatio, Arith.deltaOf.
  cbn [Arith.lit Arith.add Arith.sub Arith.mul Arith.div Arith.max Arith.min
       Arith.rounded].
  assert (L : forall q, same (Fin (Qred q)) (Fin q))
    by (intros q; simpl; apply Qred_correct).
  apply same_max; [apply L|]. apply same_min; [apply L|].
  eapply same_trans; [apply fl_exact|].
  apply same_add; [apply L|].
  eapply same_trans; [apply fl_exact|].
  apply same_mul; [|apply L].
  eapply same_trans; [apply fl_exact|].
  apply same_div; [|apply L].
  apply fl_exact.
Qed.

(** The computed delta of two values and of the same two values moved by
    the same amount is the same number, whatever the rounding: the two
    differences are equal before they are rounded. *)
Lemma deltaOf_shift (rnd : Q -> num) (v w c : Q) :
  Arith.deltaOf (O := Arith.rounded rnd) (Fin (v + c)) (Fin (w + c))
  = Arith.deltaOf (O := Arith.rounded rnd) (Fin v) (Fin w).
Proof.
  unfold Arith.deltaOf. cbn [Arith.sub Arith.rounded].
  unfold JS.sub. cbn [JS.neg JS.add Arith.fl]. f_equal.
  apply Qred_complete. ring.
Qed.

(** C10 (as amended). For the keys [fg_Def] and [fg_BsR] the ratio depends
    only on the computed difference subject - cohort. In arithmetic that
    rounds the result of every operation, whatever the rounding: when the
    values passed are [v + c] and [w + c] themselves, the ratio is the one
    for [v] and [w], and so are the contribution and the dollar impact of
    the stat, and the accumulators handed to the stats after it. Without
    rounding the ratio is [clamp(1 + (delta / 10) * 0.2, 0.5, 2.0)]. *)
Theorem def_bsr_ratio_same_for_exact_shift (rnd : Q -> num) (v w c : Q)
    (weight baselineAAV weightedSum totalWeight : num)
    (rest : list (num * num)) :
  let r0 := Arith.defRatio (O := Arith.rounded rnd) (Fin v) (Fin w) in
  let r1 :=
    Arith.defRatio (O := Arith.rounded rnd) (Fin (v + c)) (Fin (w + c)) in
  r1 = r0 /\
  Arith.statImpacts_loop (O := Arith.rounded rnd) baselineAAV
    ((r1, weight) :: rest) weightedSum totalWeight
  = Arith.statImpacts_loop (O := Arith.rounded rnd) baselineAAV
      ((r0, weight) :: rest) weightedSum totalWeight /\
  Forall (fun k => forall hb,
    same (Arith.defRatio (O := Arith.rounded Fin) (Fin v) (Fin w))
         (Calc.ratioOf k hb (Fin v) (Fin w)) /\
    same (Calc.ratioOf k hb (Fin v) (Fin w))
         (Fin (Qclamp 0.5 2.0 (1 + ((v - w) / 10) * 0.2))))
    ["fg_Def"; "fg_BsR"].
Proof.
  intros r0 r1.
  assert (E : r1 = r0).
  { unfold r0, r1, Arith.defRatio. rewrite deltaOf_shift. reflexivity. }
  split; [exact E|]. split; [rewrite E; reflexivity|].
  assert (G : forall k,
    orb (String.eqb k "fg_Def") (String.eqb k "fg_BsR") = true ->
    forall hb,
    same (Arith.defRatio (O := Arith.rounded Fin) (Fin v) (Fin w))
         (Calc.ratioOf k hb (Fin v) (Fin w)) /\
    same (Calc.ratioOf k hb (Fin v) (Fin w))
         (Fin (Qclamp 0.5 2.0 (1 + ((v - w) / 10) * 0.2)))).
  { intros k Hk hb. split; [apply defRatio_exact; exact Hk|].
    destruct (def_ratio_value k hb v w Hk) as [q [Eq Vq]].
    rewrite Eq. exact Vq. }
  repeat constructor; apply G; reflexivity.
Qed.

(** The two arithmetics side by side: [Arith.float_of_Q] gives the doubles
    that decimal literals denote, the operations rounded to the nearest
    double compute what the floats of the kernel compute, and values that
    are moved exactly (-10 and -7.25 up by 18.75) give the identical ratio
    on doubles. *)
Module Binary64Facts.

Import PrimFloat.

#[warnings="-inexact-float"]
Lemma float_of_Q_literals :
  Arith.float_of_Q 0.2 = 0.2%float /\
  Arith.float_of_Q (-10) = (-10)%float /\
  Arith.float_of_Q (-7.2) = (-7.2)%float /\
  Arith.float_of_Q 8.8 = 8.8%float /\
  Arith.float_of_Q 11.6 = 11.6%float /\
  Arith.float_of_Q 0.944 = 0.944%float.
Proof. repeat split; vm_compute; reflexivity. Qed.

(** On doubles the operations rounded by [Arith.nearest53] compute what the
    kernel's floats compute: the ratio of decimal values, inside and
    outside the clamp. *)
Lemma rounded_agrees_with_doubles :
  Forall (fun pc =>
    same (Arith.float_to_num
            (Arith.defRatio (O := Arith.binary64)
               (Arith.float_of_Q (fst pc)) (Arith.float_of_Q (snd pc))))
         (Arith.defRatio (O := Arith.rounded Arith.nearest53)
            (Arith.nearest53 (fst pc)) (Arith.nearest53 (snd pc))))
    [(-10, -7.2); (8.8, 11.6); (3.4, -1.9); (0.1, 0.3); (25.5, -30);
     (-41.7, 12.3)].
Proof.
  repeat (constructor; [vm_compute; reflexivity|]). constructor.
Qed.

(** The rounded operations tell the two pairs of the decimal values apart
    as the doubles do. *)
Lemma rounded_decimal_shift :
  same_b
    (Arith.defRatio (O := Arith.rounded Arith.nearest53)
       (Arith.nearest53 (-10 + 18.8)) (Arith.nearest53 (-7.2 + 18.8)))
    (Arith.defRatio (O := Arith.rounded Arith.nearest53)
       (Arith.nearest53 (-10)) (Arith.nearest53 (-7.2)))
  = false.
Proof. vm_compute. reflexivity. Qed.

Lemma exact_shift_on_doubles :
  Arith.defRatio (O := Arith.binary64)
    (Arith.float_of_Q (-10 + 18.75)) (Arith.float_of_Q (-7.25 + 18.75))
  = Arith.defRatio (O := Arith.binary64)
      (Arith.float_of_Q (-10)) (Arith.float_of_Q (-7.25)).
Proof. vm_compute. reflexivity. Qed.

End Binary64Facts.

(** The claim C10 as written fails on doubles for decimal values: a subject
    at -10.0 against a cohort at -7.2, and both moved up by 18.8 to 8.8
    and 11.6. Stored as doubles the second pair is not the first moved by
    one amount: the computed deltas differ, the first ratio is the double
    0.944 and the second one is the next double above it
    (0.9440000000000001). *)
Lemma def_bsr_ratio_decimal_shift_counterexample :
  let v := -10 in
  let w := -7.2 in
  let c := 18.8 in
  let O := Arith.binary64 in
  let r0 := Arith.defRatio (Arith.lit v) (Arith.lit w) in
  let r1 := Arith.defRatio (Arith.lit (v + c)) (Arith.lit (w + c)) in
  v + c == 8.8 /\ w + c == 11.6 /\
  PrimFloat.eqb r1 r0 = false /\
  r0 = Arith.lit 0.944 /\
  r1 = PrimFloat.next_up r0 /\
  PrimFloat.ltb (Arith.deltaOf (Arith.lit v) (Arith.lit w))
                (Arith.deltaOf (Arith.lit (v + c)) (Arith.lit (w + c)))
  = true.
Proof.
  cbv zeta. split; [reflexivity|]. split; [reflexivity|].
  split; [vm_compute; reflexivity|]. split; [vm_compute; reflexivity|].
  split; vm_compute; reflexivity.
Qed.

(** ** Properties of the cohort aggregator *)

Lemma inflationRate_fin (inp : Inputs) :
  exists r, Calc.inflationRate inp = Fin r /\ r == spec_rate inp.
Proof.
  unfold Calc.inflationRate. rewrite max_fin, div_fin by lra.
  eexists; split; [reflexivity|].
  unfold spec_rate. rewrite if_le_max. reflexivity.
Qed.

Lemma adjustedAAV_fin (inp : Inputs) (c : Player) :
  exists q, Calc.adjustedAAV inp c = Fin q /\
            q == spec_adjustedAAV (spec_rate inp) spec_exponent_falsy c.
Proof.
  unfold Calc.adjustedAAV, spec_adjustedAAV.
  destruct (inflationRate_fin inp) as [r [E V]]. rewrite E.
  change (Calc.yearsSinceSigning c) with (spec_exponent_falsy c).
  unfold JS.pow. cbn [JS.add].
  destruct (spec_exponent_falsy c =? 0)%Z eqn:Z0.
  - apply Z.eqb_eq in Z0. rewrite Z0. cbn [JS.mul].
    eexists; split; [reflexivity|]. simpl. reflexivity.
  - cbn [JS.mul]. eexists; split; [reflexivity|].
    rewrite V. reflexivity.
Qed.

Lemma fold_add_fin {A : Type} (f : A -> num) (g : A -> Q) (l : list A) :
  (forall a, exists q, f a = Fin q /\ q == g a) ->
  forall acc, exists s,
    fold_left (fun sum a => JS.add sum (f a)) l (Fin acc) = Fin s /\
    s == acc + Qsum (map g l).
Proof.
  intros Hf. induction l as [|a l IH]; intros acc.
  - exists acc. split; [reflexivity|]. simpl. unfold Qsum. simpl. ring.
  - simpl. destruct (Hf a) as [q [E V]]. rewrite E. cbn [JS.add].
    destruct (IH (acc + q)) as [s [Es Vs]].
    exists s. split; [exact Es|].
    rewrite Vs. unfold Qsum. simpl. rewrite V. ring.
Qed.

Lemma sumNums_map {A : Type} (f : A -> num) (l : list A) :
  Calc.sumNums (map f l) = fold_left (fun sum a => JS.add sum (f a)) l (Fin 0).
Proof.
  unfold Calc.sumNums. generalize (Fin 0).
  induction l as [|a l IH]; intros acc; simpl; [reflexivity|apply IH].
Qed.

Lemma count_nonzero {A : Type} (l : list A) :
  l <> [] -> ~ inject_Z (Z.of_nat (List.length l)) == 0.
Proof.
  intros H E. destruct l as [|a l]; [contradiction|].
  unfold Qeq in E. simpl in E. lia.
Qed.

Lemma baselineAAV_fin (inp : Inputs) :
  Calc.activeComps inp <> [] ->
  exists q, Calc.baselineAAV inp = Fin q /\
    q == mean (map (spec_adjustedAAV (spec_rate inp) spec_exponent_falsy)
                   (Calc.activeComps inp)).
Proof.
  intros Hne. unfold Calc.baselineAAV, Calc.adjustedAAVs, Calc.count, JS.ofNat.
  rewrite sumNums_map.
  destruct (fold_add_fin (Calc.adjustedAAV inp)
              (spec_adjustedAAV (spec_rate inp) spec_exponent_falsy)
              (Calc.activeComps inp) (adjustedAAV_fin inp) 0) as [s [E V]].
  rewrite E, div_fin by (apply count_nonzero; exact Hne).
  eexists; split; [reflexivity|].
  unfold mean. rewrite length_map, V. field.
  apply count_nonzero; exact Hne.
Qed.

Lemma calculations_nonempty (inp : Inputs) :
  Calc.activeComps inp <> [] ->
  Calc.calculations inp =
  mkCalculations (Calc.baselineAAV inp) (Calc.baselineYears inp)
    (Calc.fairAAV inp) (Calc.fairYears inp) (Calc.aavMultiplier inp)
    (Calc.totalYearsAdjustment inp) (Calc.cohortStats inp)
    (Calc.statComparisons inp) (Calc.scaledStatImpacts inp).
Proof.
  intros H. unfold Calc.calculations.
  destruct (Calc.activeComps inp); [contradiction | reflexivity].
Qed.

(** C6. For every non-empty cohort and inflation rate
    [r = max(0, percent) / 100], each comp's adjusted AAV is
    [AAV * (1 + r)^max(0, 2025 - signedYear)], with exponent 0 when the
    signing year is absent (the field is missing, or holds the 0 kept for
    an unknown year). The baseline AAV is the arithmetic mean of the
    adjusted AAVs. For one comp with AAV 20 signed in 2023 at 4 percent
    the adjusted AAV and the baseline are 21.632. *)
Theorem baseline_is_mean_of_inflated_AAVs (inp : Inputs) :
  Calc.activeComps inp <> [] ->
  (forall c y, signedYear c = Some y -> y <> 0%Z ->
     same (Calc.adjustedAAV inp c)
          (Fin (AAV c * (1 + spec_rate inp) ^ Z.max 0 (2025 - y)))) /\
  (forall c, signedYear c = None \/ signedYear c = Some 0%Z ->
     same (Calc.adjustedAAV inp c) (Fin (AAV c * (1 + spec_rate inp) ^ 0))) /\
  (forall c, same (Calc.adjustedAAV inp c)
               (Fin (spec_adjustedAAV (spec_rate inp) spec_exponent_falsy c))) /\
  same (baselineAAV (Calc.calculations inp))
       (Fin (mean (map (spec_adjustedAAV (spec_rate inp) spec_exponent_falsy)
                       (Calc.activeComps inp)))) /\
  same (Calc.adjustedAAV sample_spec7 comp2023) (Fin 21.632) /\
  same (baselineAAV (Calc.calculations sample_spec7)) (Fin 21.632).
Proof.
  intros Hne.
  assert (A : forall c, same (Calc.adjustedAAV inp c)
            (Fin (spec_adjustedAAV (spec_rate inp) spec_exponent_falsy c))).
  { intros c. destruct (adjustedAAV_fin inp c) as [q [E V]].
    rewrite E. exact V. }
  split; [|split; [|split; [|split; [|split]]]].
  - intros c y Hy Hy0. specialize (A c).
    unfold spec_adjustedAAV, spec_exponent_falsy in A. rewrite Hy in A.
    apply Z.eqb_neq in Hy0. rewrite Hy0 in A. exact A.
  - intros c Hc. specialize (A c).
    unfold spec_adjustedAAV, spec_exponent_falsy in A.
    destruct Hc as [Hc | Hc]; rewrite Hc in A; exact A.
  - exact A.
  - rewrite calculations_nonempty by exact Hne. simpl.
    destruct (baselineAAV_fin inp Hne) as [q [E V]]. rewrite E. exact V.
  - vm_compute. reflexivity.
  - vm_compute. reflexivity.
Qed.

Lemma baseline_is_mean_of_inflated_AAVs_witness :
  Calc.activeComps sample_spec7 <> [] /\
  same (baselineAAV (Calc.calculations sample_spec7))
       (Fin (mean (map (spec_adjustedAAV (spec_rate sample_spec7)
                          spec_exponent_falsy)
                       (Calc.activeComps sample_spec7)))).
Proof.
  assert (H : Calc.activeComps sample_spec7 <> []) by (vm_compute; discriminate).
  split; [exact H|].
  exact (proj1 (proj2 (proj2 (proj2
           (baseline_is_mean_of_inflated_AAVs sample_spec7 H))))).
Defined.

(** C5. When no comparable is active the memo returns the neutral default:
    baseline and fair AAV and years all 0, multiplier 1, years adjustment 0,
    and empty cohort stats, comparisons and impacts. The memo is a total
    function, so nothing is raised. *)
Theorem empty_cohort_neutral_result (inp : Inputs) :
  Calc.activeComps inp = [] ->
  Calc.calculations inp =
  mkCalculations (Fin 0) (Fin 0) (Fin 0) (Fin 0) (Fin 1) (Fin 0) [] [] [].
Proof.
  intros H. unfold Calc.calculations. rewrite H. reflexivity.
Qed.

Lemma empty_cohort_neutral_result_witness :
  Calc.activeComps sample_empty = [] /\
  Calc.calculations sample_empty =
  mkCalculations (Fin 0) (Fin 0) (Fin 0) (Fin 0) (Fin 1) (Fin 0) [] [] [].
Proof.
  assert (H : Calc.activeComps sample_empty = []) by reflexivity.
  split; [exact H | exact (empty_cohort_neutral_result sample_empty H)].
Defined.

(** ** Finiteness of intermediate values *)

Lemma finite_Fin (q : Q) : finite (Fin q).
Proof. exists q. reflexivity. Qed.

Lemma finite_add (a b : num) : finite a -> finite b -> finite (JS.add a b).
Proof. intros [x ->] [y ->]. eexists; reflexivity. Qed.

Lemma finite_neg (a : num) : finite a -> finite (JS.neg a).
Proof. intros [x ->]. eexists; reflexivity. Qed.

Lemma finite_sub (a b : num) : finite a -> finite b -> finite (JS.sub a b).
Proof. intros [x ->] [y ->]. eexists; reflexivity. Qed.

Lemma finite_mul (a b : num) : finite a -> finite b -> finite (JS.mul a b).
Proof. intros [x ->] [y ->]. eexists; reflexivity. Qed.

Lemma finite_max (a b : num) : finite a -> finite b -> finite (JS.max a b).
Proof. intros [x ->] [y ->]. rewrite max_fin. eexists; reflexivity. Qed.

Lemma finite_min (a b : num) : finite a -> finite b -> finite (JS.min a b).
Proof. intros [x ->] [y ->]. rewrite min_fin. eexists; reflexivity. Qed.

Lemma finite_div (a : num) (y : Q) :
  finite a -> ~ y == 0 -> finite (JS.div a (Fin y)).
Proof. intros [x ->] Hy. rewrite div_fin by exact Hy. eexists; reflexivity. Qed.

Lemma finite_round (a : num) : finite a -> finite (JS.round a).
Proof. intros [x ->]. eexists; reflexivity. Qed.

Lemma finite_if (b : bool) (x y : num) :
  finite x -> finite y -> finite (if b then x else y).
Proof. destruct b; auto. Qed.

Create HintDb fin.
#[local] Hint Resolve finite_Fin finite_add finite_neg finite_sub finite_mul
  finite_max finite_min finite_round finite_if : fin.

Lemma fin_or_nan_toNum (v : JS.value) : fin_or_nan (JS.toNum v).
Proof. destruct v; [right; apply finite_Fin | left; reflexivity]. Qed.

Lemma fin_or_nan_add (a b : num) :
  fin_or_nan a -> fin_or_nan b -> fin_or_nan (JS.add a b).
Proof.
  intros [-> | [x ->]] [-> | [y ->]]; try (left; reflexivity).
  right. apply finite_Fin.
Qed.

Lemma fin_or_nan_or (a b : num) :
  fin_or_nan a -> fin_or_nan b -> fin_or_nan (JS.or a b).
Proof. intros Ha Hb. unfold JS.or. destruct (JS.truthy a); assumption. Qed.

Lemma fin_or_nan_div (a : num) (y : Q) :
  fin_or_nan a -> ~ y == 0 -> fin_or_nan (JS.div a (Fin y)).
Proof.
  intros [-> | Ha] Hy; [left; reflexivity|].
  right. apply finite_div; assumption.
Qed.

Lemma fin_or_nan_fold {A : Type} (f : A -> num) (l : list A) :
  (forall a, fin_or_nan (f a)) ->
  forall acc, fin_or_nan acc ->
    fin_or_nan (fold_left (fun sum a => JS.add sum (f a)) l acc).
Proof.
  intros Hf. induction l as [|a l IH]; intros acc Hacc; simpl; [exact Hacc|].
  apply IH. apply fin_or_nan_add; [exact Hacc | apply Hf].
Qed.

Lemma finite_or_fallback (a : num) (q : Q) :
  fin_or_nan a -> finite (JS.or a (Fin q)).
Proof.
  intros [-> | [x ->]]; unfold JS.or; simpl.
  - apply finite_Fin.
  - destruct (negb (Qeq_bool x 0)); apply finite_Fin.
Qed.

Lemma baselineYears_fin (inp : Inputs) :
  Calc.activeComps inp <> [] ->
  exists q, Calc.baselineYears inp = Fin q /\
            q == mean (map years (Calc.activeComps inp)).
Proof.
  intros Hne. unfold Calc.baselineYears, Calc.count, JS.ofNat.
  destruct (fold_add_fin (fun c => Fin (years c)) years (Calc.activeComps inp)
              (fun c => ex_intro _ (years c) (conj eq_refl (Qeq_refl _))) 0)
    as [s [E V]].
  rewrite E, div_fin by (apply count_nonzero; exact Hne).
  eexists; split; [reflexivity|].
  unfold mean. rewrite length_map, V. field.
  apply count_nonzero; exact Hne.
Qed.

Lemma cohortSigningAge_finite (inp : Inputs) (a : Q) :
  Calc.activeComps inp <> [] ->
  PETE_STATS inp "age" = Some a ->
  finite (Calc.cohortSigningAge inp).
Proof.
  intros Hne Ha. unfold Calc.cohortSigningAge. rewrite Ha. simpl JS.toNum.
  apply finite_or_fallback. unfold Calc.count, JS.ofNat.
  apply fin_or_nan_div; [|apply count_nonzero; exact Hne].
  apply fin_or_nan_fold; [|right; apply finite_Fin].
  intros c. unfold Calc.ageAtSigning. apply fin_or_nan_or.
  - destruct (threeYearContractStats c);
      [apply fin_or_nan_toNum | left; reflexivity].
  - apply fin_or_nan_toNum.
Qed.

Lemma aavMultiplier_fin_or_nan (inp : Inputs) :
  fin_or_nan (Calc.aavMultiplier inp).
Proof.
  unfold Calc.aavMultiplier. destruct (adjustAAV inp).
  - destruct (clamp_cases 0.50 2.0 (Calc.scaledMultiplier inp))
      as [[_ E] | [_ [r [E _]]]]; [lra | |].
    + left. exact E.
    + right. exists r. exact E.
  - right. apply finite_Fin.
Qed.

Lemma totalYearsAdjustment_finite (inp : Inputs) :
  Calc.activeComps inp <> [] ->
  adjustYears inp = false \/
  ((exists a, PETE_STATS inp "age" = Some a) /\ Calc.aavMultiplier inp <> NaN) ->
  finite (Calc.totalYearsAdjustment inp).
Proof.
  intros Hne H. unfold Calc.totalYearsAdjustment.
  destruct (adjustYears inp) eqn:Y; [|apply finite_Fin].
  destruct H as [H | [[a Ha] Hm]]; [discriminate|].
  assert (Fm : finite (Calc.aavMultiplier inp)).
  { destruct (aavMultiplier_fin_or_nan inp); [contradiction | assumption]. }
  assert (Fs : finite (Calc.subjectAge inp)).
  { unfold Calc.subjectAge. rewrite Ha. apply finite_Fin. }
  assert (Fd : finite (Calc.ageDelta inp)).
  { unfold Calc.ageDelta. apply finite_sub; [exact Fs|].
    apply (cohortSigningAge_finite inp a); assumption. }
  assert (Fo : finite (Calc.olderDelta inp)).
  { unfold Calc.olderDelta. auto with fin. }
  assert (Fy : finite (Calc.youngerDelta inp)).
  { unfold Calc.youngerDelta. auto with fin. }
  destruct (baselineYears_fin inp Hne) as [b [Eb _]].
  assert (Fb : finite (Calc.baselineYears inp)) by (exists b; exact Eb).
  assert (Fr : finite (Calc.rawAgeMultiplier inp)).
  { unfold Calc.rawAgeMultiplier, Calc.penaltyComponent, Calc.benefitComponent.
    destruct (isPitcherPlayer inp); auto 10 with fin. }
  assert (Fa : finite (Calc.ageMultiplier inp)).
  { unfold Calc.ageMultiplier. auto 10 with fin. }
  assert (Fp : finite (Calc.absoluteAgePenalty inp)).
  { unfold Calc.absoluteAgePenalty. auto 10 with fin. }
  assert (Fq : finite (Calc.performanceAdjustment inp)).
  { unfold Calc.performanceAdjustment, Calc.performanceAdjustmentRaw,
      Calc.performanceMultiplier. auto 10 with fin. }
  auto 10 with fin.
Qed.

Lemma cappedYears_finite (inp : Inputs) :
  Calc.activeComps inp <> [] ->
  adjustYears inp = false \/
  ((exists a, PETE_STATS inp "age" = Some a) /\ Calc.aavMultiplier inp <> NaN) ->
  finite (Calc.cappedYears inp).
Proof.
  intros Hne H.
  pose proof (totalYearsAdjustment_finite inp Hne H) as Ft.
  destruct (baselineYears_fin inp Hne) as [b [Eb _]].
  assert (Fb : finite (Calc.baselineYears inp)) by (exists b; exact Eb).
  unfold Calc.cappedYears, Calc.proposedYears, Calc.softCapLimit.
  auto 10 with fin.
Qed.

(** [Math.max(1, Math.round(c * 2) / 2)] on a finite [c]. *)
Lemma round_to_half_floor1 (c : Q) :
  exists y,
    JS.max (Fin 1) (JS.div (JS.round (JS.mul (Fin c) (Fin 2))) (Fin 2)) = Fin y /\
    1 <= y /\ (exists k : Z, y == inject_Z k / 2) /\
    y == Qmax 1 (round_half c).
Proof.
  cbn [JS.mul JS.round]. rewrite div_fin by lra. rewrite max_fin.
  eexists; split; [reflexivity|].
  fold (round_half c).
  split; [|split].
  - destruct (Qle_bool 1 (round_half c)) eqn:E; [|lra].
    apply Qle_bool_iff in E. exact E.
  - destruct (Qle_bool 1 (round_half c)).
    + exists (Qfloor (c * 2 + (1 # 2))). reflexivity.
    + exists 2%Z. reflexivity.
  - apply if_le_max.
Qed.

Lemma round_half_comp (x y : Q) : x == y -> round_half x == round_half y.
Proof.
  intros H. unfold round_half.
  assert (E : Qfloor (x * 2 + (1 # 2)) = Qfloor (y * 2 + (1 # 2))).
  { apply Qfloor_comp. rewrite H. reflexivity. }
  rewrite E. reflexivity.
Qed.

Lemma round_half_ge_1 (x : Q) : 3 # 4 <= x -> 1 <= round_half x.
Proof.
  intros H. unfold round_half.
  assert (L : (2 <= Qfloor (x * 2 + (1 # 2)))%Z).
  { change 2%Z with (Qfloor (inject_Z 2)) at 1.
    apply Qfloor_resp_le. change (inject_Z 2) with 2. lra. }
  assert (L' : inject_Z 2 <= inject_Z (Qfloor (x * 2 + (1 # 2)))).
  { rewrite <- Zle_Qle. exact L. }
  change (inject_Z 2) with 2 in L'.
  generalize dependent (inject_Z (Qfloor (x * 2 + (1 # 2)))).
  intros z Hz. apply Qle_shift_div_l; lra.
Qed.

Lemma cappedYears_toggle_off (inp : Inputs) (b : Q) :
  adjustYears inp = false ->
  Calc.baselineYears inp = Fin b ->
  Calc.cappedYears inp = Fin (b + 0).
Proof.
  intros Y Eb.
  unfold Calc.cappedYears, Calc.proposedYears, Calc.totalYearsAdjustment,
    Calc.softCapLimit.
  rewrite Y, Eb.
  destruct (Calc.isVeryYoungHighPerformer inp); cbn [JS.add];
    rewrite min_fin.
  - destruct (Qle_bool (b + 5.0) (b + 0)) eqn:E; [|reflexivity].
    apply Qle_bool_iff in E. lra.
  - destruct (Qle_bool (b + 2.0) (b + 0)) eqn:E; [|reflexivity].
    apply Qle_bool_iff in E. lra.
Qed.

(** ** Properties of the years adjustment *)

(** C4 (as amended). For every non-empty cohort, when the years toggle is
    off, or the subject's age is present and the AAV multiplier is a number,
    the returned fair years are a number that is at least 1 and an integer
    multiple of one half. *)
Theorem fairYears_floor_and_half_steps (inp : Inputs) :
  Calc.activeComps inp <> [] ->
  adjustYears inp = false \/
  ((exists a, PETE_STATS inp "age" = Some a) /\ Calc.aavMultiplier inp <> NaN) ->
  exists y, fairYears (Calc.calculations inp) = Fin y /\
            1 <= y /\ exists k : Z, y == inject_Z k / 2.
Proof.
  intros Hne H. rewrite calculations_nonempty by exact Hne. simpl.
  destruct (cappedYears_finite inp Hne H) as [c Ec].
  unfold Calc.fairYears. rewrite Ec.
  destruct (round_to_half_floor1 c) as [y [Ey [L [K _]]]].
  exists y. split; [exact Ey | split; [exact L | exact K]].
Qed.

Lemma fairYears_floor_and_half_steps_witness :
  exists y, fairYears (Calc.calculations sample_spec7) = Fin y /\
            1 <= y /\ exists k : Z, y == inject_Z k / 2.
Proof.
  apply (fairYears_floor_and_half_steps sample_spec7).
  - vm_compute. discriminate.
  - right. split.
    + exists 28. reflexivity.
    + vm_compute. discriminate.
Defined.

(** The claim C4 as written fails on the empty cohort, whose fair years are
    the neutral 0. *)
Lemma fairYears_empty_cohort_counterexample :
  Calc.activeComps sample_empty = [] /\
  fairYears (Calc.calculations sample_empty) = Fin 0 /\
  ~ (exists y, fairYears (Calc.calculations sample_empty) = Fin y /\ 1 <= y).
Proof.
  split; [reflexivity|]. split; [reflexivity|].
  intros [y [E L]]. vm_compute in E. injection E as <-. lra.
Qed.

(** C9 (as amended). For every non-empty cohort with the years toggle off,
    the total years adjustment is 0 and the fair years are
    [max(1, round(baselineYears * 2) / 2)]: the baseline rounded to the
    nearest half year, floored at one year, with no age, penalty or
    performance term. They equal [round(baselineYears * 2) / 2] as soon as
    the baseline is at least 0.75 years. *)
Theorem years_toggle_off_rounds_baseline (inp : Inputs) :
  Calc.activeComps inp <> [] ->
  adjustYears inp = false ->
  yearsAdjustment (Calc.calculations inp) = Fin 0 /\
  exists b, baselineYears (Calc.calculations inp) = Fin b /\
    b == mean (map years (Calc.activeComps inp)) /\
    same (fairYears (Calc.calculations inp)) (Fin (Qmax 1 (round_half b))) /\
    (3 # 4 <= b ->
     same (fairYears (Calc.calculations inp)) (Fin (round_half b))).
Proof.
  intros Hne Y. rewrite calculations_nonempty by exact Hne. simpl.
  split.
  - unfold Calc.totalYearsAdjustment. rewrite Y. reflexivity.
  - destruct (baselineYears_fin inp Hne) as [b [Eb Vb]].
    exists b. split; [exact Eb|]. split; [exact Vb|].
    unfold Calc.fairYears. rewrite (cappedYears_toggle_off inp b Y Eb).
    destruct (round_to_half_floor1 (b + 0)) as [y [Ey [_ [_ Vy]]]].
    rewrite Ey. simpl.
    assert (R : round_half (b + 0) == round_half b).
    { apply round_half_comp. ring. }
    split.
    + rewrite Vy. apply Q.max_compat; [reflexivity | exact R].
    + intros Hb. rewrite Vy, R. apply Q.max_r.
      apply round_half_ge_1. exact Hb.
Qed.

Lemma years_toggle_off_rounds_baseline_witness :
  yearsAdjustment (Calc.calculations sample_years_off5) = Fin 0 /\
  exists b, baselineYears (Calc.calculations sample_years_off5) = Fin b /\
    b == mean (map years (Calc.activeComps sample_years_off5)) /\
    same (fairYears (Calc.calculations sample_years_off5))
         (Fin (Qmax 1 (round_half b))) /\
    (3 # 4 <= b ->
     same (fairYears (Calc.calculations sample_years_off5))
          (Fin (round_half b))).
Proof.
  apply (years_toggle_off_rounds_baseline sample_years_off5).
  - vm_compute. discriminate.
  - reflexivity.
Defined.

(** The claim C9 as written fails when the baseline is below 0.75 years: for
    a single comparable with 0 contract years and the toggle off, the fair
    years are 1, not [round(0 * 2) / 2 = 0]. *)
Lemma years_toggle_off_counterexample :
  Calc.activeComps sample_years_off <> [] /\
  adjustYears sample_years_off = false /\
  same (baselineYears (Calc.calculations sample_years_off)) (Fin 0) /\
  same (fairYears (Calc.calculations sample_years_off)) (Fin 1) /\
  ~ same (fairYears (Calc.calculations sample_years_off)) (Fin (round_half 0)).
Proof.
  split; [vm_compute; discriminate|]. split; [reflexivity|].
  split; [vm_compute; reflexivity|]. split; [vm_compute; reflexivity|].
  vm_compute. discriminate.
Qed.

(** ** Properties of the weighted multiplier *)

(** Whenever the multiplier is a number it is clamped to [0.50, 2.0] with
    the AAV toggle on, and it is exactly 1 with the toggle off; the fair AAV
    is the baseline times the multiplier. *)
Lemma aavMultiplier_clamped_or_nan (inp : Inputs) :
  (adjustAAV inp = true ->
   Calc.aavMultiplier inp = NaN \/
   exists m, Calc.aavMultiplier inp = Fin m /\ 0.50 <= m <= 2.0) /\
  (adjustAAV inp = false -> Calc.aavMultiplier inp = Fin 1.0) /\
  Calc.fairAAV inp = JS.mul (Calc.baselineAAV inp) (Calc.aavMultiplier inp).
Proof.
  unfold Calc.aavMultiplier. split; [|split].
  - intros A. rewrite A.
    destruct (clamp_cases 0.50 2.0 (Calc.scaledMultiplier inp))
      as [[_ E] | [_ H]]; [lra | left; exact E | right; exact H].
  - intros A. rewrite A. reflexivity.
  - reflexivity.
Qed.

(** C3. The code at a failing input: a non-empty cohort, AAV toggle on, and
    every weight slider at 0. The total weight is 0, the raw multiplier is
    0 / 0, and the clamp lets the [NaN] through: the multiplier is not
    within [0.50, 2.0]. *)
Theorem aavMultiplier_nan_on_zero_weights :
  Calc.activeComps sample_zero_weights <> [] /\
  adjustAAV sample_zero_weights = true /\
  same (Calc.totalWeight sample_zero_weights) (Fin 0) /\
  Calc.rawMultiplier sample_zero_weights = NaN /\
  aavMultiplier (Calc.calculations sample_zero_weights) = NaN /\
  fairAAV (Calc.calculations sample_zero_weights) = NaN.
Proof.
  split; [vm_compute; discriminate|]. eval_conj.
Qed.

(** C2. The code at a failing input: with weights 1 on RBI and HR and 0
    elsewhere (total 2), subject RBI 50 against a cohort RBI of 100 and a
    baseline of 20, the naive impact of RBI is [20 * (-0.5) / 1 = -10]: it
    is divided by the weight accumulated so far (1), not by the total of
    all weights (2), which would give -5. *)
Theorem naive_impact_divides_by_running_weight :
  exists rbi,
    nth_error (Calc.statImpacts sample_prefix) 0 = Some rbi /\
    key (comp rbi) = "fg_RBI" /\
    same (Calc.baselineAAV sample_prefix) (Fin 20) /\
    same (contribution rbi) (Fin (- (1 # 2))) /\
    same (Calc.totalWeight sample_prefix) (Fin 2) /\
    same (aavImpact rbi) (Fin (-10)) /\
    same (JS.div (JS.mul (Calc.baselineAAV sample_prefix) (contribution rbi))
                 (Calc.totalWeight sample_prefix))
         (Fin (-5)).
Proof.
  eexists. split; [vm_compute; reflexivity|]. eval_conj.
Qed.

(** C1. The code at a failing input: for the same selection the naive
    impacts are -10 (RBI), +10 (HR) and 0 for the other stats, so their sum
    is 0, the scale factor is 1 and the scaled impacts sum to 0, while the
    multiplier is 1.35 and fair AAV - baseline AAV is 7. *)
Theorem scaled_impacts_miss_realized_delta :
  Calc.activeComps sample_prefix <> [] /\
  same (Calc.rawImpactSum sample_prefix) (Fin 0) /\
  Calc.impactScale sample_prefix = Fin 1 /\
  same (aavMultiplier (Calc.calculations sample_prefix)) (Fin 1.35) /\
  same (sumImpacts (statImpacts (Calc.calculations sample_prefix))) (Fin 0) /\
  same (JS.sub (fairAAV (Calc.calculations sample_prefix))
               (baselineAAV (Calc.calculations sample_prefix)))
       (Fin 7).
Proof.
  split; [vm_compute; discriminate|]. eval_conj.
Qed.

(** For every stat other than home runs a field missing from the subject's
    snapshot reads as 0. *)
Lemma missing_subject_field_is_zero (inp : Inputs) (entry : string * StatConfig) :
  String.eqb (statKeyOf (fst entry)) "HR" = false ->
  PETE_STATS inp (statKeyOf (fst entry)) = None ->
  peteValue (Calc.statComparison inp entry) = Fin 0.
Proof.
  intros Hk Hm. unfold Calc.statComparison. cbn [peteValue].
  rewrite Hk, Hm. reflexivity.
Qed.

(** C7. The code at a failing input: subject and comparable both lack the
    [HRperPA] field. The cohort side of the home-run comparison reads 0, the
    subject side is [Math.round(undefined)], which is [NaN], not 0. *)
Theorem missing_subject_HR_is_nan :
  PETE_STATS sample_no_hr "HRperPA" = None /\
  Calc.snapshot comp_no_hr "HRperPA" = None /\
  exists hr,
    nth_error (Calc.statComparisons sample_no_hr) 1 = Some hr /\
    key hr = "fg_HR" /\
    same (cohortValue hr) (Fin 0) /\
    peteValue hr = NaN /\
    delta hr = NaN /\
    pctDiff hr = NaN.
Proof.
  split; [reflexivity|]. split; [reflexivity|].
  eexists. split; [vm_compute; reflexivity|]. eval_conj.
Qed.

(** C8. The code at a failing input: a hitter whose snapshot has no
    [HRperPA] field, compared with a cohort of 20 home runs. The subject
    value of the home-run comparison is [Math.round(undefined)], that is
    [NaN]; the cohort value is not near 0, so the ratio is [NaN / 20], and
    [Math.max(0.1, Math.min(10, NaN))] is [NaN]: the ratio is not a number
    within [0.1, 10]. The clamp was to keep one stat from dominating the
    multiplier; here the multiplier and the fair AAV are [NaN] as well. *)
Theorem ratio_nan_on_missing_subject_HR :
  PETE_STATS sample_subject_no_hr "HRperPA" = None /\
  Calc.ratioOf "fg_HR" true NaN (Fin 20) = NaN /\
  (exists hr,
     nth_error (Calc.statComparisons sample_subject_no_hr) 1 = Some hr /\
     key hr = "fg_HR" /\
     peteValue hr = NaN /\
     same (cohortValue hr) (Fin 20) /\
     ratio hr = NaN /\
     ~ (exists r, ratio hr = Fin r /\ 0.1 <= r <= 10)) /\
  aavMultiplier (Calc.calculations sample_subject_no_hr) = NaN /\
  fairAAV (Calc.calculations sample_subject_no_hr) = NaN.
Proof.
  split; [reflexivity|]. split; [vm_compute; reflexivity|].
  split.
  - eexists. split; [vm_compute; reflexivity|].
    split; [reflexivity|]. split; [reflexivity|].
    split; [vm_compute; reflexivity|]. split; [reflexivity|].
    intros [r [E _]]. discriminate E.
  - split; vm_compute; reflexivity.
Qed.

(** ** The impact decomposition in general *)

(** What the loop computes: the impact of the stat at index [i] is divided
    by the weight accumulated over the stats at indices [0..i]; the final
    [totalWeight] is the weight accumulated over all of them. *)
Lemma statImpacts_loop_running (B : num) (comps : list StatComparison) :
  forall (ws tw : num) (i : nat) (c : StatComparison),
    nth_error comps i = Some c ->
    nth_error (fst (fst (Calc.statImpacts_loop B comps ws tw))) i =
    Some (mkImpact c
            (JS.mul (JS.sub (ratio c) (Fin 1)) (weight c))
            (JS.div (JS.mul B (JS.mul (JS.sub (ratio c) (Fin 1)) (weight c)))
                    (runningWeight tw comps (S i)))).
Proof.
  induction comps as [|c0 rest IH]; intros ws tw i c H.
  - destruct i; discriminate.
  - cbn [Calc.statImpacts_loop].
    destruct (Calc.statImpacts_loop B rest
                (JS.add ws (JS.mul (ratio c0) (weight c0)))
                (JS.add tw (weight c0))) as [[impacts ws'] tw'] eqn:E.
    destruct i as [|i].
    + simpl in H. injection H as <-. reflexivity.
    + simpl in H. cbn [fst nth_error].
      specialize (IH (JS.add ws (JS.mul (ratio c0) (weight c0)))
                     (JS.add tw (weight c0)) i c H).
      rewrite E in IH. cbn [fst] in IH. rewrite IH. reflexivity.
Qed.

Lemma statImpacts_loop_total (B : num) (comps : list StatComparison) :
  forall ws tw : num,
    snd (Calc.statImpacts_loop B comps ws tw) =
    runningWeight tw comps (List.length comps).
Proof.
  induction comps as [|c0 rest IH]; intros ws tw.
  - reflexivity.
  - cbn [Calc.statImpacts_loop].
    specialize (IH (JS.add ws (JS.mul (ratio c0) (weight c0)))
                   (JS.add tw (weight c0))).
    destruct (Calc.statImpacts_loop B rest
                (JS.add ws (JS.mul (ratio c0) (weight c0)))
                (JS.add tw (weight c0))) as [[impacts ws'] tw'].
    cbn [snd] in *. rewrite IH. reflexivity.
Qed.

Lemma fold_add_fin_on {A : Type} (f : A -> num) (g : A -> Q) (l : list A) :
  Forall (fun a => exists q, f a = Fin q /\ q == g a) l ->
  forall acc, exists s,
    fold_left (fun sum a => JS.add sum (f a)) l (Fin acc) = Fin s /\
    s == acc + Qsum (map g l).
Proof.
  induction 1 as [|a l [q [E V]] _ IH]; intros acc.
  - exists acc. split; [reflexivity|]. unfold Qsum. simpl. ring.
  - simpl. rewrite E. cbn [JS.add].
    destruct (IH (acc + q)) as [s [Es Vs]].
    exists s. split; [exact Es|].
    rewrite Vs. unfold Qsum. simpl. rewrite V. ring.
Qed.

Lemma Qsum_scale {A : Type} (g : A -> Q) (k : Q) (l : list A) :
  Qsum (map (fun a => g a * k) l) == Qsum (map g l) * k.
Proof.
  unfold Qsum. induction l as [|a l IH]; simpl.
  - ring.
  - rewrite IH. ring.
Qed.

Lemma sumImpacts_map (h : StatImpact -> StatImpact) (l : list StatImpact) :
  sumImpacts (map h l) =
  fold_left (fun sum a => JS.add sum (aavImpact (h a))) l (Fin 0).
Proof.
  unfold sumImpacts. generalize (Fin 0).
  induction l as [|a l IH]; intros acc; simpl; [reflexivity | apply IH].
Qed.

(** When every naive impact is a number and their sum is a number other
    than 0, the scaled impacts sum to the realized difference
    [fairAAV - baselineAAV]. *)
Lemma scaled_sum_matches_delta (inp : Inputs) (s d : Q) :
  Forall (fun impact => finite (aavImpact impact)) (Calc.statImpacts inp) ->
  Calc.rawImpactSum inp = Fin s ->
  ~ s == 0 ->
  Calc.actualDifference inp = Fin d ->
  Calc.impactScale inp = Fin (d / s) /\
  same (sumImpacts (Calc.scaledStatImpacts inp)) (Fin d).
Proof.
  intros Hfin Hs Hnz Hd.
  assert (Esc : Calc.impactScale inp = Fin (d / s)).
  { unfold Calc.impactScale. rewrite Hs, Hd. unfold JS.strict_neq.
    cbn [JS.same_b]. apply Qeq_bool_false_neq in Hnz. rewrite Hnz.
    cbn [negb]. apply div_fin. apply Qeq_bool_false_neq. exact Hnz. }
  split; [exact Esc|].
  unfold Calc.scaledStatImpacts. rewrite sumImpacts_map. cbn [aavImpact].
  rewrite Esc.
  assert (Hraw : exists s', Calc.rawImpactSum inp = Fin s' /\
                   s' == 0 + Qsum (map (fun i => toQ (aavImpact i))
                                       (Calc.statImpacts inp))).
  { unfold Calc.rawImpactSum. apply fold_add_fin_on.
    eapply Forall_impl; [|exact Hfin].
    intros i [q E]. exists q. rewrite E. split; reflexivity. }
  destruct Hraw as [s' [Es' Vs']]. rewrite Hs in Es'.
  injection Es' as <-.
  destruct (fold_add_fin_on
              (fun i => JS.mul (aavImpact i) (Fin (d / s)))
              (fun i => toQ (aavImpact i) * (d / s))
              (Calc.statImpacts inp)) with (acc := 0) as [t [Et Vt]].
  { eapply Forall_impl; [|exact Hfin].
    intros i [q E]. rewrite E. eexists. split; reflexivity. }
  rewrite Et. simpl. rewrite Vt, Qsum_scale.
  setoid_replace (Qsum (map (fun i => toQ (aavImpact i))
                            (Calc.statImpacts inp))) with s
    by (rewrite Vs'; ring).
  field. exact Hnz.
Qed.

(** In the degenerate case, a naive sum equal to 0, the scale factor is 1
    and every scaled impact is the naive impact times 1. *)
Lemma impactScale_degenerate (inp : Inputs) :
  same (Calc.rawImpactSum inp) (Fin 0) ->
  Calc.impactScale inp = Fin 1 /\
  Calc.scaledStatImpacts inp =
  map (fun impact => mkImpact (comp impact) (contribution impact)
                       (JS.mul (aavImpact impact) (Fin 1)))
      (Calc.statImpacts inp).
Proof.
  intros H.
  assert (E : Calc.impactScale inp = Fin 1).
  { unfold Calc.impactScale.
    destruct (Calc.rawImpactSum inp) as [q| | |]; simpl in H;
      try contradiction.
    unfold JS.strict_neq. cbn [JS.same_b].
    apply Qeq_bool_iff in H. rewrite H. reflexivity. }
  split; [exact E|]. unfold Calc.scaledStatImpacts. rewrite E. reflexivity.
Qed.

(** With every weight at 0 and the years toggle on, the [NaN] multiplier
    reaches the fair years and every scaled impact. *)
Example zero_weights_propagate_nan :
  adjustYears sample_zero_weights = true /\
  fairYears (Calc.calculations sample_zero_weights) = NaN /\
  Forall (fun impact => aavImpact impact = NaN)
         (statImpacts (Calc.calculations sample_zero_weights)).
Proof.
  split; [reflexivity|]. split; [vm_compute; reflexivity|].
  vm_compute. repeat constructor.
Qed.

(** ** Further properties of the stat comparator *)

Lemma sign_fin (d : Q) :
  exists s, JS.sign (Fin d) = Fin s /\
            ((0 < d /\ s = 1) \/ (d < 0 /\ s = -1) \/ (d == 0 /\ s = 0)).
Proof.
  unfold JS.sign, JS.sgn. destruct (d ?= 0)%Q eqn:E.
  - exists 0. split; [reflexivity|]. right; right.
    split; [apply Qeq_alt; exact E | reflexivity].
  - exists (-1). split; [reflexivity|]. right; left.
    split; [apply Qlt_alt; exact E | reflexivity].
  - exists 1. split; [reflexivity|]. left.
    split; [apply Qgt_alt; exact E | reflexivity].
Qed.

Lemma Qabs_cases (x : Q) : (0 <= x /\ Qabs x == x) \/ (x < 0 /\ Qabs x == - x).
Proof.
  destruct (Qlt_le_dec x 0) as [L | L].
  - right. split; [exact L|]. apply Qabs_neg. lra.
  - left. split; [exact L|]. apply Qabs_pos. exact L.
Qed.

Lemma Qmin_cases (a b : Q) :
  (a <= b /\ Qmin a b == a) \/ (b < a /\ Qmin a b == b).
Proof.
  destruct (Qlt_le_dec b a) as [L | L].
  - right. split; [exact L|]. apply Q.min_r. lra.
  - left. split; [exact L|]. apply Q.min_l. exact L.
Qed.

Lemma Qmax_cases (a b : Q) :
  (a <= b /\ Qmax a b == b) \/ (b < a /\ Qmax a b == a).
Proof.
  destruct (Qlt_le_dec b a) as [L | L].
  - right. split; [exact L|]. apply Q.max_l. lra.
  - left. split; [exact L|]. apply Q.max_r. exact L.
Qed.

(** A value [t] cut to [-500, 500] keeps its sign, and its magnitude is the
    magnitude of [t] cut to 500. *)
Lemma cut_500 (t x : Q) :
  x == Qclamp (-500) 500 t ->
  -500 <= x <= 500 /\
  (0 < t -> 0 < x) /\ (t < 0 -> x < 0) /\ (t == 0 -> x == 0) /\
  Qabs x == Qmin 500 (Qabs t).
Proof.
  unfold Qclamp. intros V.
  destruct (Qmin_cases 500 t) as [[L1 M1] | [L1 M1]];
    destruct (Qmax_cases (-500) (Qmin 500 t)) as [[L3 M3] | [L3 M3]];
    destruct (Qabs_cases x) as [[Px Ex] | [Px Ex]];
    destruct (Qabs_cases t) as [[Pt Et] | [Pt Et]];
    destruct (Qmin_cases 500 (Qabs t)) as [[L4 M4] | [L4 M4]];
    repeat split; intros; lra.
Qed.

(** The percentage difference is always a number between -500 and 500; it
    has the sign of the delta whatever the sign of the cohort value
    (positive, negative or 0 with the delta), and its magnitude is the
    smaller of 500 and [100 * |delta| / |cohort|], or of 500 and
    [100 * |delta|] for a cohort value below 0.001 in magnitude. *)
Theorem pctDiff_within_500 (d c : Q) :
  exists x, Calc.pctDiffOf (Fin d) (Fin c) = Fin x /\
            -500 <= x <= 500 /\
            (0 < d -> 0 < x) /\ (d < 0 -> x < 0) /\ (d == 0 -> x == 0) /\
            (Qabs c < 0.001 -> Qabs x == Qmin 500 (100 * Qabs d)) /\
            (0.001 <= Qabs c -> Qabs x == Qmin 500 (100 * Qabs d / Qabs c)).
Proof.
  unfold Calc.pctDiffOf.
  destruct (JS.lt (JS.abs (Fin c)) (Fin 0.001)) eqn:G.
  - assert (Gc : Qabs c < 0.001).
    { simpl in G. unfold JS.Qltb in G. apply Bool.negb_true_iff in G.
      apply Qle_bool_false_lt in G. exact G. }
    destruct (sign_fin d) as [s [Es Hs]]. rewrite Es.
    cbn [JS.mul JS.abs]. rewrite min_fin. cbn [JS.mul].
    eexists; split; [reflexivity|].
    set (m := if Qle_bool 500 (Qabs (d * 100)) then 500 else Qabs (d * 100)).
    assert (Hm : m == Qmin 500 (100 * Qabs d)).
    { unfold m. rewrite if_le_min, Qabs_Qmult.
      change (Qabs 100) with 100.
      apply Q.min_compat; [reflexivity | ring]. }
    clearbody m.
    destruct (Qmin_cases 500 (100 * Qabs d)) as [[L M] | [L M]];
      destruct (Qabs_cases d) as [[Pd Ed] | [Pd Ed]];
      destruct (Qabs_cases (s * m)) as [[Px Ex] | [Px Ex]];
      destruct Hs as [[Hd ->] | [[Hd ->] | [Hd ->]]];
      repeat split; intros; lra.
  - cbn [JS.abs].
    assert (Gc : 0.001 <= Qabs c).
    { simpl in G. unfold JS.Qltb in G. apply Bool.negb_false_iff in G.
      apply Qle_bool_iff in G. exact G. }
    assert (Hc : ~ Qabs c == 0) by lra.
    assert (Pc : 0 < Qabs c) by lra.
    rewrite div_fin by exact Hc. cbn [JS.mul].
    destruct (clamp_fin (-500) 500 (d / Qabs c * 100)) as [x [E [_ V]]];
      [lra|].
    exists x. split; [exact E|].
    destruct (cut_500 _ _ V) as [B [S1 [S2 [S3 M]]]].
    assert (T1 : 0 < d -> 0 < d / Qabs c * 100).
    { intros Hd. apply Qmult_lt_0_compat; [|lra].
      apply Qlt_shift_div_l; [exact Pc | lra]. }
    assert (T2 : d < 0 -> d / Qabs c * 100 < 0).
    { intros Hd. assert (d / Qabs c < 0).
      { apply Qlt_shift_div_r; [exact Pc | lra]. }
      lra. }
    assert (T3 : d == 0 -> d / Qabs c * 100 == 0).
    { intros Hd. rewrite Hd. field. exact Hc. }
    assert (T4 : Qabs (d / Qabs c * 100) == 100 * Qabs d / Qabs c).
    { rewrite Qabs_Qmult. change (Qabs 100) with 100.
      unfold Qdiv. rewrite Qabs_Qmult, Qabs_Qinv.
      rewrite (Qabs_pos (Qabs c)) by apply Qabs_nonneg. ring. }
    rewrite T4 in M.
    split; [exact B|]. split; [intros; apply S1; auto|].
    split; [intros; apply S2; auto|]. split; [intros; apply S3; auto|].
    split; [intros; lra | intros _; exact M].
Qed.

(** ** The cohort statistics object *)

Lemma obj_get_set_same (o : list (string * num)) (k : string) (v : num) :
  Calc.obj_get (Calc.obj_set o k v) k = v.
Proof.
  unfold Calc.obj_get. induction o as [|[k' v'] rest IH]; simpl.
  - rewrite String.eqb_refl. reflexivity.
  - destruct (String.eqb k k') eqn:E; simpl.
    + rewrite String.eqb_refl. reflexivity.
    + rewrite E. exact IH.
Qed.

Lemma obj_get_set_other (o : list (string * num)) (k k' : string) (v : num) :
  k' <> k -> Calc.obj_get (Calc.obj_set o k v) k' = Calc.obj_get o k'.
Proof.
  intros Hne. apply String.eqb_neq in Hne.
  unfold Calc.obj_get. induction o as [|[k0 v0] rest IH]; simpl.
  - rewrite Hne. reflexivity.
  - destruct (String.eqb k k0) eqn:E; simpl.
    + apply String.eqb_eq in E. subst k0. rewrite Hne. reflexivity.
    + destruct (String.eqb k' k0); [reflexivity | exact IH].
Qed.

Lemma obj_fold_lookup (f : string -> num) (g : string -> string)
    (ks : list string) (k : string) :
  forall o,
    In k (map g ks) \/ Calc.obj_get o k = f k ->
    Calc.obj_get
      (fold_left (fun acc x => Calc.obj_set acc (g x) (f (g x))) ks o) k = f k.
Proof.
  induction ks as [|x ks IH]; intros o H; simpl.
  - destruct H as [[] | H]. exact H.
  - apply IH. destruct (string_dec k (g x)) as [-> | Hne].
    + right. apply obj_get_set_same.
    + destruct H as [[H | H] | H].
      * congruence.
      * left. exact H.
      * right. rewrite obj_get_set_other by exact Hne. exact H.
Qed.

Lemma or_fin_zero (v : JS.value) :
  exists q, JS.or (JS.toNum v) (Fin 0) = Fin q /\ q == fieldOr0 v.
Proof.
  destruct v as [q|]; unfold JS.or; simpl.
  - destruct (Qeq_bool q 0) eqn:E; simpl.
    + exists 0. split; [reflexivity|]. apply Qeq_bool_iff in E.
      rewrite E. reflexivity.
    + exists q. split; reflexivity.
  - exists 0. split; reflexivity.
Qed.

Lemma cohortStat_fin (inp : Inputs) (statKey : string) :
  Calc.activeComps inp <> [] ->
  exists m, Calc.cohortStat inp statKey = Fin m /\
            m == mean (map (comp_stat_value statKey) (Calc.activeComps inp)).
Proof.
  intros Hne. unfold Calc.cohortStat, comp_stat_value, Calc.count, JS.ofNat.
  destruct (String.eqb statKey "HR").
  - destruct (fold_add_fin
                (fun c => JS.round (JS.or (JS.toNum (Calc.snapshot c "HRperPA"))
                                          (Fin 0)))
                (fun c => Qround (fieldOr0 (Calc.snapshot c "HRperPA")))
                (Calc.activeComps inp)) with (acc := 0) as [s [E V]].
    { intros c. destruct (or_fin_zero (Calc.snapshot c "HRperPA")) as [q [Eq Vq]].
      rewrite Eq. cbn [JS.round]. eexists; split; [reflexivity|].
      unfold Qround.
      assert (F : Qfloor (q + (1 # 2)) =
                  Qfloor (fieldOr0 (Calc.snapshot c "HRperPA") + (1 # 2))).
      { apply Qfloor_comp. rewrite Vq. reflexivity. }
      rewrite F. reflexivity. }
    rewrite E, div_fin by (apply count_nonzero; exact Hne).
    cbn [JS.isNaN]. eexists; split; [reflexivity|].
    unfold mean. rewrite length_map, V. field.
    apply count_nonzero; exact Hne.
  - destruct (fold_add_fin
                (fun c => JS.or (JS.toNum (Calc.snapshot c statKey)) (Fin 0))
                (fun c => fieldOr0 (Calc.snapshot c statKey))
                (Calc.activeComps inp)) with (acc := 0) as [s [E V]].
    { intros c. apply or_fin_zero. }
    rewrite E, div_fin by (apply count_nonzero; exact Hne).
    eexists; split; [reflexivity|].
    unfold mean. rewrite length_map, V. field.
    apply count_nonzero; exact Hne.
Qed.

Lemma cohortStats_lookup (inp : Inputs) (entry : string * StatConfig) :
  In entry (Calc.activeStatConfig inp) ->
  Calc.obj_get (Calc.cohortStats inp) (statKeyOf (fst entry)) =
  Calc.cohortStat inp (statKeyOf (fst entry)).
Proof.
  intros Hin. unfold Calc.cohortStats.
  apply (obj_fold_lookup (Calc.cohortStat inp) statKeyOf).
  left. rewrite map_map. apply in_map_iff. exists entry. split; auto.
Qed.

(** For a non-empty cohort and every stat of the active configuration, the
    value stored in the returned [cohortStats] under the stat's key is a
    number: the arithmetic mean over the active comparables of the field
    read from the pre-signing snapshot when there is one and from the
    trailing three-year snapshot otherwise, a missing field counting as 0
    (for home runs, of the rounded [HRperPA] field). *)
Theorem cohortStats_lookup_is_mean (inp : Inputs) (entry : string * StatConfig) :
  Calc.activeComps inp <> [] ->
  In entry (Calc.activeStatConfig inp) ->
  exists m,
    Calc.obj_get (cohortStats (Calc.calculations inp)) (statKeyOf (fst entry))
    = Fin m /\
    m == mean (map (comp_stat_value (statKeyOf (fst entry)))
                   (Calc.activeComps inp)).
Proof.
  intros Hne Hin. rewrite calculations_nonempty by exact Hne.
  cbn [cohortStats]. rewrite cohortStats_lookup by exact Hin.
  apply cohortStat_fin. exact Hne.
Qed.

Lemma cohortStats_lookup_is_mean_witness :
  exists m,
    Calc.obj_get (cohortStats (Calc.calculations sample_prefix)) "RBI" = Fin m /\
    m == mean (map (comp_stat_value "RBI") (Calc.activeComps sample_prefix)).
Proof.
  apply (cohortStats_lookup_is_mean sample_prefix
           ("fg_RBI", mkConfig "RBI" true 0.1 0 "raw")).
  - vm_compute. discriminate.
  - left. reflexivity.
Defined.

Lemma ratioOf_fin_bounds (k : string) (hb : bool) (p c : Q) :
  exists r, Calc.ratioOf k hb (Fin p) (Fin c) = Fin r /\
            0.1 <= r <= 10 /\
            (orb (String.eqb k "fg_Def") (String.eqb k "fg_BsR") = true ->
             0.5 <= r <= 2.0).
Proof.
  unfold Calc.ratioOf.
  destruct (orb (String.eqb k "fg_Def") (String.eqb k "fg_BsR")).
  - rewrite def_ratio_fin.
    destruct (clamp_fin 0.5 2.0 (1 + ((p + - c) / 10) * 0.2))
      as [r [E [B _]]]; [lra|].
    exists r. split; [exact E|]. split; [lra | intros _; exact B].
  - assert (B01 : 0.1 <= 10) by lra.
    destruct hb.
    + destruct (clamp_bounds 0.1 10 _ B01 (guarded_quotient_not_nan p c))
        as [r [E B]].
      exists r. split; [exact E|]. split; [exact B | discriminate].
    + destruct (clamp_bounds 0.1 10 _ B01 (guarded_quotient_not_nan c p))
        as [r [E B]].
      exists r. split; [exact E|]. split; [exact B | discriminate].
Qed.

Lemma peteValue_cases (inp : Inputs) (entry : string * StatConfig) :
  finite (peteValue (Calc.statComparison inp entry)) \/
  (peteValue (Calc.statComparison inp entry) = NaN /\
   statKeyOf (fst entry) = "HR" /\ PETE_STATS inp "HRperPA" = None).
Proof.
  unfold Calc.statComparison. cbn [peteValue].
  destruct (String.eqb (statKeyOf (fst entry)) "HR") eqn:E.
  - apply String.eqb_eq in E.
    destruct (PETE_STATS inp "HRperPA") as [q|].
    + left. apply finite_round. apply finite_Fin.
    + right. split; [reflexivity|]. split; [exact E | reflexivity].
  - left. destruct (or_fin_zero (PETE_STATS inp (statKeyOf (fst entry))))
      as [q [Eq _]]. rewrite Eq. apply finite_Fin.
Qed.

Lemma cohortValue_finite (inp : Inputs) (entry : string * StatConfig) :
  Calc.activeComps inp <> [] ->
  In entry (Calc.activeStatConfig inp) ->
  finite (cohortValue (Calc.statComparison inp entry)).
Proof.
  intros Hne Hin. unfold Calc.statComparison. cbn [cohortValue].
  rewrite cohortStats_lookup by exact Hin.
  destruct (cohortStat_fin inp (statKeyOf (fst entry)) Hne) as [m [E _]].
  rewrite E. destruct (String.eqb (statKeyOf (fst entry)) "HR").
  - apply finite_Fin.
  - apply finite_or_fallback. right. apply finite_Fin.
Qed.

Lemma statComparisons_ratio_bounds_aux (inp : Inputs) (sc : StatComparison) :
  Calc.activeComps inp <> [] ->
  In sc (Calc.statComparisons inp) ->
  finite (cohortValue sc) /\
  (peteValue sc <> NaN ->
   exists r, ratio sc = Fin r /\ 0.1 <= r <= 10 /\
     (orb (String.eqb (key sc) "fg_Def") (String.eqb (key sc) "fg_BsR") = true ->
      0.5 <= r <= 2.0)) /\
  (peteValue sc = NaN ->
   statKeyOf (key sc) = "HR" /\ PETE_STATS inp "HRperPA" = None).
Proof.
  intros Hne Hin. unfold Calc.statComparisons in Hin.
  apply in_map_iff in Hin. destruct Hin as [entry [<- Hin]].
  pose proof (cohortValue_finite inp entry Hne Hin) as Fc.
  pose proof (peteValue_cases inp entry) as Fp.
  split; [exact Fc|]. split.
  - intros Hp. destruct Fp as [[p Ep] | [Ep _]]; [|contradiction].
    destruct Fc as [c Ec].
    assert (R : ratio (Calc.statComparison inp entry) =
                Calc.ratioOf (fst entry) (higherBetter (snd entry))
                  (peteValue (Calc.statComparison inp entry))
                  (cohortValue (Calc.statComparison inp entry)))
      by reflexivity.
    rewrite R, Ep, Ec. apply ratioOf_fin_bounds.
  - intros Hp. destruct Fp as [[p Ep] | [_ H]]; [congruence | exact H].
Qed.

(** In the returned comparisons of a non-empty cohort every cohort value is
    a number, and every ratio is a number within [0.1, 10] (within
    [0.5, 2.0] for [fg_Def] and [fg_BsR]) as soon as the subject value is
    a number; the subject value fails to be one only for the home-run
    stat of a subject without the [HRperPA] field. *)
Theorem statComparisons_ratio_bounds (inp : Inputs) (sc : StatComparison) :
  Calc.activeComps inp <> [] ->
  In sc (statComparisons (Calc.calculations inp)) ->
  finite (cohortValue sc) /\
  (peteValue sc <> NaN ->
   exists r, ratio sc = Fin r /\ 0.1 <= r <= 10 /\
     (orb (String.eqb (key sc) "fg_Def") (String.eqb (key sc) "fg_BsR") = true ->
      0.5 <= r <= 2.0)) /\
  (peteValue sc = NaN ->
   statKeyOf (key sc) = "HR" /\ PETE_STATS inp "HRperPA" = None).
Proof.
  intros Hne Hin. rewrite calculations_nonempty in Hin by exact Hne.
  cbn [statComparisons] in Hin.
  exact (statComparisons_ratio_bounds_aux inp sc Hne Hin).
Qed.

Lemma statComparisons_ratio_bounds_witness :
  exists sc,
    In sc (statComparisons (Calc.calculations sample_prefix)) /\
    key sc = "fg_HR" /\
    exists r, ratio sc = Fin r /\ 0.1 <= r <= 10.
Proof.
  assert (Hne : Calc.activeComps sample_prefix <> [])
    by (vm_compute; discriminate).
  exists (Calc.statComparison sample_prefix
            ("fg_HR", mkConfig "HR" true 0.1 0 "raw")).
  assert (Hin : In (Calc.statComparison sample_prefix
                      ("fg_HR", mkConfig "HR" true 0.1 0 "raw"))
                   (statComparisons (Calc.calculations sample_prefix))).
  { rewrite calculations_nonempty by exact Hne. cbn [statComparisons].
    unfold Calc.statComparisons. apply in_map. right. left. reflexivity. }
  split; [exact Hin|]. split; [reflexivity|].
  destruct (statComparisons_ratio_bounds sample_prefix _ Hne Hin)
    as [_ [H _]].
  destruct H as [r [E [B _]]]; [vm_compute; discriminate|].
  exists r. split; [exact E | exact B].
Defined.

(** ** The weighted multiplier as a weighted mean *)

Lemma statImpacts_loop_sums (B : num) (comps : list StatComparison) :
  Forall (fun sc => finite (ratio sc) /\ finite (weight sc)) comps ->
  forall ws tw : Q, exists S W,
    snd (fst (Calc.statImpacts_loop B comps (Fin ws) (Fin tw))) = Fin S /\
    snd (Calc.statImpacts_loop B comps (Fin ws) (Fin tw)) = Fin W /\
    S == ws + Qsum (map (fun sc => toQ (ratio sc) * toQ (weight sc)) comps) /\
    W == tw + Qsum (map (fun sc => toQ (weight sc)) comps).
Proof.
  induction 1 as [|sc comps [[r Er] [w Ew]] _ IH]; intros ws tw.
  - exists ws, tw. unfold Qsum. simpl. repeat split; try reflexivity; ring.
  - cbn [Calc.statImpacts_loop]. rewrite Er, Ew. cbn [JS.mul JS.add].
    destruct (IH (ws + r * w) (tw + w)) as [S [W [ES [EW [VS VW]]]]].
    destruct (Calc.statImpacts_loop B comps (Fin (ws + r * w)) (Fin (tw + w)))
      as [[impacts ws'] tw'].
    cbn [fst snd] in *. exists S, W.
    split; [exact ES|]. split; [exact EW|].
    unfold Qsum in *. cbn [map fold_right toQ]. rewrite Er, Ew. cbn [toQ].
    split; [rewrite VS | rewrite VW]; ring.
Qed.

Lemma weighted_sum_bounds (lo hi : Q) (comps : list StatComparison) :
  Forall (fun sc => lo <= toQ (ratio sc) <= hi /\ 0 <= toQ (weight sc)) comps ->
  lo * Qsum (map (fun sc => toQ (weight sc)) comps)
  <= Qsum (map (fun sc => toQ (ratio sc) * toQ (weight sc)) comps)
  <= hi * Qsum (map (fun sc => toQ (weight sc)) comps).
Proof.
  unfold Qsum. induction 1 as [|sc comps [[L H] W] _ IH]; simpl.
  - lra.
  - assert (lo * toQ (weight sc) <= toQ (ratio sc) * toQ (weight sc))
      by (apply Qmult_le_compat_r; assumption).
    assert (toQ (ratio sc) * toQ (weight sc) <= hi * toQ (weight sc))
      by (apply Qmult_le_compat_r; assumption).
    lra.
Qed.

Lemma weights_sum_nonneg (comps : list StatComparison) :
  Forall (fun sc => 0 <= toQ (weight sc)) comps ->
  0 <= Qsum (map (fun sc => toQ (weight sc)) comps).
Proof.
  unfold Qsum. induction 1 as [|sc comps W _ IH]; simpl; lra.
Qed.

Lemma weights_sum_pos (comps : list StatComparison) (sc : StatComparison) :
  Forall (fun sc => 0 <= toQ (weight sc)) comps ->
  In sc comps -> 0 < toQ (weight sc) ->
  0 < Qsum (map (fun sc => toQ (weight sc)) comps).
Proof.
  intros HF. induction HF as [|sc0 comps W HF IH]; intros Hin Hpos.
  - destruct Hin.
  - pose proof (weights_sum_nonneg comps HF) as N.
    unfold Qsum in *. simpl. destruct Hin as [-> | Hin].
    + lra.
    + specialize (IH Hin Hpos). lra.
Qed.

Lemma pitcher_config_has_no_HR (entry : string * StatConfig) :
  In entry PITCHER_STAT_CONFIG -> statKeyOf (fst entry) <> "HR".
Proof.
  intros Hin. repeat (destruct Hin as [<- | Hin]; [vm_compute; discriminate|]).
  destruct Hin.
Qed.

(** The rational mean of the ratios weighted by the weights in effect. *)
Lemma rawMultiplier_weighted_mean (inp : Inputs) :
  Forall (fun sc => finite (ratio sc) /\ finite (weight sc))
         (Calc.statComparisons inp) ->
  ~ Qsum (map (fun sc => toQ (weight sc)) (Calc.statComparisons inp)) == 0 ->
  exists raw, Calc.rawMultiplier inp = Fin raw /\
    raw == Qsum (map (fun sc => toQ (ratio sc) * toQ (weight sc))
                     (Calc.statComparisons inp))
           / Qsum (map (fun sc => toQ (weight sc)) (Calc.statComparisons inp)).
Proof.
  intros HF Hnz.
  unfold Calc.rawMultiplier, Calc.weightedSum, Calc.totalWeight,
    Calc.statImpacts_run.
  destruct (statImpacts_loop_sums (Calc.baselineAAV inp)
              (Calc.statComparisons inp) HF 0 0) as [S [W [ES [EW [VS VW]]]]].
  rewrite ES, EW.
  assert (Wnz : ~ W == 0) by (rewrite VW; lra).
  rewrite div_fin by exact Wnz.
  eexists; split; [reflexivity|]. rewrite VS, VW. field. lra.
Qed.

Lemma proper_weights_aux (inp : Inputs) :
  Calc.activeComps inp <> [] ->
  isPitcherPlayer inp = true \/ (exists q, PETE_STATS inp "HRperPA" = Some q) ->
  (forall entry, In entry (Calc.activeStatConfig inp) ->
     exists w, customWeights inp (fst entry) = Some w /\ 0 <= w) ->
  (exists entry w, In entry (Calc.activeStatConfig inp) /\
     customWeights inp (fst entry) = Some w /\ 0 < w) ->
  (exists raw, Calc.rawMultiplier inp = Fin raw /\
     raw == Qsum (map (fun sc => toQ (ratio sc) * toQ (weight sc))
                      (Calc.statComparisons inp))
            / Qsum (map (fun sc => toQ (weight sc)) (Calc.statComparisons inp)) /\
     0.1 <= raw <= 10) /\
  (exists m, aavMultiplier (Calc.calculations inp) = Fin m /\
     (adjustAAV inp = true -> 0.50 <= m <= 2.0) /\
     (adjustAAV inp = false -> m = 1.0)) /\
  finite (fairAAV (Calc.calculations inp)).
Proof.
  intros Hne Hhr Hw [e0 [w0 [Hin0 [Ew0 Pw0]]]].
  assert (Hsc : Forall (fun sc => (finite (ratio sc) /\ finite (weight sc)) /\
                          (0.1 <= toQ (ratio sc) <= 10 /\ 0 <= toQ (weight sc)))
                       (Calc.statComparisons inp)).
  { apply Forall_forall. intros sc Hin.
    destruct (statComparisons_ratio_bounds_aux inp sc Hne Hin)
      as [_ [Hr Hnan]].
    unfold Calc.statComparisons in Hin. apply in_map_iff in Hin.
    destruct Hin as [entry [<- Hin]].
    destruct (Hw entry Hin) as [w [Ew Pw]].
    assert (Ewt : weight (Calc.statComparison inp entry) = Fin w).
    { unfold Calc.statComparison. cbn [weight]. rewrite Ew. reflexivity. }
    assert (Hp : peteValue (Calc.statComparison inp entry) <> NaN).
    { intros Hp. destruct (Hnan Hp) as [Hk Hm].
      destruct Hhr as [Hpit | [q Hq]].
      - unfold Calc.activeStatConfig in Hin. rewrite Hpit in Hin.
        exact (pitcher_config_has_no_HR entry Hin Hk).
      - congruence. }
    destruct (Hr Hp) as [r [Er [Br _]]].
    rewrite Er, Ewt. cbn [toQ].
    split; [split; apply finite_Fin | split; [exact Br | exact Pw]]. }
  assert (HF : Forall (fun sc => finite (ratio sc) /\ finite (weight sc))
                      (Calc.statComparisons inp)).
  { eapply Forall_impl; [|exact Hsc]. intros sc [H _]. exact H. }
  assert (HB : Forall (fun sc => 0.1 <= toQ (ratio sc) <= 10 /\
                                 0 <= toQ (weight sc))
                      (Calc.statComparisons inp)).
  { eapply Forall_impl; [|exact Hsc]. intros sc [_ H]. exact H. }
  assert (HN : Forall (fun sc => 0 <= toQ (weight sc)) (Calc.statComparisons inp)).
  { eapply Forall_impl; [|exact HB]. intros sc [_ H]. exact H. }
  assert (Wpos : 0 < Qsum (map (fun sc => toQ (weight sc))
                               (Calc.statComparisons inp))).
  { apply (weights_sum_pos _ (Calc.statComparison inp e0) HN).
    - unfold Calc.statComparisons. apply in_map. exact Hin0.
    - unfold Calc.statComparison. cbn [weight]. rewrite Ew0. exact Pw0. }
  destruct (rawMultiplier_weighted_mean inp HF) as [raw [Eraw Vraw]]; [lra|].
  pose proof (weighted_sum_bounds 0.1 10 _ HB) as [WL WH].
  assert (Braw : 0.1 <= raw <= 10).
  { rewrite Vraw. split.
    - apply Qle_shift_div_l; [exact Wpos | exact WL].
    - apply Qle_shift_div_r; [exact Wpos | exact WH]. }
  assert (Hm : exists m, Calc.aavMultiplier inp = Fin m /\
                 (adjustAAV inp = true -> 0.50 <= m <= 2.0) /\
                 (adjustAAV inp = false -> m = 1.0)).
  { unfold Calc.aavMultiplier, Calc.scaledMultiplier,
      Calc.sensitivityMultiplier. rewrite Eraw.
    destruct (adjustAAV inp).
    - unfold JS.sub. cbn [JS.neg JS.add JS.mul].
      destruct (clamp_fin 0.50 2.0 (1 + (raw + - 1) * 1.4)) as [m [E [B _]]];
        [lra|].
      exists m. split; [exact E|]. split; [intros _; exact B | discriminate].
    - exists 1.0. split; [reflexivity|]. split; [discriminate | reflexivity]. }
  split; [exists raw; split; [exact Eraw | split; [exact Vraw | exact Braw]]|].
  rewrite calculations_nonempty by exact Hne. cbn [aavMultiplier fairAAV].
  split; [exact Hm|].
  destruct Hm as [m [Em _]]. destruct (baselineAAV_fin inp Hne) as [b [Eb _]].
  unfold Calc.fairAAV. rewrite Em, Eb. apply finite_Fin.
Qed.


(** With a non-empty cohort, a subject whose home-run field is present (or
    a pitcher), and weights that are all numbers, none negative and one at
    least positive, the raw multiplier is the weighted mean of the ratios
    and lies within [0.1, 10]; the returned multiplier is then a number,
    within [0.50, 2.0] when the AAV toggle is on, and the returned fair AAV
    is a number. *)
Theorem aavMultiplier_for_proper_weights (inp : Inputs) :
  Calc.activeComps inp <> [] ->
  isPitcherPlayer inp = true \/ (exists q, PETE_STATS inp "HRperPA" = Some q) ->
  (forall entry, In entry (Calc.activeStatConfig inp) ->
     exists w, customWeights inp (fst entry) = Some w /\ 0 <= w) ->
  (exists entry w, In entry (Calc.activeStatConfig inp) /\
     customWeights inp (fst entry) = Some w /\ 0 < w) ->
  (exists raw, Calc.rawMultiplier inp = Fin raw /\
     raw == Qsum (map (fun sc => toQ (ratio sc) * toQ (weight sc))
                      (Calc.statComparisons inp))
            / Qsum (map (fun sc => toQ (weight sc)) (Calc.statComparisons inp)) /\
     0.1 <= raw <= 10) /\
  (exists m, aavMultiplier (Calc.calculations inp) = Fin m /\
     (adjustAAV inp = true -> 0.50 <= m <= 2.0) /\
     (adjustAAV inp = false -> m = 1.0)) /\
  finite (fairAAV (Calc.calculations inp)).
Proof. exact (proper_weights_aux inp). Qed.

Lemma aavMultiplier_for_proper_weights_witness :
  exists m, aavMultiplier (Calc.calculations sample_prefix) = Fin m /\
            0.50 <= m <= 2.0.
Proof.
  destruct (aavMultiplier_for_proper_weights sample_prefix)
    as [_ [[m [E [B _]]] _]].
  - vm_compute. discriminate.
  - right. exists 40. reflexivity.
  - intros entry Hin. unfold Calc.activeStatConfig in Hin. simpl in Hin.
    repeat (destruct Hin as [<- | Hin];
            [eexists; split; [reflexivity | unfold Qle; simpl; lia]|]).
    destruct Hin.
  - exists ("fg_RBI", mkConfig "RBI" true 0.1 0 "raw"), 1.
    split; [left; reflexivity|]. split; [reflexivity|].
    unfold Qlt; simpl; lia.
  - exists m. split; [exact E | apply B; reflexivity].
Defined.

(** ** Further properties of the years adjustment *)

Lemma subjectAge_fin (inp : Inputs) (a : Q) :
  PETE_STATS inp "age" = Some a -> Calc.subjectAge inp = Fin a.
Proof. intros H. unfold Calc.subjectAge. rewrite H. reflexivity. Qed.

(** The age multiplier is NaN or within [0.6, 1.8]; outside the "very young
    high performer" case it is within [0.6, 1.5]. It is a number as soon as
    the cohort is not empty and the subject's age is present. *)
Theorem ageMultiplier_bounds (inp : Inputs) (a : Q) :
  Calc.activeComps inp <> [] ->
  PETE_STATS inp "age" = Some a ->
  exists m, Calc.ageMultiplier inp = Fin m /\
            0.6 <= m <= 1.8 /\
            (Calc.isVeryYoungHighPerformer inp = false -> m <= 1.5) /\
            (25 < a -> m <= 1.5).
Proof.
  intros Hne Ha.
  assert (Fr : finite (Calc.rawAgeMultiplier inp)).
  { pose proof (subjectAge_fin inp a Ha) as Es.
    assert (Fd : finite (Calc.ageDelta inp)).
    { unfold Calc.ageDelta. rewrite Es. apply finite_sub; [apply finite_Fin|].
      apply (cohortSigningAge_finite inp a); assumption. }
    assert (Fo : finite (Calc.olderDelta inp))
      by (unfold Calc.olderDelta; auto with fin).
    assert (Fy : finite (Calc.youngerDelta inp))
      by (unfold Calc.youngerDelta; auto with fin).
    unfold Calc.rawAgeMultiplier, Calc.penaltyComponent, Calc.benefitComponent.
    destruct (isPitcherPlayer inp); auto 10 with fin. }
  destruct Fr as [r Er].
  assert (Hv : 25 < a -> Calc.isVeryYoungHighPerformer inp = false).
  { intros L. unfold Calc.isVeryYoungHighPerformer.
    rewrite (subjectAge_fin inp a Ha). cbn [JS.le].
    assert (E : Qle_bool a 25 = false) by (apply Qle_bool_false_lt; exact L).
    rewrite E. reflexivity. }
  unfold Calc.ageMultiplier in *. rewrite Er.
  destruct (Calc.isVeryYoungHighPerformer inp) eqn:V.
  - cbn [JS.mul].
    destruct (clamp_fin 0.6 1.8 (r * 1.15)) as [m [E [B _]]]; [lra|].
    exists m. split; [exact E|]. split; [exact B|].
    split; [discriminate|]. intros L. specialize (Hv L). discriminate.
  - destruct (clamp_fin 0.6 1.5 r) as [m [E [B _]]]; [lra|].
    exists m. split; [exact E|]. split; [lra|]. split; intros _; lra.
Qed.

Lemma ageMultiplier_bounds_witness :
  exists m, Calc.ageMultiplier sample_spec7 = Fin m /\ 0.6 <= m <= 1.8.
Proof.
  destruct (ageMultiplier_bounds sample_spec7 28) as [m [E [B _]]].
  - vm_compute. discriminate.
  - reflexivity.
  - exists m. split; [exact E | exact B].
Defined.

(** The absolute age penalty of a subject of known age is 0 below 31 for a
    hitter and below 33 for a pitcher, never negative, and never more than
    2.0 years for a hitter and 1.5 years for a pitcher. *)
Theorem absoluteAgePenalty_bounds (inp : Inputs) (a : Q) :
  PETE_STATS inp "age" = Some a ->
  exists p, Calc.absoluteAgePenalty inp = Fin p /\
    0 <= p /\
    (if isPitcherPlayer inp
     then p <= 1.5 /\ (a < 33 -> p == 0) /\ (33 <= a -> 0.15 <= p)
     else p <= 2.0 /\ (a < 31 -> p == 0) /\ (31 <= a -> 0.25 <= p)).
Proof.
  intros Ha. unfold Calc.absoluteAgePenalty.
  rewrite (subjectAge_fin inp a Ha). unfold JS.ge, JS.sub.
  cbn [JS.le JS.neg JS.add JS.mul].
  destruct (isPitcherPlayer inp).
  - destruct (Qle_bool 33 a) eqn:E.
    + apply Qle_bool_iff in E. rewrite min_fin. eexists; split; [reflexivity|].
      match goal with
      | |- context [Qle_bool ?x ?y] => destruct (Qle_bool x y) eqn:E2
      end.
      * repeat split; intros; lra.
      * apply Qle_bool_false_lt in E2. repeat split; intros; lra.
    + apply Qle_bool_false_lt in E. exists 0. split; [reflexivity|].
      repeat split; intros; lra.
  - destruct (Qle_bool 31 a) eqn:E.
    + apply Qle_bool_iff in E. rewrite min_fin. eexists; split; [reflexivity|].
      match goal with
      | |- context [Qle_bool ?x ?y] => destruct (Qle_bool x y) eqn:E2
      end.
      * repeat split; intros; lra.
      * apply Qle_bool_false_lt in E2. repeat split; intros; lra.
    + apply Qle_bool_false_lt in E. exists 0. split; [reflexivity|].
      repeat split; intros; lra.
Qed.

Lemma absoluteAgePenalty_bounds_witness :
  exists p, Calc.absoluteAgePenalty sample_spec7 = Fin p /\ 0 <= p.
Proof.
  destruct (absoluteAgePenalty_bounds sample_spec7 28) as [p [E [B _]]].
  - reflexivity.
  - exists p. split; [exact E | exact B].
Defined.

(** The performance adjustment to the years is a number within [-1.5, 1.5]
    whenever the multiplier is a number. With the AAV toggle off it is 0,
    the subject is never a "very young high performer" and the soft cap is
    the standard +2.0 years. *)
Theorem performanceAdjustment_bounds (inp : Inputs) :
  Calc.aavMultiplier inp <> NaN ->
  exists p, Calc.performanceAdjustment inp = Fin p /\
    -1.5 <= p <= 1.5 /\
    (adjustAAV inp = false ->
     p == 0 /\ Calc.isVeryYoungHighPerformer inp = false /\
     Calc.softCapLimit inp = Fin 2.0).
Proof.
  intros Hm.
  destruct (aavMultiplier_fin_or_nan inp) as [E | [m Em]]; [contradiction|].
  unfold Calc.performanceAdjustment, Calc.performanceAdjustmentRaw.
  assert (Hpm : exists pm, Calc.performanceMultiplier inp = Fin pm).
  { unfold Calc.performanceMultiplier.
    destruct (andb _ _); eexists; reflexivity. }
  destruct Hpm as [pm Epm]. rewrite Em, Epm.
  unfold JS.sub. cbn [JS.neg JS.add JS.mul].
  destruct (clamp_fin (-1.5) 1.5 ((m + - 1) * pm)) as [p [E [B V]]]; [lra|].
  exists p. split; [exact E|]. split; [exact B|].
  intros A. unfold Calc.aavMultiplier in Em. rewrite A in Em.
  injection Em as <-.
  split; [|split].
  - rewrite V. unfold Qclamp.
    assert (Z : (1.0 + - 1) * pm == 0) by ring.
    rewrite (Q.min_compat 1.5 1.5 (Qeq_refl _) _ _ Z).
    reflexivity.
  - unfold Calc.isVeryYoungHighPerformer, Calc.aavMultiplier. rewrite A.
    apply Bool.andb_false_r.
  - unfold Calc.softCapLimit, Calc.isVeryYoungHighPerformer,
      Calc.aavMultiplier. rewrite A.
    rewrite Bool.andb_false_r. reflexivity.
Qed.

Lemma performanceAdjustment_bounds_witness :
  exists p, Calc.performanceAdjustment sample_prefix = Fin p /\
            -1.5 <= p <= 1.5.
Proof.
  destruct (performanceAdjustment_bounds sample_prefix) as [p [E [B _]]].
  - vm_compute. discriminate.
  - exists p. split; [exact E | exact B].
Defined.

Lemma round_half_mono (x y : Q) : x <= y -> round_half x <= round_half y.
Proof.
  intros H. unfold round_half.
  assert (L : (Qfloor (x * 2 + (1 # 2)) <= Qfloor (y * 2 + (1 # 2)))%Z).
  { apply Qfloor_resp_le. lra. }
  rewrite Zle_Qle in L.
  generalize dependent (inject_Z (Qfloor (x * 2 + (1 # 2)))).
  generalize dependent (inject_Z (Qfloor (y * 2 + (1 # 2)))).
  intros u v Huv. apply Qmult_le_compat_r; [exact Huv|]. 
  apply Qinv_le_0_compat. lra.
Qed.

(** The soft cap: for a non-empty cohort whose years computation yields a
    number, the returned fair years never exceed the baseline years plus 5
    rounded to the nearest half year, and never the baseline plus 2 rounded
    when the subject is not a "very young high performer" (the floor of one
    year apart). *)
Theorem fairYears_soft_cap (inp : Inputs) :
  Calc.activeComps inp <> [] ->
  adjustYears inp = false \/
  ((exists a, PETE_STATS inp "age" = Some a) /\ Calc.aavMultiplier inp <> NaN) ->
  exists b y,
    baselineYears (Calc.calculations inp) = Fin b /\
    fairYears (Calc.calculations inp) = Fin y /\
    y <= Qmax 1 (round_half (b + 5)) /\
    (Calc.isVeryYoungHighPerformer inp = false ->
     y <= Qmax 1 (round_half (b + 2))).
Proof.
  intros Hne H. rewrite calculations_nonempty by exact Hne.
  cbn [baselineYears fairYears].
  destruct (baselineYears_fin inp Hne) as [b [Eb _]].
  destruct (totalYearsAdjustment_finite inp Hne H) as [t Et].
  assert (Hc : exists c, Calc.cappedYears inp = Fin c /\
                 c <= b + 5 /\
                 (Calc.isVeryYoungHighPerformer inp = false -> c <= b + 2)).
  { unfold Calc.cappedYears, Calc.proposedYears, Calc.softCapLimit.
    rewrite Eb, Et.
    destruct (Calc.isVeryYoungHighPerformer inp); cbn [JS.add];
      rewrite min_fin; eexists; (split; [reflexivity|]);
      match goal with
      | |- context [Qle_bool ?x ?y] => destruct (Qle_bool x y) eqn:E
      end;
      try (apply Qle_bool_false_lt in E);
      split; try discriminate; intros; lra. }
  destruct Hc as [c [Ec [C5 C2]]].
  exists b. unfold Calc.fairYears. rewrite Ec.
  destruct (round_to_half_floor1 c) as [y [Ey [_ [_ Vy]]]].
  exists y. split; [exact Eb|]. split; [exact Ey|]. split.
  - rewrite Vy. apply Q.max_le_compat_l. apply round_half_mono. exact C5.
  - intros V. rewrite Vy. apply Q.max_le_compat_l. apply round_half_mono.
    exact (C2 V).
Qed.

Lemma fairYears_soft_cap_witness :
  exists b y,
    baselineYears (Calc.calculations sample_spec7) = Fin b /\
    fairYears (Calc.calculations sample_spec7) = Fin y /\
    y <= Qmax 1 (round_half (b + 5)).
Proof.
  destruct (fairYears_soft_cap sample_spec7) as [b [y [Eb [Ey [C _]]]]].
  - vm_compute. discriminate.
  - right. split; [exists 28; reflexivity | vm_compute; discriminate].
  - exists b, y. split; [exact Eb|]. split; [exact Ey | exact C].
Defined.

Lemma add_nan_l (x : num) : JS.add NaN x = NaN.
Proof. destruct x; reflexivity. Qed.

Lemma add_nan_r (x : num) : JS.add x NaN = NaN.
Proof. destruct x; reflexivity. Qed.

Lemma fold_add_nan_acc {A : Type} (f : A -> num) (l : list A) :
  fold_left (fun sum a => JS.add sum (f a)) l NaN = NaN.
Proof.
  induction l as [|a l IH]; [reflexivity|].
  cbn [fold_left]. rewrite add_nan_l. exact IH.
Qed.

Lemma fold_add_nan {A : Type} (f : A -> num) (l : list A) (a : A) :
  In a l -> f a = NaN ->
  forall acc, fold_left (fun sum a => JS.add sum (f a)) l acc = NaN.
Proof.
  induction l as [|b l IH]; intros Hin Ha acc; [destruct Hin|].
  cbn [fold_left]. destruct Hin as [-> | Hin].
  - rewrite Ha, add_nan_r. apply fold_add_nan_acc.
  - apply IH; assumption.
Qed.

(** One comparable without any age is enough to discard the cohort's ages:
    when an active comparable has no age in its trailing snapshot and none
    in a pre-signing snapshot, the cohort signing age falls back to the
    subject's own age, so for a subject of known age the age delta is 0 and
    the raw age multiplier is 1. *)
Theorem cohortSigningAge_falls_back_to_subject (inp : Inputs) (c : Player)
    (a : Q) :
  In c (Calc.activeComps inp) ->
  threeYearStats c "age" = None ->
  (threeYearContractStats c = None \/
   exists s, threeYearContractStats c = Some s /\ s "age" = None) ->
  PETE_STATS inp "age" = Some a ->
  Calc.cohortSigningAge inp = Fin a /\
  same (Calc.ageDelta inp) (Fin 0) /\
  same (Calc.rawAgeMultiplier inp) (Fin 1).
Proof.
  intros Hin Ht Hc Ha.
  assert (Hage : Calc.ageAtSigning c = NaN).
  { unfold Calc.ageAtSigning. rewrite Ht.
    destruct Hc as [-> | [s [-> Hs]]]; [reflexivity|].
    rewrite Hs. reflexivity. }
  assert (Ec : Calc.cohortSigningAge inp = Fin a).
  { unfold Calc.cohortSigningAge.
    rewrite (fold_add_nan Calc.ageAtSigning _ c Hin Hage).
    rewrite Ha. reflexivity. }
  assert (Ed : Calc.ageDelta inp = Fin (a + - a)).
  { unfold Calc.ageDelta. rewrite Ec, (subjectAge_fin inp a Ha). reflexivity. }
  split; [exact Ec|]. split.
  - rewrite Ed. simpl. ring.
  - unfold Calc.rawAgeMultiplier, Calc.penaltyComponent,
      Calc.benefitComponent, Calc.olderDelta, Calc.youngerDelta.
    rewrite Ed. cbn [JS.neg]. rewrite !max_fin.
    assert (Z1 : (if Qle_bool 0 (a + - a) then a + - a else 0) == 0).
    { destruct (Qle_bool 0 (a + - a)); ring. }
    assert (Z2 : (if Qle_bool 0 (- (a + - a)) then - (a + - a) else 0) == 0).
    { destruct (Qle_bool 0 (- (a + - a))); ring. }
    destruct (isPitcherPlayer inp); unfold JS.sub;
      cbn [JS.mul JS.add JS.neg same]; rewrite Z1, Z2; ring.
Qed.

Lemma cohortSigningAge_falls_back_to_subject_witness :
  Calc.cohortSigningAge sample_no_age = Fin 28.
Proof.
  apply (cohortSigningAge_falls_back_to_subject sample_no_age comp_no_age 28).
  - left. reflexivity.
  - reflexivity.
  - left. reflexivity.
  - reflexivity.
Defined.

(** ** Further properties of the inflation adjustment *)

Lemma spec_exponent_falsy_nonneg (c : Player) : (0 <= spec_exponent_falsy c)%Z.
Proof.
  unfold spec_exponent_falsy. destruct (signedYear c) as [y|]; [|lia].
  destruct (y =? 0)%Z; lia.
Qed.

Lemma spec_rate_nonneg (inp : Inputs) : 0 <= spec_rate inp.
Proof.
  unfold spec_rate. pose proof (Q.le_max_l 0 (inflationPercent inp)) as H.
  apply Qle_shift_div_l; lra.
Qed.

Lemma Qmult_le_l_aux (x y : Q) : 0 <= x -> 1 <= y -> x * 1 <= x * y.
Proof. intros Hx Hy. nra. Qed.

(** Inflation never lowers a comparable's AAV: the adjusted AAV of a
    non-negative AAV is at least that AAV, and it is the AAV itself when
    the inflation percentage is zero or negative, when the comparable
    signed in 2025 or later, or when it has no signing year. *)
Theorem inflation_never_lowers_AAV (inp : Inputs) (c : Player) :
  exists q, Calc.adjustedAAV inp c = Fin q /\
    (0 <= AAV c -> AAV c <= q) /\
    (inflationPercent inp <= 0 -> q == AAV c) /\
    (forall y, signedYear c = Some y -> (2025 <= y)%Z -> q == AAV c) /\
    (signedYear c = None -> q == AAV c).
Proof.
  destruct (adjustedAAV_fin inp c) as [q [E V]].
  exists q. split; [exact E|]. unfold spec_adjustedAAV in V.
  pose proof (spec_rate_nonneg inp) as Hr.
  pose proof (spec_exponent_falsy_nonneg c) as He.
  split; [|split; [|split]].
  - intros HA.
    assert (P : 1 <= (1 + spec_rate inp) ^ spec_exponent_falsy c).
    { apply Qpower_1_le; [lra | exact He]. }
    rewrite V.
    setoid_replace (AAV c) with (AAV c * 1) at 1 by ring.
    apply Qmult_le_l_aux; assumption.
  - intros Hp. rewrite V.
    assert (R : 1 + spec_rate inp == 1).
    { unfold spec_rate. rewrite Q.max_l by exact Hp. field. }
    rewrite R, Qpower_1. ring.
  - intros y Hy L. rewrite V. unfold spec_exponent_falsy. rewrite Hy.
    destruct (y =? 0)%Z.
    + simpl. ring.
    + replace (Z.max 0 (2025 - y)) with 0%Z by lia. simpl. ring.
  - intros Hn. rewrite V. unfold spec_exponent_falsy. rewrite Hn.
    simpl. ring.
Qed.

(** ** The comp selection *)

Lemma StrSet_has_In (s : list string) (x : string) :
  StrSet.has s x = true <-> In x s.
Proof.
  unfold StrSet.has. rewrite existsb_exists. split.
  - intros [y [Hy E]]. apply String.eqb_eq in E. subst y. exact Hy.
  - intros H. exists x. split; [exact H | apply String.eqb_refl].
Qed.

Lemma StrSet_add_In (s : list string) (x y : string) :
  In y (StrSet.add s x) <-> In y s \/ y = x.
Proof.
  unfold StrSet.add. destruct (StrSet.has s x) eqn:E.
  - apply StrSet_has_In in E. split; [auto|]. intros [H | ->]; assumption.
  - rewrite in_app_iff. simpl. split.
    + intros [H | [H | []]]; auto.
    + intros [H | ->]; auto.
Qed.

Lemma StrSet_add_NoDup (s : list string) (x : string) :
  NoDup s -> NoDup (StrSet.add s x).
Proof.
  intros H. unfold StrSet.add. destruct (StrSet.has s x) eqn:E; [exact H|].
  assert (Hx : ~ In x s).
  { intros Hin. apply StrSet_has_In in Hin. congruence. }
  clear E. induction H as [|a l Ha Hl IH]; simpl.
  - constructor; [intros [] | constructor].
  - constructor.
    + rewrite in_app_iff. simpl. intros [H | [H | []]].
      * contradiction.
      * subst a. apply Hx. left. reflexivity.
    + apply IH. intros H. apply Hx. right. exact H.
Qed.

Lemma StrSet_ofList_acc (l : list string) :
  forall acc, NoDup acc ->
    NoDup (fold_left StrSet.add l acc) /\
    (forall y, In y (fold_left StrSet.add l acc) <-> In y acc \/ In y l).
Proof.
  induction l as [|x l IH]; intros acc Hacc; simpl.
  - split; [exact Hacc|]. intros y. split; [auto | intros [H | []]; exact H].
  - destruct (IH (StrSet.add acc x) (StrSet_add_NoDup acc x Hacc)) as [N I].
    split; [exact N|]. intros y. rewrite I, StrSet_add_In.
    split; [intros [[H | H] | H] | intros [H | [H | H]]]; auto.
Qed.

Lemma StrSet_ofList_NoDup (l : list string) : NoDup (StrSet.ofList l).
Proof. apply (StrSet_ofList_acc l []). constructor. Qed.

Lemma StrSet_ofList_In (l : list string) (y : string) :
  In y (StrSet.ofList l) <-> In y l.
Proof.
  unfold StrSet.ofList.
  destruct (StrSet_ofList_acc l [] (NoDup_nil _)) as [_ I].
  rewrite I. simpl. split; [intros [[] | H]; exact H | auto].
Qed.

Lemma StrSet_ofList_nonempty (l : list string) :
  l <> [] -> StrSet.ofList l <> [].
Proof.
  intros H E. destruct l as [|x l]; [contradiction|].
  assert (Hx : In x (StrSet.ofList (x :: l)))
    by (apply StrSet_ofList_In; left; reflexivity).
  rewrite E in Hx. destruct Hx.
Qed.

Lemma length_pos_nonempty {A : Type} (l : list A) :
  (0 <? List.length l)%nat = true <-> l <> [].
Proof.
  destruct l as [|a l]; simpl; split; intros H.
  - discriminate.
  - contradiction.
  - discriminate.
  - reflexivity.
Qed.

Lemma valid_selection_active (inp : Inputs) (sel : list string) :
  valid_selection (COMPS inp) sel ->
  Calc.activeComps (Selection.withSelection inp sel) <> [].
Proof.
  intros [_ [Hne Hincl]] E. destruct sel as [|x sel]; [contradiction|].
  assert (Hx : In x (map id (COMPS inp))) by (apply Hincl; left; reflexivity).
  apply in_map_iff in Hx. destruct Hx as [c [Hc Hin]].
  assert (Ha : In c (Calc.activeComps (Selection.withSelection inp (x :: sel)))).
  { unfold Calc.activeComps. apply filter_In. split; [exact Hin|].
    cbn [Selection.withSelection selectedComps]. rewrite Hc.
    simpl. rewrite String.eqb_refl. reflexivity. }
  rewrite E in Ha. destruct Ha.
Qed.

(** Whenever there is at least one comp, the initial selection (whatever
    was saved) and the selection left by the synchronisation with a changed
    comp list are valid: a set that is not empty and only holds ids of the
    current comps. With such a selection the memo has active comps, so it
    does not take its empty-cohort branch. *)
Theorem selection_valid_after_init_and_sync (inp : Inputs) :
  COMPS inp <> [] ->
  (forall saved,
     valid_selection (COMPS inp) (Selection.initial (COMPS inp) saved) /\
     Calc.activeComps
       (Selection.withSelection inp (Selection.initial (COMPS inp) saved))
     <> []) /\
  (forall sel, NoDup sel ->
     valid_selection (COMPS inp) (Selection.sync (COMPS inp) sel) /\
     Calc.activeComps
       (Selection.withSelection inp (Selection.sync (COMPS inp) sel))
     <> []).
Proof.
  intros Hne.
  assert (Hids : map id (COMPS inp) <> []).
  { destruct (COMPS inp); [contradiction | discriminate]. }
  assert (Hall : valid_selection (COMPS inp) (StrSet.ofList (map id (COMPS inp)))).
  { split; [apply StrSet_ofList_NoDup|].
    split; [apply StrSet_ofList_nonempty; exact Hids|].
    intros y Hy. rewrite StrSet_ofList_In in Hy. exact Hy. }
  assert (Hinit : forall saved,
            valid_selection (COMPS inp) (Selection.initial (COMPS inp) saved)).
  { intros saved. unfold Selection.initial.
    destruct saved as [ids|].
    - destruct (0 <? List.length (filter _ ids))%nat eqn:E; [|exact Hall].
      apply length_pos_nonempty in E.
      split; [apply StrSet_ofList_NoDup|].
      split; [apply StrSet_ofList_nonempty; exact E|].
      intros y Hy. rewrite StrSet_ofList_In in Hy. apply filter_In in Hy.
      destruct Hy as [_ Hy]. apply existsb_exists in Hy.
      destruct Hy as [z [Hz Ez]]. apply String.eqb_eq in Ez. subst z. exact Hz.
    - destruct (0 <? List.length (map id (COMPS inp)))%nat; exact Hall. }
  assert (Hsync : forall sel, NoDup sel ->
            valid_selection (COMPS inp) (Selection.sync (COMPS inp) sel)).
  { intros sel Hnd. unfold Selection.sync.
    set (valid := filter (fun i => StrSet.has (StrSet.ofList (map id (COMPS inp))) i) sel).
    assert (Hv : forall y, In y valid -> In y (map id (COMPS inp))).
    { intros y Hy. apply filter_In in Hy. destruct Hy as [_ Hy].
      rewrite StrSet_has_In in Hy. rewrite StrSet_ofList_In in Hy. exact Hy. }
    destruct (0 <? List.length valid)%nat eqn:E; cbn [andb].
    - apply length_pos_nonempty in E.
      destruct (Nat.eqb (List.length valid) (List.length sel)) eqn:L.
      + apply Nat.eqb_eq in L.
        assert (Hall' : forall y, In y sel -> In y valid).
        { intros y Hy. unfold valid. apply filter_In. split; [exact Hy|].
          destruct (StrSet.has (StrSet.ofList (map id (COMPS inp))) y) eqn:Hh;
            [reflexivity|].
          exfalso.
          pose proof (filter_length_forallb
                        (fun i => StrSet.has (StrSet.ofList (map id (COMPS inp))) i)
                        sel L) as F.
          rewrite forallb_forall in F. specialize (F y Hy). congruence. }
        split; [exact Hnd|]. split.
        * intros Z. subst sel. apply E. reflexivity.
        * intros y Hy. apply Hv. apply Hall'. exact Hy.
      + split; [apply StrSet_ofList_NoDup|].
        split; [apply StrSet_ofList_nonempty; exact E|].
        intros y Hy. rewrite StrSet_ofList_In in Hy. apply Hv. exact Hy.
    - exact Hall. }
  split.
  - intros saved. split; [apply Hinit|].
    apply valid_selection_active. apply Hinit.
  - intros sel Hnd. split; [apply Hsync; exact Hnd|].
    apply valid_selection_active. apply Hsync. exact Hnd.
Qed.

Lemma selection_valid_after_init_and_sync_witness :
  valid_selection (COMPS sample_spec7)
    (Selection.sync (COMPS sample_spec7) ["gone"; "comp-a"]) /\
  valid_selection (COMPS sample_spec7)
    (Selection.initial (COMPS sample_spec7) (Some ["gone"])).
Proof.
  destruct (selection_valid_after_init_and_sync sample_spec7) as [Hi Hs].
  - discriminate.
  - split.
    + apply Hs. repeat constructor; simpl; intuition discriminate.
    + apply Hi.
Defined.

Lemma StrSet_delete_In (s : list string) (x y : string) :
  In y (StrSet.delete s x) <-> In y s /\ y <> x.
Proof.
  unfold StrSet.delete. rewrite filter_In. split.
  - intros [H E]. split; [exact H|]. intros ->.
    rewrite String.eqb_refl in E. discriminate.
  - intros [H Hne]. split; [exact H|].
    destruct (String.eqb x y) eqn:E; [|reflexivity].
    apply String.eqb_eq in E. congruence.
Qed.

(** The checkbox of a comp never empties the selection: toggling a comp of
    the current list on or off keeps a valid selection valid, so the memo
    keeps at least one active comp. Checking adds the comp; unchecking
    removes it when more than one comp is selected and does nothing when
    it would remove the last one. *)
Theorem toggle_keeps_selection_valid (inp : Inputs) (sel : list string)
    (c : Player) (checked : bool) :
  valid_selection (COMPS inp) sel ->
  In c (COMPS inp) ->
  valid_selection (COMPS inp) (Selection.toggle sel (id c) checked) /\
  Calc.activeComps
    (Selection.withSelection inp (Selection.toggle sel (id c) checked)) <> [] /\
  (checked = true -> In (id c) (Selection.toggle sel (id c) checked)) /\
  (checked = false -> (1 < List.length sel)%nat ->
   ~ In (id c) (Selection.toggle sel (id c) checked)) /\
  (checked = false -> (List.length sel <= 1)%nat ->
   Selection.toggle sel (id c) checked = sel).
Proof.
  intros [Hnd [Hne Hincl]] Hc.
  assert (V : valid_selection (COMPS inp) (Selection.toggle sel (id c) checked)).
  { unfold Selection.toggle. destruct checked.
    - split; [apply StrSet_add_NoDup; exact Hnd|]. split.
      + intros E.
        assert (H : In (id c) (StrSet.add sel (id c)))
          by (apply StrSet_add_In; right; reflexivity).
        rewrite E in H. destruct H.
      + intros y Hy. rewrite StrSet_add_In in Hy. destruct Hy as [Hy | ->].
        * apply Hincl. exact Hy.
        * apply in_map. exact Hc.
    - unfold StrSet.size. destruct (1 <? List.length sel)%nat eqn:L.
      + apply Nat.ltb_lt in L.
        split; [apply NoDup_filter; exact Hnd|]. split.
        * destruct sel as [|a [|b rest]]; simpl in L; try lia.
          assert (Hab : a <> b).
          { inversion Hnd as [|? ? Ha _]. intros ->. apply Ha. left. reflexivity. }
          intros E. destruct (string_dec a (id c)) as [Ea | Ea].
          -- assert (H : In b (StrSet.delete (a :: b :: rest) (id c))).
             { apply StrSet_delete_In. split; [right; left; reflexivity|].
               congruence. }
             rewrite E in H. destruct H.
          -- assert (H : In a (StrSet.delete (a :: b :: rest) (id c))).
             { apply StrSet_delete_In. split; [left; reflexivity | exact Ea]. }
             rewrite E in H. destruct H.
        * intros y Hy. rewrite StrSet_delete_In in Hy. apply Hincl. apply Hy.
      + split; [exact Hnd|]. split; [exact Hne | exact Hincl]. }
  split; [exact V|]. split; [apply valid_selection_active; exact V|].
  unfold Selection.toggle, StrSet.size. split; [|split].
  - intros ->. apply StrSet_add_In. right. reflexivity.
  - intros -> L. apply Nat.ltb_lt in L. rewrite L.
    rewrite StrSet_delete_In. intros [_ H]. apply H. reflexivity.
  - intros -> L. assert (E : (1 <? List.length sel)%nat = false)
      by (apply Nat.ltb_ge; exact L).
    rewrite E. reflexivity.
Qed.

Lemma toggle_keeps_selection_valid_witness :
  Selection.toggle ["comp-a"] (id comp2023) false = ["comp-a"].
Proof.
  apply (toggle_keeps_selection_valid sample_spec7 ["comp-a"] comp2023 false).
  - split; [repeat constructor; simpl; intuition|].
    split; [discriminate|]. intros y [<- | []]. left. reflexivity.
  - left. reflexivity.
  - reflexivity.
  - simpl. lia.
Defined.

(** ** The value shown in the comparison table *)

Lemma or_zero_not_nan (a : num) : JS.or a (Fin 0) <> NaN.
Proof.
  unfold JS.or. destruct a; simpl; try discriminate.
  destruct (negb (Qeq_bool q 0)); discriminate.
Qed.

Lemma guard_nan (x : num) : (if JS.isNaN x then Fin 0 else x) <> NaN.
Proof. destruct x; simpl; discriminate. Qed.

(** The table helper never yields NaN, whatever object it reads and
    whatever the key: missing, undefined and NaN properties all show as 0. *)
Theorem getStatValue_never_NaN (configKey : string) (stats : StatsObject) :
  getStatValue configKey stats <> NaN /\
  (String.eqb (statKeyOf configKey) "HR" = false ->
   stats (statKeyOf configKey) = None \/ stats (statKeyOf configKey) = Some NaN ->
   getStatValue configKey stats = Fin 0) /\
  (String.eqb (statKeyOf configKey) "HR" = true ->
   stats "HR" = None \/ stats "HR" = Some NaN ->
   stats "HRperPA" = None \/ stats "HRperPA" = Some NaN ->
   same (getStatValue configKey stats) (Fin 0)).
Proof.
  unfold getStatValue. split; [|split].
  - destruct (String.eqb (statKeyOf configKey) "HR").
    + destruct (stats "HR") as [v|].
      * destruct v; cbn [JS.isNaN negb]; try discriminate. apply guard_nan.
      * apply guard_nan.
    + apply guard_nan.
  - intros -> [-> | ->]; reflexivity.
  - intros -> [-> | ->] [-> | ->]; vm_compute; reflexivity.
Qed.

(** The table shows what the engine compared: for a non-empty cohort and a
    stat of the active configuration, the helper applied to the returned
    cohort statistics gives the comparison's cohort value, and applied to
    the subject's snapshot (which has no [HR] property of its own) it gives
    the comparison's subject value whenever that value is a number; when
    the subject value is NaN (home runs without the [HRperPA] field) the
    table shows 0. *)
Theorem getStatValue_matches_comparison (inp : Inputs)
    (entry : string * StatConfig) :
  Calc.activeComps inp <> [] ->
  In entry (Calc.activeStatConfig inp) ->
  PETE_STATS inp "HR" = None ->
  getStatValue (fst entry) (ofCohortStats (cohortStats (Calc.calculations inp)))
  = cohortValue (Calc.statComparison inp entry) /\
  (peteValue (Calc.statComparison inp entry) <> NaN ->
   same (getStatValue (fst entry) (ofPlayerStats (PETE_STATS inp)))
        (peteValue (Calc.statComparison inp entry))) /\
  (peteValue (Calc.statComparison inp entry) = NaN ->
   same (getStatValue (fst entry) (ofPlayerStats (PETE_STATS inp))) (Fin 0)).
Proof.
  intros Hne Hin Hhr. rewrite calculations_nonempty by exact Hne.
  cbn [cohortStats].
  pose proof (cohortStats_lookup inp entry Hin) as L.
  destruct (cohortStat_fin inp (statKeyOf (fst entry)) Hne) as [m [Em _]].
  rewrite Em in L.
  unfold getStatValue, Calc.statComparison. cbn [cohortValue peteValue].
  unfold ofCohortStats, ofPlayerStats.
  destruct (String.eqb (statKeyOf (fst entry)) "HR") eqn:K.
  - apply String.eqb_eq in K. rewrite K in L.
    unfold Calc.obj_get in L.
    rewrite Hhr. cbn [option_map].
    destruct (assoc "HR" (Calc.cohortStats inp)) as [v|] eqn:A;
      [|discriminate].
    subst v. cbn [JS.isNaN negb].
    split; [rewrite K; unfold Calc.obj_get; rewrite A; reflexivity|].
    destruct (PETE_STATS inp "HRperPA") as [q|]; cbn [option_map numOf JS.toNum].
    + split; [|intros H; discriminate]. intros _.
      unfold JS.or. cbn [JS.truthy].
      destruct (Qeq_bool q 0) eqn:Z; cbn [negb JS.round JS.isNaN same].
      * apply Qeq_bool_iff in Z.
        assert (F : Qfloor (0 + (1 # 2)) = Qfloor (q + (1 # 2))).
        { apply Qfloor_comp. rewrite Z. reflexivity. }
        rewrite F. reflexivity.
      * reflexivity.
    + split; [intros H; exfalso; apply H; reflexivity|].
      intros _. vm_compute. reflexivity.
  - unfold Calc.obj_get in *.
    destruct (assoc (statKeyOf (fst entry)) (Calc.cohortStats inp)) as [v|];
      [|discriminate].
    subst v. cbn [numOf].
    split.
    + pose proof (or_zero_not_nan (Fin m)) as N.
      destruct (JS.or (Fin m) (Fin 0)); try reflexivity. contradiction.
    + assert (E : numOf (option_map Fin (PETE_STATS inp (statKeyOf (fst entry))))
                  = JS.toNum (PETE_STATS inp (statKeyOf (fst entry)))).
      { destruct (PETE_STATS inp (statKeyOf (fst entry))); reflexivity. }
      rewrite E.
      pose proof (or_zero_not_nan
                    (JS.toNum (PETE_STATS inp (statKeyOf (fst entry))))) as N.
      destruct (JS.or (JS.toNum (PETE_STATS inp (statKeyOf (fst entry))))
                      (Fin 0)); cbn [JS.isNaN];
        split; intros H; try apply same_refl; try contradiction;
        try discriminate.
Qed.

Lemma getStatValue_matches_comparison_witness :
  getStatValue "fg_RBI"
    (ofCohortStats (cohortStats (Calc.calculations sample_prefix)))
  = cohortValue (Calc.statComparison sample_prefix
                   ("fg_RBI", mkConfig "RBI" true 0.1 0 "raw")).
Proof.
  apply (getStatValue_matches_comparison sample_prefix
           ("fg_RBI", mkConfig "RBI" true 0.1 0 "raw")).
  - vm_compute. discriminate.
  - left. reflexivity.
  - reflexivity.
Defined.

(** ** Weight presets *)

Lemma assoc_In {A : Type} (k : string) (l : list (string * A)) (v : A) :
  assoc k l = Some v -> In (k, v) l.
Proof.
  induction l as [|[k' v'] l IH]; simpl; [discriminate|].
  destruct (String.eqb k k') eqn:E.
  - apply String.eqb_eq in E. subst k'. intros H. injection H as ->.
    left. reflexivity.
  - intros H. right. apply IH. exact H.
Qed.

Ltac weights_case :=
  split; [reflexivity|];
  split; [repeat (constructor; [split; [reflexivity | unfold Qle; simpl; lia]|]);
          constructor|];
  split; [unfold Qlt; vm_compute; reflexivity|];
  intros H; discriminate H.

Lemma getWeightsForPosition_aux (position : option string) :
  map fst (getWeightsForPosition position)
  = map fst (configOfPosition (normalizedPosOf position)) /\
  weights_sound (getWeightsForPosition position) /\
  0 < Qsum (map snd (getWeightsForPosition position)) /\
  (assoc (normalizedPosOf position) POSITION_WEIGHTS = None ->
   getWeightsForPosition position = defaultWeightsOf STAT_CONFIG).
Proof.
  unfold getWeightsForPosition, weights_sound.
  generalize (normalizedPosOf position). intros n.
  destruct (assoc n POSITION_WEIGHTS) as [w|] eqn:A.
  - apply assoc_In in A. unfold POSITION_WEIGHTS in A.
    repeat (destruct A as [A | A];
            [injection A as <- <-; weights_case|]).
    destruct A.
  - assert (P : String.eqb n "P" = false).
    { destruct (String.eqb n "P") eqn:E; [|reflexivity].
      apply String.eqb_eq in E. subst n. discriminate A. }
    assert (SP : String.eqb n "SP" = false).
    { destruct (String.eqb n "SP") eqn:E; [|reflexivity].
      apply String.eqb_eq in E. subst n. discriminate A. }
    assert (RP : String.eqb n "RP" = false).
    { destruct (String.eqb n "RP") eqn:E; [|reflexivity].
      apply String.eqb_eq in E. subst n. discriminate A. }
    unfold configOfPosition. rewrite P, SP, RP. cbn [orb].
    split; [reflexivity|].
    split; [repeat (constructor;
                    [split; [reflexivity | unfold Qle; simpl; lia]|]);
            constructor|].
    split; [unfold Qlt; vm_compute; reflexivity | reflexivity].
Qed.

(** For every position, [getWeightsForPosition] returns exactly the keys of
    one stat configuration, in order (the pitcher one when the normalized
    position is P, SP or RP, the hitter one otherwise), each with a weight
    that is not negative, and with a positive total. A position outside the
    preset table always gets the hitter defaults: the pitcher defaults are
    never returned. *)
Theorem getWeightsForPosition_covers_config (position : option string) :
  map fst (getWeightsForPosition position)
  = map fst (configOfPosition (normalizedPosOf position)) /\
  weights_sound (getWeightsForPosition position) /\
  0 < Qsum (map snd (getWeightsForPosition position)) /\
  (assoc (normalizedPosOf position) POSITION_WEIGHTS = None ->
   getWeightsForPosition position = defaultWeightsOf STAT_CONFIG) /\
  getWeightsForPosition position <> defaultWeightsOf PITCHER_STAT_CONFIG.
Proof.
  destruct (getWeightsForPosition_aux position) as [K [S [T F]]].
  split; [exact K|]. split; [exact S|]. split; [exact T|]. split; [exact F|].
  intros E. unfold weights_sound in S. rewrite E in T.
  revert T E. unfold getWeightsForPosition.
  generalize (normalizedPosOf position). intros n T.
  destruct (assoc n POSITION_WEIGHTS) as [w|] eqn:A.
  - apply assoc_In in A. unfold POSITION_WEIGHTS in A.
    repeat (destruct A as [A | A]; [injection A as <- <-; discriminate|]).
    destruct A.
  - assert (P : String.eqb n "P" = false).
    { destruct (String.eqb n "P") eqn:E; [|reflexivity].
      apply String.eqb_eq in E. subst n. discriminate A. }
    assert (SP : String.eqb n "SP" = false).
    { destruct (String.eqb n "SP") eqn:E; [|reflexivity].
      apply String.eqb_eq in E. subst n. discriminate A. }
    assert (RP : String.eqb n "RP" = false).
    { destruct (String.eqb n "RP") eqn:E; [|reflexivity].
      apply String.eqb_eq in E. subst n. discriminate A. }
    rewrite P, SP, RP. cbn [orb]. discriminate.
Qed.

Lemma positive_entry (w : list (string * Q)) :
  Forall (fun e => 0 <= snd e) w -> 0 < Qsum (map snd w) ->
  exists e, In e w /\ 0 < snd e.
Proof.
  unfold Qsum. induction 1 as [|e w He _ IH]; simpl; intros T.
  - lra.
  - destruct (Qlt_le_dec 0 (snd e)) as [L | L].
    + exists e. split; [left; reflexivity | exact L].
    + destruct IH as [e' [Hin P]]; [lra|].
      exists e'. split; [right; exact Hin | exact P].
Qed.

(** The presets are safe to compute with: for a non-empty cohort, a subject
    whose home-run field is present (or a pitcher), and weights taken from
    [getWeightsForPosition] at a position of the subject's own kind, the
    returned multiplier is a number, within [0.50, 2.0] when the AAV toggle
    is on. *)
Theorem preset_weights_give_bounded_multiplier (inp : Inputs)
    (position : option string) :
  Calc.activeComps inp <> [] ->
  isPitcherPlayer inp = true \/ (exists q, PETE_STATS inp "HRperPA" = Some q) ->
  configOfPosition (normalizedPosOf position) = Calc.activeStatConfig inp ->
  exists m,
    aavMultiplier (Calc.calculations (withPositionWeights inp position)) = Fin m /\
    (adjustAAV inp = true -> 0.50 <= m <= 2.0) /\
    (adjustAAV inp = false -> m = 1.0).
Proof.
  intros Hne Hhr Hcfg.
  destruct (getWeightsForPosition_aux position) as [K [S [T _]]].
  rewrite Hcfg in K. unfold weights_sound in S.
  assert (Hkey : forall e, In e (getWeightsForPosition position) ->
            exists entry, In entry (Calc.activeStatConfig inp) /\
                          fst entry = fst e).
  { intros e He.
    assert (H : In (fst e) (map fst (Calc.activeStatConfig inp))).
    { rewrite <- K. apply in_map. exact He. }
    apply in_map_iff in H. destruct H as [entry [E Hin]].
    exists entry. split; [exact Hin | exact E]. }
  destruct (proper_weights_aux (withPositionWeights inp position))
    as [_ [Hm _]].
  - exact Hne.
  - exact Hhr.
  - intros entry Hin.
    change (Calc.activeStatConfig (withPositionWeights inp position))
      with (Calc.activeStatConfig inp) in Hin.
    assert (H : In (fst entry) (map fst (getWeightsForPosition position))).
    { rewrite K. apply in_map. exact Hin. }
    apply in_map_iff in H. destruct H as [e [E He]].
    rewrite Forall_forall in S. destruct (S e He) as [A N].
    exists (snd e). cbn [withPositionWeights customWeights].
    rewrite <- E. split; [exact A | exact N].
  - destruct (positive_entry (getWeightsForPosition position)) as [e [He P]].
    + eapply Forall_impl; [|exact S]. intros a [_ H]. exact H.
    + exact T.
    + destruct (Hkey e He) as [entry [Hin E]].
      rewrite Forall_forall in S. destruct (S e He) as [A _].
      exists entry, (snd e). split; [exact Hin|].
      cbn [withPositionWeights customWeights]. rewrite E.
      split; [exact A | exact P].
  - exact Hm.
Qed.

Lemma preset_weights_give_bounded_multiplier_witness :
  exists m,
    aavMultiplier (Calc.calculations
                     (withPositionWeights sample_prefix (Some " ss "))) = Fin m /\
    0.50 <= m <= 2.0.
Proof.
  destruct (preset_weights_give_bounded_multiplier sample_prefix (Some " ss "))
    as [m [E [B _]]].
  - vm_compute. discriminate.
  - right. exists 40. reflexivity.
  - reflexivity.
  - exists m. split; [exact E | apply B; reflexivity].
Defined.

(** ** Position normalisation *)

Ltac ascii_cases a :=
  destruct a as [b0 b1 b2 b3 b4 b5 b6 b7];
  destruct b0, b1, b2, b3, b4, b5, b6, b7; reflexivity.

Lemma isWhite_upper (a : ascii) : Str.isWhite (Str.upper a) = Str.isWhite a.
Proof. ascii_cases a. Qed.

Lemma isSep_upper (a : ascii) : Str.isSep (Str.upper a) = Str.isSep a.
Proof. ascii_cases a. Qed.

Lemma upper_upper (a : ascii) : Str.upper (Str.upper a) = Str.upper a.
Proof. ascii_cases a. Qed.

Lemma toUpperCase_idem (s : string) :
  Str.toUpperCase (Str.toUpperCase s) = Str.toUpperCase s.
Proof.
  induction s as [|a r IH]; simpl; [reflexivity|].
  rewrite upper_upper, IH. reflexivity.
Qed.

Lemma toUpperCase_trimStart (s : string) :
  Str.toUpperCase (Str.trimStart s) = Str.trimStart (Str.toUpperCase s).
Proof.
  induction s as [|a r IH]; simpl; [reflexivity|].
  rewrite isWhite_upper. destruct (Str.isWhite a); [exact IH | reflexivity].
Qed.

Lemma toUpperCase_trimEnd (s : string) :
  Str.toUpperCase (Str.trimEnd s) = Str.trimEnd (Str.toUpperCase s).
Proof.
  induction s as [|a r IH]; simpl; [reflexivity|].
  rewrite <- IH, isWhite_upper.
  destruct (Str.trimEnd r) as [|b r']; simpl.
  - destruct (Str.isWhite a); reflexivity.
  - reflexivity.
Qed.

Lemma toUpperCase_trim (s : string) :
  Str.toUpperCase (Str.trim s) = Str.trim (Str.toUpperCase s).
Proof.
  unfold Str.trim. rewrite toUpperCase_trimEnd, toUpperCase_trimStart.
  reflexivity.
Qed.

Lemma toUpperCase_splitFirst (s : string) :
  Str.toUpperCase (Str.splitFirst s) = Str.splitFirst (Str.toUpperCase s).
Proof.
  induction s as [|a r IH]; simpl; [reflexivity|].
  rewrite isSep_upper. destruct (Str.isSep a); simpl; [reflexivity|].
  rewrite IH. reflexivity.
Qed.

Lemma trimEnd_idem (s : string) : Str.trimEnd (Str.trimEnd s) = Str.trimEnd s.
Proof.
  induction s as [|a r IH]; simpl; [reflexivity|].
  destruct (Str.trimEnd r) as [|b r'] eqn:E.
  - destruct (Str.isWhite a) eqn:W; simpl; [reflexivity|].
    rewrite W. reflexivity.
  - change (Str.trimEnd (String a (String b r')))
      with (match Str.trimEnd (String b r') with
            | EmptyString =>
                if Str.isWhite a then EmptyString else String a EmptyString
            | r'' => String a r''
            end).
    rewrite IH. reflexivity.
Qed.

Lemma trimStart_startsNonWhite (s : string) : startsNonWhite (Str.trimStart s).
Proof.
  induction s as [|a r IH]; simpl; [exact I|].
  destruct (Str.isWhite a) eqn:W; [exact IH | exact W].
Qed.

Lemma trimEnd_startsNonWhite (s : string) :
  startsNonWhite s -> startsNonWhite (Str.trimEnd s).
Proof.
  destruct s as [|a r]; simpl; [auto|]. intros W.
  destruct (Str.trimEnd r); [rewrite W|]; exact W.
Qed.

Lemma trimStart_fix (s : string) : startsNonWhite s -> Str.trimStart s = s.
Proof.
  destruct s as [|a r]; simpl; [reflexivity|]. intros ->. reflexivity.
Qed.

Lemma trim_idem (s : string) : Str.trim (Str.trim s) = Str.trim s.
Proof.
  unfold Str.trim.
  rewrite (trimStart_fix (Str.trimEnd (Str.trimStart s)))
    by (apply trimEnd_startsNonWhite, trimStart_startsNonWhite).
  apply trimEnd_idem.
Qed.

Lemma splitFirst_noSep (s : string) : noSep (Str.splitFirst s).
Proof.
  induction s as [|a r IH]; simpl; [exact I|].
  destruct (Str.isSep a) eqn:E; simpl; [exact I | split; assumption].
Qed.

Lemma trimStart_noSep (s : string) : noSep s -> noSep (Str.trimStart s).
Proof.
  induction s as [|a r IH]; simpl; [auto|]. intros [Ha Hr].
  destruct (Str.isWhite a); [apply IH; exact Hr | split; assumption].
Qed.

Lemma trimEnd_noSep (s : string) : noSep s -> noSep (Str.trimEnd s).
Proof.
  induction s as [|a r IH]; simpl; [auto|]. intros [Ha Hr].
  specialize (IH Hr). destruct (Str.trimEnd r) as [|b r'].
  - destruct (Str.isWhite a); simpl; auto.
  - simpl. split; [exact Ha | exact IH].
Qed.

Lemma splitFirst_fix (s : string) : noSep s -> Str.splitFirst s = s.
Proof.
  induction s as [|a r IH]; simpl; [reflexivity|]. intros [-> Hr].
  rewrite IH by exact Hr. reflexivity.
Qed.

(** The primary label computed by [normalizePosition] is a fixed point of
    each of its steps. *)
Lemma primary_fixed (pos : string) :
  let p := Str.trim (Str.splitFirst (Str.toUpperCase (Str.trim pos))) in
  Str.toUpperCase (Str.trim p) = p /\
  Str.trim (Str.splitFirst p) = p.
Proof.
  intros p.
  assert (T : Str.trim p = p) by apply trim_idem.
  assert (U : Str.toUpperCase p = p).
  { unfold p. rewrite toUpperCase_trim, toUpperCase_splitFirst,
      toUpperCase_idem. reflexivity. }
  assert (S : Str.splitFirst p = p).
  { apply splitFirst_fix. unfold p, Str.trim.
    apply trimEnd_noSep, trimStart_noSep, splitFirst_noSep. }
  split.
  - rewrite T. exact U.
  - rewrite S. exact T.
Qed.

(** [normalizePosition] never returns the empty string, never returns "P"
    for a pitcher, and is idempotent; its result is already in the form
    [getWeightsForPosition] looks up (trimmed, upper case). *)
Theorem normalizePosition_idempotent (isPitcher : bool) (pos : option string) :
  normalizePosition isPitcher pos <> "" /\
  (isPitcher = true -> normalizePosition isPitcher pos <> "P") /\
  normalizePosition isPitcher (Some (normalizePosition isPitcher pos))
  = normalizePosition isPitcher pos /\
  normalizedPosOf (Some (normalizePosition isPitcher pos))
  = normalizePosition isPitcher pos.
Proof.
  assert (C : forall r, r = "SP" \/ r = "1B" ->
            (r = "SP" -> isPitcher = true) ->
            (r = "1B" -> isPitcher = false) ->
            r <> "" /\ (isPitcher = true -> r <> "P") /\
            normalizePosition isPitcher (Some r) = r /\
            normalizedPosOf (Some r) = r).
  { intros r [-> | ->] H1 H2.
    - rewrite (H1 eq_refl). repeat split; try discriminate; reflexivity.
    - rewrite (H2 eq_refl). repeat split; try discriminate; reflexivity. }
  destruct pos as [pos|]; [destruct pos as [|a0 r0]|].
  - simpl. destruct isPitcher; apply C; auto; discriminate.
  - set (pos := String a0 r0).
    set (p := Str.trim (Str.splitFirst (Str.toUpperCase (Str.trim pos)))).
    destruct (primary_fixed pos) as [F1 F2]. fold p in F1, F2.
    assert (N : normalizePosition isPitcher (Some pos) =
                if isPitcher
                then if String.eqb p "" then "SP"
                     else if String.eqb p "P" then "SP" else p
                else if String.eqb p "" then "1B" else p) by reflexivity.
    rewrite N. clear N.
    assert (G : forall q, q = p -> q <> "" ->
              normalizePosition isPitcher (Some q) =
              if isPitcher
              then if String.eqb q "" then "SP"
                   else if String.eqb q "P" then "SP" else q
              else if String.eqb q "" then "1B" else q).
    { intros q -> Hq. destruct p as [|a r] eqn:Ep; [contradiction|].
      unfold normalizePosition. rewrite F1, F2. reflexivity. }
    destruct isPitcher.
    + destruct (String.eqb p "") eqn:E1; [apply C; auto; discriminate|].
      destruct (String.eqb p "P") eqn:E2; [apply C; auto; discriminate|].
      apply String.eqb_neq in E1. apply String.eqb_neq in E2.
      split; [exact E1|]. split; [intros _; exact E2|].
      split.
      * rewrite (G p eq_refl E1).
        apply String.eqb_neq in E1. apply String.eqb_neq in E2.
        rewrite E1, E2. reflexivity.
      * exact F1.
    + destruct (String.eqb p "") eqn:E1; [apply C; auto; discriminate|].
      apply String.eqb_neq in E1.
      split; [exact E1|]. split; [discriminate|].
      split.
      * rewrite (G p eq_refl E1). apply String.eqb_neq in E1.
        rewrite E1. reflexivity.
      * exact F1.
  - simpl. destruct isPitcher; apply C; auto; discriminate.
Qed.

(** ** The primary position *)

Lemma countIn_increment (counts : list (string * nat)) (k q : string) :
  countIn (PrimaryPosition.increment counts k) q
  = (countIn counts q + (if String.eqb q k then 1 else 0))%nat.
Proof.
  unfold countIn. induction counts as [|[k' n] rest IH]; simpl.
  - destruct (String.eqb q k); reflexivity.
  - destruct (String.eqb k k') eqn:E; simpl.
    + apply String.eqb_eq in E. subst k'.
      destruct (String.eqb q k); lia.
    + destruct (String.eqb q k') eqn:E2.
      * apply String.eqb_eq in E2. subst k'.
        rewrite String.eqb_sym in E. rewrite E. lia.
      * exact IH.
Qed.

Lemma increment_keys (counts : list (string * nat)) (k q : string) :
  In q (map fst (PrimaryPosition.increment counts k))
  <-> In q (map fst counts) \/ q = k.
Proof.
  induction counts as [|[k' n] rest IH]; simpl.
  - split; [intros [H | []]; auto | intros [[] | H]; auto].
  - destruct (String.eqb k k') eqn:E; simpl.
    + apply String.eqb_eq in E. subst k'. split; [tauto|].
      intros [[H | H] | H]; auto.
    + rewrite IH. tauto.
Qed.

Lemma increment_invariant (counts : list (string * nat)) (k : string) :
  NoDup (map fst counts) /\ Forall (fun e => (1 <= snd e)%nat) counts ->
  NoDup (map fst (PrimaryPosition.increment counts k)) /\
  Forall (fun e => (1 <= snd e)%nat) (PrimaryPosition.increment counts k).
Proof.
  induction counts as [|[k' n] rest IH]; simpl; intros [Hnd Hpos].
  - split; repeat constructor. intros [].
  - inversion Hnd as [|? ? Hk Hr]. inversion Hpos as [|? ? Hn Hp]. subst.
    destruct (String.eqb k k') eqn:E; simpl.
    + split; [exact Hnd|]. constructor; [simpl in *; lia | exact Hp].
    + destruct (IH (conj Hr Hp)) as [N P]. apply String.eqb_neq in E.
      split.
      * constructor; [|exact N]. rewrite increment_keys.
        intros [H | H]; [contradiction | congruence].
      * constructor; assumption.
Qed.

Lemma In_assoc_NoDup {A : Type} (l : list (string * A)) (k : string) (v : A) :
  NoDup (map fst l) -> In (k, v) l -> assoc k l = Some v.
Proof.
  induction l as [|[k' v'] rest IH]; simpl; intros Hnd Hin; [destruct Hin|].
  inversion Hnd as [|? ? Hk Hr]. subst.
  destruct Hin as [H | H].
  - injection H as -> ->. rewrite String.eqb_refl. reflexivity.
  - destruct (String.eqb k k') eqn:E.
    + apply String.eqb_eq in E. subst k'. exfalso. apply Hk.
      apply in_map_iff. exists (k, v). split; [reflexivity | exact H].
    + apply IH; assumption.
Qed.

Section PrimaryPositionFacts.

Variable normalizePlayerName : string -> string.
Variable playerId : string.

Let step (counts : list (string * nat)) (row : PrimaryPosition.Row) :=
  match PrimaryPosition.countedAs normalizePlayerName playerId row with
  | Some positionAbbr => PrimaryPosition.increment counts positionAbbr
  | None => counts
  end.

Lemma positionCounts_acc (rows : list PrimaryPosition.Row) :
  forall acc,
    NoDup (map fst acc) /\ Forall (fun e => (1 <= snd e)%nat) acc ->
    (NoDup (map fst (fold_left step rows acc)) /\
     Forall (fun e => (1 <= snd e)%nat) (fold_left step rows acc)) /\
    forall q, countIn (fold_left step rows acc) q
              = (countIn acc q
                 + PrimaryPosition.timesPlayed normalizePlayerName playerId
                     rows q)%nat.
Proof.
  unfold PrimaryPosition.timesPlayed.
  induction rows as [|row rows IH]; intros acc Hacc; simpl.
  - split; [exact Hacc | intros q; lia].
  - assert (Hs : NoDup (map fst (step acc row)) /\
                 Forall (fun e => (1 <= snd e)%nat) (step acc row)).
    { unfold step.
      destruct (PrimaryPosition.countedAs normalizePlayerName playerId row);
        [apply increment_invariant|]; exact Hacc. }
    destruct (IH (step acc row) Hs) as [I C]. split; [exact I|].
    intros q. rewrite C. unfold step.
    destruct (PrimaryPosition.countedAs normalizePlayerName playerId row)
      as [p|]; [|lia].
    rewrite countIn_increment, (String.eqb_sym q p).
    destruct (String.eqb p q); simpl; lia.
Qed.

Lemma pickPrimary_acc (counts : list (string * nat)) :
  forall (m0 : nat) (b0 : option string),
    let r := fold_left (fun st e =>
                          if (fst st <? snd e)%nat
                          then (snd e, Some (fst e)) else st)
                       counts (m0, b0) in
    (m0 <= fst r)%nat /\
    Forall (fun e => (snd e <= fst r)%nat) counts /\
    (r = (m0, b0) \/
     exists e, In e counts /\ snd r = Some (fst e) /\ fst r = snd e).
Proof.
  induction counts as [|e counts IH]; intros m0 b0; simpl.
  - split; [lia|]. split; [constructor | left; reflexivity].
  - destruct (m0 <? snd e)%nat eqn:L.
    + apply Nat.ltb_lt in L.
      destruct (IH (snd e) (Some (fst e))) as [A [B C]].
      split; [lia|]. split; [constructor; [exact A | exact B]|].
      right. destruct C as [C | [e' [Hin [Hs Hf]]]].
      * exists e. rewrite C. split; [left; reflexivity|]. split; reflexivity.
      * exists e'. split; [right; exact Hin|]. split; assumption.
    + apply Nat.ltb_ge in L.
      destruct (IH m0 b0) as [A [B C]].
      split; [exact A|]. split; [constructor; [lia | exact B]|].
      destruct C as [C | [e' [Hin [Hs Hf]]]].
      * left. exact C.
      * right. exists e'. split; [right; exact Hin|]. split; assumption.
Qed.

(** The primary position is the most frequently played one: when
    [loadPrimaryPosition] returns a position, at least one 2025 row of the
    player counts for it and no position has more rows (codes 7, 8 and 9
    count together as OF); it returns nothing exactly when no row counts
    for any position. *)
Theorem loadPrimaryPosition_most_played (rows : list PrimaryPosition.Row) :
  (forall p,
     PrimaryPosition.loadPrimaryPosition normalizePlayerName playerId rows
     = Some p ->
     (1 <= PrimaryPosition.timesPlayed normalizePlayerName playerId rows p)%nat /\
     forall q,
       (PrimaryPosition.timesPlayed normalizePlayerName playerId rows q
        <= PrimaryPosition.timesPlayed normalizePlayerName playerId rows p)%nat) /\
  (PrimaryPosition.loadPrimaryPosition normalizePlayerName playerId rows = None
   <-> forall q,
         PrimaryPosition.timesPlayed normalizePlayerName playerId rows q
         = 0%nat).
Proof.
  unfold PrimaryPosition.loadPrimaryPosition, PrimaryPosition.pickPrimary,
    PrimaryPosition.positionCounts.
  fold step.
  destruct (positionCounts_acc rows [] (conj (NoDup_nil _) (Forall_nil _)))
    as [[Hnd Hpos] Hc].
  set (M := fold_left step rows []) in *.
  assert (Hcnt : forall q,
            PrimaryPosition.timesPlayed normalizePlayerName playerId rows q
            = countIn M q).
  { intros q. rewrite Hc. reflexivity. }
  destruct (pickPrimary_acc M 0%nat None) as [_ [Hle Hcase]].
  set (r := fold_left _ M (0%nat, None)) in *.
  assert (Hentry : forall e, In e M -> countIn M (fst e) = snd e).
  { intros [k n] Hin. unfold countIn. cbn [fst snd].
    rewrite (In_assoc_NoDup M k n Hnd Hin). reflexivity. }
  split.
  - intros p Hp. destruct Hcase as [C | [e [Hin [Hs Hf]]]].
    + rewrite C in Hp. discriminate.
    + rewrite Hs in Hp. injection Hp as <-.
      rewrite !Hcnt, (Hentry e Hin). split.
      * rewrite Forall_forall in Hpos. apply Hpos. exact Hin.
      * intros q. rewrite Hcnt. unfold countIn.
        destruct (assoc q M) as [n|] eqn:A; [|lia].
        apply assoc_In in A. rewrite Forall_forall in Hle.
        specialize (Hle (q, n) A). simpl in Hle. lia.
  - split.
    + intros Hn q. rewrite Hcnt. unfold countIn.
      destruct (assoc q M) as [n|] eqn:A; [|reflexivity].
      apply assoc_In in A. exfalso.
      destruct Hcase as [C | [e [Hin [Hs Hf]]]].
      * rewrite Forall_forall in Hle, Hpos.
        specialize (Hle (q, n) A). specialize (Hpos (q, n) A).
        rewrite C in Hle. simpl in *. lia.
      * rewrite Hs in Hn. discriminate.
    + intros Hz. destruct Hcase as [C | [e [Hin [Hs Hf]]]].
      * rewrite C. reflexivity.
      * exfalso. rewrite Forall_forall in Hpos. specialize (Hpos e Hin).
        specialize (Hz (fst e)). rewrite Hcnt, (Hentry e Hin) in Hz. lia.
Qed.

End PrimaryPositionFacts.

(** ** The contract structure calculations *)

Lemma int_lt_ceiling (k : Z) (y : Q) :
  inject_Z k < y <-> (k < Qceiling y)%Z.
Proof.
  split.
  - intros H. rewrite Zlt_Qlt.
    eapply Qlt_le_trans; [exact H | apply Qle_ceiling].
  - intros H. assert (L : (k <= Qceiling y - 1)%Z) by lia.
    rewrite Zle_Qle in L.
    eapply Qle_lt_trans; [exact L | apply Qceiling_lt].
Qed.

Lemma index_in_loop (t : Contract.ContractTerms) (i : nat) :
  (i < Contract.iterations t)%nat
  <-> inject_Z (Z.of_nat i) < Contract.years t.
Proof.
  unfold Contract.iterations, Contract.totalYears.
  rewrite int_lt_ceiling. lia.
Qed.

Lemma breakdown_empty (t : Contract.ContractTerms) :
  Contract.years t <= 0 -> Contract.yearlyBreakdown t = [].
Proof.
  intros H.
  assert (Z0 : Contract.iterations t = 0%nat).
  { destruct (Contract.iterations t) as [|n] eqn:E; [reflexivity|].
    assert (L : (0 < Contract.iterations t)%nat) by lia.
    apply index_in_loop in L. change (inject_Z (Z.of_nat 0)) with 0 in L.
    lra. }
  unfold Contract.yearlyBreakdown, Contract.calculateYearlyBreakdown.
  rewrite Z0. reflexivity.
Qed.

(** The breakdown has exactly one entry for each loop index [i] with
    [i < years], labelled 2026 + i; with zero or negative years it is
    empty, the total and guaranteed values are 0 and the tax figure falls
    back to the base AAV. *)
Theorem yearlyBreakdown_one_entry_per_year (t : Contract.ContractTerms) :
  (forall i : nat,
     (inject_Z (Z.of_nat i) < Contract.years t ->
      nth_error (Contract.yearlyBreakdown t) i = Some (Contract.yearAt t i) /\
      Contract.year (Contract.yearAt t i) = (2026 + Z.of_nat i)%Z) /\
     (Contract.years t <= inject_Z (Z.of_nat i) ->
      nth_error (Contract.yearlyBreakdown t) i = None)) /\
  (Contract.years t <= 0 ->
   Contract.yearlyBreakdown t = [] /\
   Contract.totalValue t = 0 /\
   Contract.guaranteedValue t == 0 /\
   Contract.cbtImpact t = Contract.baseAAV t).
Proof.
  split.
  - intros i. split.
    + intros H. apply index_in_loop in H. split; [|reflexivity].
      unfold Contract.yearlyBreakdown, Contract.calculateYearlyBreakdown.
      rewrite nth_error_map, nth_error_seq.
      assert (E : (i <? Contract.iterations t)%nat = true)
        by (apply Nat.ltb_lt; exact H).
      rewrite E. reflexivity.
    + intros H. apply nth_error_None.
      unfold Contract.yearlyBreakdown, Contract.calculateYearlyBreakdown.
      rewrite length_map, length_seq.
      destruct (Nat.lt_ge_cases i (Contract.iterations t)) as [L | L];
        [|exact L].
      apply index_in_loop in L. lra.
  - intros H. pose proof (breakdown_empty t H) as B.
    split; [exact B|].
    unfold Contract.guaranteedValue, Contract.totalValue, Contract.cbtImpact.
    rewrite B. simpl. split; [reflexivity|]. split; [ring | reflexivity].
Qed.

Lemma back_test (t : Contract.ContractTerms) (i : nat) :
  Contract.Qltb (inject_Z (Z.of_nat i)) (Contract.years t - 3)
  = (i + 3 <? Contract.iterations t)%nat.
Proof.
  unfold Contract.Qltb.
  destruct (Nat.ltb_spec (i + 3) (Contract.iterations t)) as [L | L].
  - apply index_in_loop in L.
    rewrite Nat2Z.inj_add, inject_Z_plus in L.
    change (inject_Z (Z.of_nat 3)) with 3 in L.
    apply Bool.negb_true_iff. apply Qle_bool_false_lt. lra.
  - assert (N : ~ inject_Z (Z.of_nat (i + 3)) < Contract.years t).
    { intros H. apply index_in_loop in H. lia. }
    rewrite Nat2Z.inj_add, inject_Z_plus in N.
    change (inject_Z (Z.of_nat 3)) with 3 in N.
    apply Bool.negb_false_iff. apply Qle_bool_iff. lra.
Qed.

Lemma front_test (k : nat) :
  Contract.Qltb (inject_Z (Z.of_nat k)) 3 = (k <? 3)%nat.
Proof.
  unfold Contract.Qltb. change 3 with (inject_Z 3).
  destruct (Nat.ltb_spec k 3) as [L | L].
  - apply Bool.negb_true_iff. apply Qle_bool_false_lt.
    rewrite <- Zlt_Qlt. lia.
  - apply Bool.negb_false_iff. apply Qle_bool_iff.
    rewrite <- Zle_Qle. lia.
Qed.

Lemma back_front_salary (t : Contract.ContractTerms) (i : nat) :
  (i < Contract.iterations t)%nat ->
  Contract.baseSalaryAt (Contract.withStructure t Contract.back_loaded) i
  = Contract.baseSalaryAt (Contract.withStructure t Contract.front_loaded)
      (Contract.iterations t - 1 - i).
Proof.
  intros Hi. unfold Contract.baseSalaryAt, Contract.totalYears.
  cbn [Contract.withStructure Contract.salaryStructure Contract.years
       Contract.baseAAV Contract.frontLoadPercent].
  rewrite back_test, front_test.
  destruct (Nat.ltb_spec (i + 3) (Contract.iterations t)) as [L | L];
    destruct (Nat.ltb_spec (Contract.iterations t - 1 - i) 3) as [L2 | L2];
    try reflexivity; lia.
Qed.

Lemma rev_map_seq {A : Type} (f : nat -> A) (n : nat) :
  rev (map f (seq 0 n)) = map (fun i => f (n - 1 - i)%nat) (seq 0 n).
Proof.
  induction n as [|n IH]; [reflexivity|].
  rewrite (seq_S n 0) at 1. rewrite map_app, rev_app_distr.
  cbn [map rev app seq]. rewrite IH. f_equal.
  - f_equal. lia.
  - rewrite <- seq_shift, map_map. apply map_ext. intros i.
    f_equal. lia.
Qed.

(** Back-loading is the mirror image of front-loading: over the [n] years
    of the breakdown, the base salary of year [i] of the back-loaded terms
    is the base salary of year [n - 1 - i] of the same terms front-loaded
    (the same expression, evaluated on the same terms), so the salary
    column of the back-loaded breakdown is that of the front-loaded one
    read backwards. *)
Theorem back_loaded_mirrors_front_loaded (t : Contract.ContractTerms) :
  (forall i, (i < Contract.iterations t)%nat ->
     Contract.baseSalaryAt (Contract.withStructure t Contract.back_loaded) i
     = Contract.baseSalaryAt (Contract.withStructure t Contract.front_loaded)
         (Contract.iterations t - 1 - i)) /\
  map Contract.baseSalary
      (Contract.yearlyBreakdown (Contract.withStructure t Contract.back_loaded))
  = rev (map Contract.baseSalary
           (Contract.yearlyBreakdown
              (Contract.withStructure t Contract.front_loaded))).
Proof.
  split; [apply back_front_salary|].
  unfold Contract.yearlyBreakdown, Contract.calculateYearlyBreakdown.
  change (Contract.iterations (Contract.withStructure t Contract.back_loaded))
    with (Contract.iterations t).
  change (Contract.iterations (Contract.withStructure t Contract.front_loaded))
    with (Contract.iterations t).
  rewrite !map_map. cbn [Contract.yearAt Contract.baseSalary].
  rewrite (rev_map_seq
             (fun i => Contract.round1
                         (Contract.baseSalaryAt
                            (Contract.withStructure t Contract.front_loaded) i))).
  apply map_ext_in. intros i Hi. apply in_seq in Hi.
  rewrite back_front_salary by lia. reflexivity.
Qed.

(** The signing bonus enters the first year only. Whatever the bonus, the
    salary column of the breakdown is the same and every later year's
    entry (salary, bonus, deferred, cash, tax figure) is the same; the
    bonus column holds the bonus rounded to one decimal in the first year
    and 0 in every later year. The total, which adds the two columns, so
    counts the bonus once, and with zero or negative years not at all. *)
Theorem signing_bonus_counted_once (t : Contract.ContractTerms) (b : Q) :
  map Contract.baseSalary
      (Contract.yearlyBreakdown (Contract.withSigningBonus t b))
  = map Contract.baseSalary (Contract.yearlyBreakdown t) /\
  (forall i,
     nth_error (Contract.yearlyBreakdown (Contract.withSigningBonus t b)) (S i)
     = nth_error (Contract.yearlyBreakdown t) (S i)) /\
  (forall y,
     nth_error (Contract.yearlyBreakdown (Contract.withSigningBonus t b)) 0
     = Some y ->
     Contract.bonus y = Contract.round1 b) /\
  (forall i y,
     nth_error (Contract.yearlyBreakdown (Contract.withSigningBonus t b)) (S i)
     = Some y ->
     Contract.bonus y == 0) /\
  (Contract.years t <= 0 ->
   Contract.yearlyBreakdown (Contract.withSigningBonus t b) = [] /\
   Contract.totalValue (Contract.withSigningBonus t b) = 0).
Proof.
  assert (N : forall i,
            nth_error (Contract.yearlyBreakdown (Contract.withSigningBonus t b)) i
            = if (i <? Contract.iterations t)%nat
              then Some (Contract.yearAt (Contract.withSigningBonus t b) i)
              else None).
  { intros i.
    unfold Contract.yearlyBreakdown, Contract.calculateYearlyBreakdown.
    rewrite nth_error_map, nth_error_seq.
    change (Contract.iterations (Contract.withSigningBonus t b))
      with (Contract.iterations t).
    destruct (i <? Contract.iterations t)%nat; reflexivity. }
  assert (N0 : forall i,
            nth_error (Contract.yearlyBreakdown t) i
            = if (i <? Contract.iterations t)%nat
              then Some (Contract.yearAt t i) else None).
  { intros i.
    unfold Contract.yearlyBreakdown, Contract.calculateYearlyBreakdown.
    rewrite nth_error_map, nth_error_seq.
    destruct (i <? Contract.iterations t)%nat; reflexivity. }
  split; [|split; [|split; [|split]]].
  - unfold Contract.yearlyBreakdown, Contract.calculateYearlyBreakdown.
    rewrite !map_map. reflexivity.
  - intros i. rewrite N, N0.
    destruct (S i <? Contract.iterations t)%nat; reflexivity.
  - intros y Hy. rewrite N in Hy.
    destruct (0 <? Contract.iterations t)%nat; [|discriminate].
    injection Hy as <-. reflexivity.
  - intros i y Hy. rewrite N in Hy.
    destruct (S i <? Contract.iterations t)%nat; [|discriminate].
    injection Hy as <-. reflexivity.
  - intros Hy.
    pose proof (breakdown_empty (Contract.withSigningBonus t b) Hy) as B.
    split; [exact B|]. unfold Contract.totalValue. rewrite B. reflexivity.
Qed.

Lemma round1_comp (x y : Q) : x == y -> Contract.round1 x = Contract.round1 y.
Proof.
  intros H. unfold Contract.round1.
  assert (E : Qfloor (x * 10 + (1 # 2)) = Qfloor (y * 10 + (1 # 2))).
  { apply Qfloor_comp. rewrite H. reflexivity. }
  rewrite E. reflexivity.
Qed.

(** Without deferral nothing is deferred: in every year of the breakdown
    the deferred amount is 0, the cash paid is the salary plus the bonus
    (rounded once, together), and the tax figure of the year is the base
    AAV rounded to one decimal. *)
Theorem no_deferral_pays_everything (t : Contract.ContractTerms) (i : nat) :
  Contract.deferralPercent t == 0 ->
  Contract.deferred (Contract.yearAt t i) == 0 /\
  Contract.totalCash (Contract.yearAt t i)
  = Contract.round1 (Contract.baseSalaryAt t i
                     + (if Nat.eqb i 0 then Contract.signingBonus t else 0)) /\
  Contract.cbtHit (Contract.yearAt t i) = Contract.round1 (Contract.baseAAV t).
Proof.
  intros H. unfold Contract.yearAt.
  cbn [Contract.deferred Contract.totalCash Contract.cbtHit].
  set (s := Contract.baseSalaryAt t i
            + (if Nat.eqb i 0 then Contract.signingBonus t else 0)).
  assert (D : s * (Contract.deferralPercent t / 100) == 0).
  { rewrite H. field. }
  split; [|split].
  - rewrite (round1_comp _ 0 D). reflexivity.
  - apply round1_comp. fold s. rewrite D. ring.
  - apply round1_comp. rewrite D. unfold Qdiv. ring.
Qed.

Lemma no_deferral_pays_everything_witness :
  Contract.deferred (Contract.yearAt Contract.defaultTerms 0) == 0 /\
  Contract.cbtHit (Contract.yearAt Contract.defaultTerms 0)
  = Contract.round1 (Contract.baseAAV Contract.defaultTerms).
Proof.
  destruct (no_deferral_pays_everything Contract.defaultTerms 0) as [D [_ C]].
  - reflexivity.
  - split; [exact D | exact C].
Defined.

(** ** The naive impacts and the direction of the ratio *)

(** What the impact loop computes for the stat at index [i] of the
    comparisons: its contribution is [(ratio - 1) * weight], and its naive
    dollar impact is the baseline times the contribution divided by the
    weight accumulated over the stats at indices 0 to [i]; the total weight
    of the multiplier is the weight accumulated over all the stats. *)
Theorem naive_impact_at_index (inp : Inputs) (i : nat) (c : StatComparison) :
  nth_error (Calc.statComparisons inp) i = Some c ->
  nth_error (Calc.statImpacts inp) i =
  Some (mkImpact c
          (JS.mul (JS.sub (ratio c) (Fin 1)) (weight c))
          (JS.div (JS.mul (Calc.baselineAAV inp)
                          (JS.mul (JS.sub (ratio c) (Fin 1)) (weight c)))
                  (runningWeight (Fin 0) (Calc.statComparisons inp) (S i)))) /\
  Calc.totalWeight inp =
  runningWeight (Fin 0) (Calc.statComparisons inp)
    (List.length (Calc.statComparisons inp)).
Proof.
  intros H. split.
  - unfold Calc.statImpacts, Calc.statImpacts_run.
    apply statImpacts_loop_running. exact H.
  - unfold Calc.totalWeight, Calc.statImpacts_run.
    apply statImpacts_loop_total.
Qed.

Lemma naive_impact_at_index_witness :
  exists c,
    nth_error (Calc.statComparisons sample_prefix) 1 = Some c /\
    nth_error (Calc.statImpacts sample_prefix) 1 =
    Some (mkImpact c
            (JS.mul (JS.sub (ratio c) (Fin 1)) (weight c))
            (JS.div (JS.mul (Calc.baselineAAV sample_prefix)
                            (JS.mul (JS.sub (ratio c) (Fin 1)) (weight c)))
                    (runningWeight (Fin 0) (Calc.statComparisons sample_prefix)
                       2))).
Proof.
  exists (Calc.statComparison sample_prefix
            ("fg_HR", mkConfig "HR" true 0.1 0 "raw")).
  assert (H : nth_error (Calc.statComparisons sample_prefix) 1 =
              Some (Calc.statComparison sample_prefix
                      ("fg_HR", mkConfig "HR" true 0.1 0 "raw")))
    by reflexivity.
  split; [exact H|].
  exact (proj1 (naive_impact_at_index sample_prefix 1 _ H)).
Defined.

Lemma Qclamp_mono (lo hi x y : Q) : x <= y -> Qclamp lo hi x <= Qclamp lo hi y.
Proof.
  intros H. unfold Qclamp. apply Q.max_le_compat_l.
  apply Q.min_le_compat_l. exact H.
Qed.

Lemma plain_ratio_value (k : string) (p c : Q) :
  orb (String.eqb k "fg_Def") (String.eqb k "fg_BsR") = false ->
  0.001 <= Qabs c ->
  exists r, Calc.ratioOf k true (Fin p) (Fin c) = Fin r /\
            r == Qclamp 0.1 10 (p / c).
Proof.
  intros Hk Hc. unfold Calc.ratioOf. rewrite Hk.
  assert (G : JS.lt (JS.abs (Fin c)) (Fin 0.001) = false).
  { simpl. unfold JS.Qltb. apply Bool.negb_false_iff. apply Qle_bool_iff.
    exact Hc. }
  rewrite G. rewrite div_fin by (apply small_abs_false; exact G).
  destruct (clamp_fin 0.1 10 (p / c)) as [r [E [_ V]]]; [lra|].
  exists r. split; [exact E | exact V].
Qed.

(** Direction of the ratio of a higher-is-better stat (other than
    [fg_Def] and [fg_BsR]) whose cohort value is at least 0.001 in absolute
    value: against a positive cohort value a larger subject value never
    gives a smaller ratio, but against a negative cohort value a larger
    subject value never gives a larger ratio. *)
Theorem ratio_direction_follows_cohort_sign (k : string) (p1 p2 c : Q) :
  orb (String.eqb k "fg_Def") (String.eqb k "fg_BsR") = false ->
  p1 <= p2 ->
  0.001 <= Qabs c ->
  exists r1 r2,
    Calc.ratioOf k true (Fin p1) (Fin c) = Fin r1 /\
    Calc.ratioOf k true (Fin p2) (Fin c) = Fin r2 /\
    (0 < c -> r1 <= r2) /\
    (c < 0 -> r2 <= r1).
Proof.
  intros Hk Hp L.
  destruct (plain_ratio_value k p1 c Hk L) as [r1 [E1 V1]].
  destruct (plain_ratio_value k p2 c Hk L) as [r2 [E2 V2]].
  exists r1, r2. split; [exact E1|]. split; [exact E2|].
  split; intros Hc; rewrite V1, V2; apply Qclamp_mono.
  - unfold Qdiv. apply Qmult_le_compat_r; [exact Hp|].
    apply Qinv_le_0_compat. lra.
  - assert (Pc : 0 < - c) by lra.
    setoid_replace (p2 / c) with ((- p2) / (- c)) by (field; lra).
    setoid_replace (p1 / c) with ((- p1) / (- c)) by (field; lra).
    unfold Qdiv. apply Qmult_le_compat_r; [lra|].
    apply Qinv_le_0_compat. lra.
Qed.

Lemma ratio_direction_follows_cohort_sign_witness :
  exists r1 r2,
    Calc.ratioOf "fg_WAR" true (Fin 1) (Fin (-2)) = Fin r1 /\
    Calc.ratioOf "fg_WAR" true (Fin 3) (Fin (-2)) = Fin r2 /\
    r2 <= r1.
Proof.
  destruct (ratio_direction_follows_cohort_sign "fg_WAR" 1 3 (-2))
    as [r1 [r2 [E1 [E2 [_ D]]]]].
  - reflexivity.
  - unfold Qle; simpl; lia.
  - unfold Qle; simpl; lia.
  - exists r1, r2. split; [exact E1|]. split; [exact E2|].
    apply D. unfold Qlt; simpl; lia.
Defined.
